(** * Mining/miner.h: the level-synchronous pattern miner

    A shallow embedding of [class Miner] (lonestar/include/Mining/miner.h):
    the extension generators, the automorphism filters, quick-pattern and
    canonical-pattern aggregation, support evaluation and filtering.

    Conventions.
    - [unsigned] values are integers of [Z] in [0, 2^32); arithmetic that can
      leave the range is wrapped explicitly ([wrap32], [to_int], [to_BYTE]).
    - Indices into embeddings and vectors are [nat].
    - [std::unordered_map] is a [gmap], [std::unordered_set] a [gset].
    - An [InsertBag] queue is the list of its elements in insertion order.
    - A run that stops early ([assert], an exception of [at], an index
      outside a vector) is an [outcome] other than [Ok]. *)

From Stdlib Require Import ZArith List Bool Lia Permutation.
From stdpp Require Import base option list gmap sets fin_maps fin_sets.

Local Open Scope Z_scope.
#[local] Set Warnings "-clear-no-such-hyp".

(** ** Machine integers *)

Definition UINT_MAX : Z := 0xFFFFFFFF.

(** Result of an [unsigned] operation. *)
Definition wrap32 (z : Z) : Z := z mod 2 ^ 32.

(** Conversion of an [unsigned] value to [int] (two's complement). *)
Definition to_int (z : Z) : Z :=
  let r := z mod 2 ^ 32 in if r <? 2 ^ 31 then r else r - 2 ^ 32.

(** The cast [(BYTE)n]. *)
Definition to_BYTE (n : nat) : nat := (n mod 256)%nat.

(** ** Outcomes of a call *)

Inductive outcome (A : Type) : Type :=
| Ok (a : A)
| AssertFailed   (* an [assert] did not hold: the run aborts *)
| OutOfRange     (* [std::out_of_range], thrown by [unordered_map::at] *)
| OutOfBounds.   (* an index outside its vector *)
Arguments Ok {A} a.
Arguments AssertFailed {A}.
Arguments OutOfRange {A}.
Arguments OutOfBounds {A}.

#[global] Instance outcome_ret : MRet outcome := λ A a, Ok a.
#[global] Instance outcome_bind : MBind outcome := λ A B k m,
  match m with
  | Ok a => k a
  | AssertFailed => AssertFailed
  | OutOfRange => OutOfRange
  | OutOfBounds => OutOfBounds
  end.

Definition assert (b : bool) : outcome unit :=
  if b then Ok tt else AssertFailed.

(** [v[i]] on a vector. *)
Definition index {A} (l : list A) (i : nat) : outcome A :=
  match l !! i with
  | Some a => Ok a
  | None => OutOfBounds
  end.

(** ** Embeddings *)

(** [VertexId] is declared outside this header; the ids are [unsigned] here,
    as the parameters of [is_connected] and [is_all_connected] that receive
    them. *)
Definition VertexId : Type := Z.

(** Modelled from the spec: the element type of an edge embedding, declared
    outside this header. "One step of an embedding: a vertex identifier, an
    index into the embedding referencing the vertex it extended from
    (history), and optional vertex/edge labels". Fields in the order of the
    constructor call in [extend_edge]. *)
Record ElementType : Type := mkElement {
  vertex_id : VertexId;
  key : nat;
  edge_label : Z;
  vertex_label : Z;
  history_info : nat
}.

(** Modelled from the spec: an edge embedding, "an ordered sequence of
    Elements", with the quick-pattern id recorded on it by aggregation. *)
Record EdgeEmbedding : Type := mkEdgeEmbedding {
  elements : list ElementType;
  qp_id : Z
}.

(** Vertex-only embeddings ([SimpleElement] is a vertex id). *)
Definition VertexEmbedding : Type := list VertexId.
Definition BaseEmbedding : Type := list VertexId.

Module Edge.
Definition size (emb : EdgeEmbedding) : nat := length (elements emb).
Definition get_vertex (emb : EdgeEmbedding) (i : nat) : outcome VertexId :=
  e ← index (elements emb) i; Ok (vertex_id e).
Definition get_history (emb : EdgeEmbedding) (i : nat) : outcome nat :=
  e ← index (elements emb) i; Ok (history_info e).
Definition push_back (emb : EdgeEmbedding) (e : ElementType) : EdgeEmbedding :=
  mkEdgeEmbedding (elements emb ++ [e]) (qp_id emb).
Definition pop_back (emb : EdgeEmbedding) : EdgeEmbedding :=
  mkEdgeEmbedding (removelast (elements emb)) (qp_id emb).
Definition get_qpid (emb : EdgeEmbedding) : Z := qp_id emb.
Definition set_qpid (emb : EdgeEmbedding) (id : Z) : EdgeEmbedding :=
  mkEdgeEmbedding (elements emb) id.
End Edge.

Module Vert.
Definition size (emb : list VertexId) : nat := length emb.
Definition get_vertex (emb : list VertexId) (i : nat) : outcome VertexId :=
  index emb i.
Definition push_back (emb : list VertexId) (v : VertexId) : list VertexId :=
  emb ++ [v].
Definition pop_back (emb : list VertexId) : list VertexId := removelast emb.
End Vert.

(** ** The graph provider *)

(** Read-only interface of [Graph]: [graph->size()] and, for a node, the
    destinations [getEdgeDst e] of [graph->edges v] in iteration order. *)
Record Graph : Type := mkGraph {
  graph_size : Z;
  edges : VertexId → list VertexId;
  getData : VertexId → Z
}.

(** [degree_counting]: [degrees[v]] is the length of [v]'s edge range. *)
Definition degrees (g : Graph) (v : VertexId) : Z :=
  Z.of_nat (length (edges g v)).

(** The scan [for e in edges v: if dst == w then connected = true; break]. *)
Fixpoint scan_for (w : VertexId) (dsts : list VertexId) : bool :=
  match dsts with
  | [] => false
  | dst :: rest => if dst =? w then true else scan_for w rest
  end.

Definition is_connected (g : Graph) (from to : VertexId) : bool :=
  if degrees g from <? degrees g to
  then scan_for to (edges g from)
  else scan_for from (edges g to).

(** ** Edge order used by the automorphism filter *)

Definition Edge_pair : Type := (VertexId * VertexId)%type.

Definition getEdge (emb : EdgeEmbedding) (idx : nat) : outcome Edge_pair :=
  h ← Edge.get_history emb idx;
  first ← Edge.get_vertex emb h;
  second ← Edge.get_vertex emb idx;
  _ ← assert (negb (first =? second));
  Ok (first, second).

Definition swap (p : Edge_pair) : Edge_pair :=
  if fst p >? snd p then (snd p, fst p) else p.

(** [compare] swaps both arguments in place and returns an [int]; the
    updated pairs are returned with it. *)
Definition compare (oneEdge otherEdge : Edge_pair) : Z * Edge_pair * Edge_pair :=
  let oneEdge := swap oneEdge in
  let otherEdge := swap otherEdge in
  if fst oneEdge =? fst otherEdge
  then (to_int (snd oneEdge - snd otherEdge), oneEdge, otherEdge)
  else (to_int (fst oneEdge - fst otherEdge), oneEdge, otherEdge).

(** The loop of [is_automorphism] over [index = history + 1 .. size - 1];
    [todo] counts the indices left. *)
Fixpoint is_automorphism_loop (emb : EdgeEmbedding) (added_edge : Edge_pair)
    (idx todo : nat) : outcome bool :=
  match todo with
  | O => Ok false
  | S todo' =>
      edge ← getEdge emb idx;
      let '(cmp, added_edge', _) := compare added_edge edge in
      if cmp <=? 0 then Ok true
      else is_automorphism_loop emb added_edge' (S idx) todo'
  end.

Definition is_automorphism (emb : EdgeEmbedding) (history : nat)
    (src dst : VertexId) (vertex_existed : bool) : outcome bool :=
  v0 ← Edge.get_vertex emb 0;
  if dst <? v0 then Ok true else
  h ← Edge.get_history emb history;
  vh ← Edge.get_vertex emb h;
  if dst =? vh then Ok true else
  if vertex_existed && (src >? dst) then Ok true else
  is_automorphism_loop emb (src, dst) (history + 1)
    (Edge.size emb - (history + 1)).

(** ** Loops in the outcome monad *)

(** [for (a : l) s = f s a], stopping at the first outcome that is not [Ok]. *)
Fixpoint foldM {A S : Type} (f : S → A → outcome S) (l : list A) (s : S)
    : outcome S :=
  match l with
  | [] => Ok s
  | a :: l' => s' ← f s a; foldM f l' s'
  end.

(** ** Connectivity certificate for cliques *)

(** The loop [for i < n - 1] of [is_all_connected], from index [i]. *)
Fixpoint is_all_connected_loop (g : Graph) (dst : VertexId) (emb : BaseEmbedding)
    (i todo : nat) : outcome bool :=
  match todo with
  | O => Ok true
  | S todo' =>
      from ← Vert.get_vertex emb i;
      if negb (is_connected g from dst) then Ok false
      else is_all_connected_loop g dst emb (S i) todo'
  end.

(** [n - 1] is [unsigned]: for [n = 0] it wraps to [UINT_MAX] and the first
    read is already outside the embedding. *)
Definition is_all_connected (g : Graph) (dst : VertexId) (emb : BaseEmbedding)
    : outcome bool :=
  match Vert.size emb with
  | O => OutOfBounds
  | S n' => is_all_connected_loop g dst emb 0 n'
  end.

(** ** Vertex-induced automorphism filter *)

(** [for i in from .. : if dst == emb[i] then found]. *)
Fixpoint find_vertex_loop (emb : VertexEmbedding) (dst : VertexId)
    (i todo : nat) : outcome bool :=
  match todo with
  | O => Ok false
  | S todo' =>
      vi ← Vert.get_vertex emb i;
      if dst =? vi then Ok true else find_vertex_loop emb dst (S i) todo'
  end.

(** [for i in ..: if dst < emb[1] return true], a loop whose test does not
    depend on [i]. *)
Fixpoint below_second_loop (emb : VertexEmbedding) (dst : VertexId)
    (todo : nat) : outcome bool :=
  match todo with
  | O => Ok false
  | S todo' =>
      v1 ← Vert.get_vertex emb 1;
      if dst <? v1 then Ok true else below_second_loop emb dst todo'
  end.

(** [first = n - 1; for i < n: if is_connected(emb[i], dst) {first = i; break}]. *)
Fixpoint first_connected_loop (g : Graph) (emb : VertexEmbedding)
    (dst : VertexId) (first i todo : nat) : outcome nat :=
  match todo with
  | O => Ok first
  | S todo' =>
      vi ← Vert.get_vertex emb i;
      if is_connected g vi dst then Ok i
      else first_connected_loop g emb dst first (S i) todo'
  end.

(** [for i in from .. n - 1: if dst < emb[i] return true]. *)
Fixpoint below_later_loop (emb : VertexEmbedding) (dst : VertexId)
    (i todo : nat) : outcome bool :=
  match todo with
  | O => Ok false
  | S todo' =>
      vi ← Vert.get_vertex emb i;
      if dst <? vi then Ok true else below_later_loop emb dst (S i) todo'
  end.

(** The part of [is_vertexInduced_automorphism] after the [idx == 1] block. *)
Definition vertexInduced_general (g : Graph) (emb : VertexEmbedding)
    (dst : VertexId) : outcome bool :=
  let n := Vert.size emb in
  first ← first_connected_loop g emb dst (n - 1) 0 n;
  below_later_loop emb dst (first + 1) (n - (first + 1)).

Definition is_vertexInduced_automorphism (g : Graph) (emb : VertexEmbedding)
    (idx : nat) (src dst : VertexId) : outcome bool :=
  let n := Vert.size emb in
  v0 ← Vert.get_vertex emb 0;
  if dst <=? v0 then Ok true else
  vertex_existed ← find_vertex_loop emb dst 1 (n - 1);
  if (vertex_existed : bool) then Ok true else
  if (idx =? 0)%nat then
    below ← below_second_loop emb dst (n - 1);
    if (below : bool) then Ok true else
    v1 ← Vert.get_vertex emb 1;
    if is_connected g v1 dst then Ok false
    else vertexInduced_general g emb dst
  else if (idx =? 1)%nat then
    v0' ← Vert.get_vertex emb 0;
    if is_connected g v0' dst then Ok true
    else below_second_loop emb dst (n - 2)
  else vertexInduced_general g emb dst.

(** ** Extension generators

    Each generator works on its own copy [emb] of the embedding (passed by
    value) and on the caller's queue; both are threaded through the loops so
    that every [push_back] and [pop_back] is visible. *)

(** Built without [ENABLE_LABEL] unless the flag is set. *)
Definition label_of (ENABLE_LABEL : bool) (g : Graph) (dst : VertexId) : Z :=
  if ENABLE_LABEL then getData g dst else 0.

(** [for i < size: vertices_set.insert(emb.get_vertex(i))]. *)
Definition collect_vertices (emb : EdgeEmbedding) : outcome (gset VertexId) :=
  foldM (λ (vs : gset VertexId) i, v ← Edge.get_vertex emb i; Ok ({[v]} ∪ vs))
        (seq 0 (Edge.size emb)) ∅.

(** Body of the loop over the edges of [id] in [extend_edge]. *)
Definition extend_edge_candidate (ENABLE_LABEL : bool) (g : Graph)
    (max_size : nat) (vertices_set : gset VertexId) (i : nat) (id : VertexId)
    (st : EdgeEmbedding * list EdgeEmbedding) (dst : VertexId)
    : outcome (EdgeEmbedding * list EdgeEmbedding) :=
  let '(emb, queue) := st in
  let dst_label := label_of ENABLE_LABEL g dst in
  let edge_label := 0 in
  let vertex_existed := bool_decide (dst ∈ vertices_set) in
  let num_vertices :=
    if vertex_existed then size vertices_set else S (size vertices_set) in
  if (num_vertices <=? max_size)%nat then
    aut ← is_automorphism emb (to_BYTE i) id dst vertex_existed;
    if negb aut then
      let new_element :=
        mkElement dst (to_BYTE num_vertices) edge_label dst_label (to_BYTE i) in
      let emb := Edge.push_back emb new_element in
      let queue := queue ++ [emb] in
      let emb := Edge.pop_back emb in
      Ok (emb, queue)
    else Ok (emb, queue)
  else Ok (emb, queue).

(** Body of the loop over the positions of the embedding in [extend_edge]. *)
Definition extend_edge_position (ENABLE_LABEL : bool) (g : Graph)
    (max_size : nat) (vertices_set : gset VertexId)
    (st : gset VertexId * EdgeEmbedding * list EdgeEmbedding) (i : nat)
    : outcome (gset VertexId * EdgeEmbedding * list EdgeEmbedding) :=
  let '(set, emb, queue) := st in
  id ← Edge.get_vertex emb i;
  _ ← assert ((0 <=? id) && (id <? graph_size g));
  if bool_decide (id ∈ set) then Ok (set, emb, queue) else
  let set := {[id]} ∪ set in
  '(emb, queue) ←
    foldM (extend_edge_candidate ENABLE_LABEL g max_size vertices_set i id)
          (edges g id) (emb, queue);
  Ok (set, emb, queue).

(** [extend_edge]: returns the final value of the local [emb] and the queue. *)
Definition extend_edge (ENABLE_LABEL : bool) (g : Graph) (max_size : nat)
    (emb : EdgeEmbedding) (queue : list EdgeEmbedding)
    : outcome (EdgeEmbedding * list EdgeEmbedding) :=
  let size := Edge.size emb in
  vertices_set ← collect_vertices emb;
  '(_, emb, queue) ←
    foldM (extend_edge_position ENABLE_LABEL g max_size vertices_set)
          (seq 0 size) (∅, emb, queue);
  Ok (emb, queue).

Definition extend_vertex_motif_candidate (g : Graph) (i : nat) (src : VertexId)
    (st : VertexEmbedding * list VertexEmbedding) (dst : VertexId)
    : outcome (VertexEmbedding * list VertexEmbedding) :=
  let '(emb, queue) := st in
  aut ← is_vertexInduced_automorphism g emb i src dst;
  if negb aut then
    let emb := Vert.push_back emb dst in
    let queue := queue ++ [emb] in
    let emb := Vert.pop_back emb in
    Ok (emb, queue)
  else Ok (emb, queue).

Definition extend_vertex_motif_position (g : Graph)
    (st : VertexEmbedding * list VertexEmbedding) (i : nat)
    : outcome (VertexEmbedding * list VertexEmbedding) :=
  src ← Vert.get_vertex (fst st) i;
  foldM (extend_vertex_motif_candidate g i src) (edges g src) st.

Definition extend_vertex_motif (g : Graph) (emb : VertexEmbedding)
    (queue : list VertexEmbedding)
    : outcome (VertexEmbedding * list VertexEmbedding) :=
  let n := Vert.size emb in
  foldM (extend_vertex_motif_position g) (seq 0 n) (emb, queue).

Definition extend_vertex_candidate (n : nat)
    (st : BaseEmbedding * list BaseEmbedding) (dst : VertexId)
    : outcome (BaseEmbedding * list BaseEmbedding) :=
  let '(emb, queue) := st in
  last ← Vert.get_vertex emb (n - 1);
  if dst >? last then
    let emb := Vert.push_back emb dst in
    let queue := queue ++ [emb] in
    let emb := Vert.pop_back emb in
    Ok (emb, queue)
  else Ok (emb, queue).

Definition extend_vertex_position (g : Graph) (n : nat)
    (st : BaseEmbedding * list BaseEmbedding) (i : nat)
    : outcome (BaseEmbedding * list BaseEmbedding) :=
  id ← Vert.get_vertex (fst st) i;
  foldM (extend_vertex_candidate n) (edges g id) st.

Definition extend_vertex (g : Graph) (emb : BaseEmbedding)
    (queue : list BaseEmbedding) : outcome (BaseEmbedding * list BaseEmbedding) :=
  let n := Vert.size emb in
  foldM (extend_vertex_position g n) (seq 0 n) (emb, queue).

(** State of [extend_vertex_clique]: the local [emb], the queue and the
    accumulator [num] (an [unsigned] sum). *)
Definition extend_vertex_clique_candidate (g : Graph) (src : VertexId)
    (need_update : bool) (st : BaseEmbedding * list BaseEmbedding * Z)
    (dst : VertexId) : outcome (BaseEmbedding * list BaseEmbedding * Z) :=
  let '(emb, queue, num) := st in
  if dst >? src then
    all ← is_all_connected g dst emb;
    if (all : bool) then
      let num := wrap32 (num + 1) in
      if need_update then
        let emb := Vert.push_back emb dst in
        let queue := queue ++ [emb] in
        let emb := Vert.pop_back emb in
        Ok (emb, queue, num)
      else Ok (emb, queue, num)
    else Ok (emb, queue, num)
  else Ok (emb, queue, num).

Definition extend_vertex_clique (g : Graph) (emb : BaseEmbedding)
    (queue : list BaseEmbedding) (num : Z) (need_update : bool)
    : outcome (BaseEmbedding * list BaseEmbedding * Z) :=
  let n := Vert.size emb in
  match n with
  | O => OutOfBounds  (* [n - 1] wraps: [get_vertex] reads outside *)
  | S n' =>
      src ← Vert.get_vertex emb n';
      foldM (extend_vertex_clique_candidate g src need_update) (edges g src)
            (emb, queue, num)
  end.

(** ** [edge_existed] *)

(** The loop [for i = 1 .. size - 1] of [edge_existed]; the test on the
    history vertex is made only when the vertex at [i] is [dst]. *)
Fixpoint edge_existed_loop (emb : EdgeEmbedding) (src dst : VertexId)
    (i todo : nat) : outcome bool :=
  match todo with
  | O => Ok false
  | S todo' =>
      vi ← Edge.get_vertex emb i;
      if vi =? dst then
        h ← Edge.get_history emb i;
        vh ← Edge.get_vertex emb h;
        if vh =? src then Ok true
        else edge_existed_loop emb src dst (S i) todo'
      else edge_existed_loop emb src dst (S i) todo'
  end.

(** [history] is a parameter the function does not read. *)
Definition edge_existed (emb : EdgeEmbedding) (history : nat)
    (src dst : VertexId) : outcome bool :=
  edge_existed_loop emb src dst 1 (Edge.size emb - 1).

(** ** Vocabulary of the specification *)

Definition vertex_at (emb : EdgeEmbedding) (i : nat) : option VertexId :=
  vertex_id <$> elements emb !! i.

Definition history_at (emb : EdgeEmbedding) (i : nat) : option nat :=
  history_info <$> elements emb !! i.

(** The edge added by element [i]: from the vertex at its history index to
    its own vertex. *)
Definition edge_at (emb : EdgeEmbedding) (i : nat) : option Edge_pair :=
  match elements emb !! i with
  | Some e =>
      match elements emb !! history_info e with
      | Some f => Some (vertex_id f, vertex_id e)
      | None => None
      end
  | None => None
  end.

Definition vertex_in (emb : EdgeEmbedding) (v : VertexId) : Prop :=
  v ∈ map vertex_id (elements emb).

(** "First normalizes each edge to (min endpoint, max endpoint) and then
    compares lexicographically". *)
Definition normalize (p : Edge_pair) : Edge_pair :=
  (Z.min (fst p) (snd p), Z.max (fst p) (snd p)).

Definition edge_leq (a b : Edge_pair) : Prop :=
  fst (normalize a) < fst (normalize b)
  ∨ (fst (normalize a) = fst (normalize b)
     ∧ snd (normalize a) ≤ snd (normalize b)).

(** The four rejection conditions of the edge-embedding rule; [later_rel
    later candidate] is the comparison made with each later edge. *)
Definition reject_rule (later_rel : Edge_pair → Edge_pair → Prop)
    (emb : EdgeEmbedding) (history : nat) (src dst : VertexId) : Prop :=
  (∃ v0, vertex_at emb 0 = Some v0 ∧ dst < v0)
  ∨ (∃ h vh, history_at emb history = Some h ∧ vertex_at emb h = Some vh
             ∧ dst = vh)
  ∨ (vertex_in emb dst ∧ src > dst)
  ∨ (∃ i e, (history < i)%nat ∧ edge_at emb i = Some e
            ∧ later_rel e (src, dst)).

(** As the specification words it: some later edge is less-or-equal to the
    candidate. *)
Definition rejects_as_stated : EdgeEmbedding → nat → VertexId → VertexId → Prop :=
  reject_rule (λ later candidate, edge_leq later candidate).

(** As the code compares: the candidate is less-or-equal to some later edge. *)
Definition rejects : EdgeEmbedding → nat → VertexId → VertexId → Prop :=
  reject_rule (λ later candidate, edge_leq candidate later).

(** Every history index points inside the embedding. *)
Definition histories_inside (emb : EdgeEmbedding) : Prop :=
  Forall (λ e, (history_info e < Edge.size emb)%nat) (elements emb).

(** Vertex ids small enough for the [int] difference of [compare]. *)
Definition ids_below (bound : Z) (emb : EdgeEmbedding) : Prop :=
  Forall (λ e, 0 ≤ vertex_id e < bound) (elements emb).

(** No element after [history] closes an edge on its own vertex (the
    assertion of [getEdge]). *)
Definition no_self_edge_after (emb : EdgeEmbedding) (history : nat) : Prop :=
  ∀ i e, (history < i)%nat → edge_at emb i = Some e → fst e ≠ snd e.

(** A small edge embedding: the edge 1-3. *)
Definition emb_13 : EdgeEmbedding :=
  mkEdgeEmbedding [mkElement 1 1 0 0 0; mkElement 3 2 0 0 0] 0.

(** [u] has an edge to [v]. *)
Definition connected (g : Graph) (u v : VertexId) : Prop := v ∈ edges g u.

(** The adjacency of an undirected graph lists every edge at both ends. *)
Definition undirected (g : Graph) : Prop :=
  ∀ u v, connected g u v ↔ connected g v u.

(** The candidates that [extend_vertex_clique] accepts. *)
Definition clique_candidate (g : Graph) (emb : BaseEmbedding) (last : VertexId)
    (dst : VertexId) : Prop :=
  last < dst ∧ Forall (λ v, connected g v dst) emb.

#[global] Instance clique_candidate_dec g emb last dst :
  Decision (clique_candidate g emb last dst).
Proof. unfold clique_candidate, connected. apply _. Defined.

(** The candidates that [extend_vertex] accepts. *)
Definition ascending_candidate (last dst : VertexId) : Prop := last < dst.

#[global] Instance ascending_candidate_dec last dst :
  Decision (ascending_candidate last dst).
Proof. unfold ascending_candidate. apply _. Defined.

(** [e] is [emb] with one more element at the end. *)
Definition extends_by_one (emb e : list VertexId) : Prop := ∃ x, e = emb ++ [x].

Definition edge_extends_by_one (emb e : EdgeEmbedding) : Prop :=
  ∃ x, e = Edge.push_back emb x.

(** The frame: the local embedding is back to [emb], the queue has grown by
    one-element extensions of [emb]. *)
Definition vertex_frame (emb : list VertexId) (queue : list (list VertexId))
    (st : list VertexId * list (list VertexId)) : Prop :=
  fst st = emb
  ∧ ∃ news, snd st = queue ++ news ∧ Forall (extends_by_one emb) news.

Definition edge_frame (emb : EdgeEmbedding) (queue : list EdgeEmbedding)
    (st : EdgeEmbedding * list EdgeEmbedding) : Prop :=
  fst st = emb
  ∧ ∃ news, snd st = queue ++ news ∧ Forall (edge_extends_by_one emb) news.

(** The frame of [extend_vertex_clique] as the specification words it: the
    queue is the only thing that changes. *)
Definition clique_frame_as_stated (g : Graph) (emb : BaseEmbedding)
    (queue : list BaseEmbedding) (num : Z) (need_update : bool) : Prop :=
  ∀ emb' queue' num',
    extend_vertex_clique g emb queue num need_update = Ok (emb', queue', num') →
    emb' = emb ∧ num' = num
    ∧ ∃ news, queue' = queue ++ news ∧ Forall (extends_by_one emb) news.

(** Every vertex of the embedding is a node of the graph (the assertion of
    [extend_edge]). *)
Definition vertices_in_graph (g : Graph) (emb : EdgeEmbedding) : Prop :=
  Forall (λ e, 0 ≤ vertex_id e < graph_size g) (elements emb).

(** The edge 0-1 as an edge embedding. *)
Definition emb_01 : EdgeEmbedding :=
  mkEdgeEmbedding [mkElement 0 1 0 0 0; mkElement 1 2 0 0 0] 0.

(** The triangle on the nodes 0, 1, 2. *)
Definition triangle : Graph :=
  mkGraph 3
    (λ v, if v =? 0 then [1; 2] else if v =? 1 then [0; 2]
          else if v =? 2 then [0; 1] else [])
    (λ _, 0).

(** A graph whose adjacency lists are not symmetric: the nodes 0 and 1 list
    the node 2, which lists no node. *)
Definition one_way : Graph :=
  mkGraph 3
    (λ v, if v =? 0 then [1; 2] else if v =? 1 then [0; 2] else [])
    (λ _, 0).

(** Emission by [extend_vertex_clique] as the specification words it: for a
    candidate dst among the edges of the last vertex, the extended embedding
    is pushed if and only if dst is above the last vertex and connected to
    every vertex of the embedding. *)
Definition clique_emits_as_stated (g : Graph) (init : BaseEmbedding)
    (last : VertexId) (queue : list BaseEmbedding) (num : Z)
    (need_update : bool) : Prop :=
  ∀ emb' queue' num',
    extend_vertex_clique g (init ++ [last]) queue num need_update
    = Ok (emb', queue', num') →
    ∃ news,
      queue' = queue ++ news
      ∧ ∀ dst, dst ∈ edges g last →
          Vert.push_back (init ++ [last]) dst ∈ news
          ↔ last < dst ∧ ∀ v, v ∈ init ++ [last] → connected g v dst.

(** The vertices of an embedding in strictly increasing order. *)
Definition ascending (emb : list VertexId) : Prop :=
  ∀ i j u v, (i < j)%nat → emb !! i = Some u → emb !! j = Some v → u < v.

(** Every earlier vertex of the embedding has an edge to every later one. *)
Definition pairwise_connected (g : Graph) (emb : list VertexId) : Prop :=
  ∀ i j u v, (i < j)%nat → emb !! i = Some u → emb !! j = Some v →
             connected g u v.

(** The set of vertices of an edge embedding. *)
Definition distinct_vertices (emb : EdgeEmbedding) : gset VertexId :=
  list_to_set (map vertex_id (elements emb)).

(** What [extend_edge] may put on the queue for [emb]: [emb] with one more
    element, whose vertex is a neighbour of the vertex at some position [i],
    whose history is [(BYTE) i] and whose key is the number of vertices,
    itself within the bound. *)
Definition edge_extension (g : Graph) (max_size : nat) (emb e : EdgeEmbedding)
    : Prop :=
  ∃ i id x,
    e = Edge.push_back emb x
    ∧ vertex_at emb i = Some id
    ∧ vertex_id x ∈ edges g id
    ∧ history_info x = to_BYTE i
    ∧ key x = to_BYTE (size (distinct_vertices e))
    ∧ (size (distinct_vertices e) ≤ max_size)%nat.

(** What [extend_vertex_motif] may put on the queue for [emb]: [emb] with
    one more vertex, a neighbour of a vertex of [emb], above the first vertex
    and not yet in [emb]. *)
Definition motif_extension (g : Graph) (emb e : VertexEmbedding) : Prop :=
  ∃ src dst v0,
    e = emb ++ [dst] ∧ src ∈ emb ∧ dst ∈ edges g src
    ∧ emb !! 0%nat = Some v0 ∧ v0 < dst ∧ dst ∉ emb.

(** The state of an extension loop: the local embedding is [emb] again and
    the queue has grown by embeddings that satisfy [P]. *)
Definition queue_grows_by {E : Type} (P : E → Prop) (emb : E) (queue : list E)
    (st : E * list E) : Prop :=
  fst st = emb ∧ ∃ news, snd st = queue ++ news ∧ Forall P news.

(** ** Support of a domain-set vector *)

(** [HashIntSets]: one set of vertex ids per structural slot. *)
Abbreviation DomainSupport := (list (gset VertexId)).

(** [UintMap]: ids to ids, or ids to support values. *)
Abbreviation UintMap := (gmap Z Z).

(** [domainSets[j].size()]. *)
Definition slot_size (s : gset VertexId) : Z := Z.of_nat (size s).

(** Counting the minimal image based support. *)
Definition get_support (domainSets : DomainSupport) : Z :=
  fold_left (λ support s,
               if slot_size s <? support then wrap32 (slot_size s) else support)
            domainSets UINT_MAX.

(** [m.insert(std::make_pair(k, v))]: an existing entry is kept. *)
Definition map_insert_pair (k v : Z) (m : UintMap) : UintMap :=
  match m !! k with
  | Some _ => m
  | None => <[k := v]> m
  end.

(** [m.at(k)]. *)
Definition map_at (m : UintMap) (k : Z) : outcome Z :=
  match m !! k with
  | Some v => Ok v
  | None => OutOfRange
  end.

(** [m[k]]: a missing key is inserted with the default value [d]. *)
Definition subscript `{Countable K} {V : Type} (m : gmap K V) (k : K) (d : V)
    : V * gmap K V :=
  match m !! k with
  | Some v => (v, m)
  | None => (d, <[k := d]> m)
  end.

(** ** Motif counting *)



(** The object built by [new CPattern (cf, is_directed)] in
    [turn_canonical_graph]: the canonical pattern (the map key) and the slot
    permutation [get_quick_pattern_index]. *)
Record CanonicalGraph (CPattern : Type) : Type := mkCanonicalGraph {
  cg_pattern : CPattern;
  get_quick_pattern_index : nat → nat
}.
Arguments mkCanonicalGraph {CPattern} _ _.
Arguments cg_pattern {CPattern} _.
Arguments get_quick_pattern_index {CPattern} _ _.

(** A small instance of the pattern parameters, on which the definitions can
    be run: the quick pattern of an embedding is the list of its history
    indices, its id the sum of that list and its length; the canonical pattern
    is the number of slots, and the slot permutation reverses the slots. *)
Definition shape_of (emb : EdgeEmbedding) : list nat :=
  map history_info (elements emb).

Definition shape_size (qp : list nat) : nat := length qp.

Definition shape_id (qp : list nat) : Z :=
  Z.of_nat (length qp + foldr Nat.add 0%nat qp).

Definition shape_canonical (qp : list nat) : CanonicalGraph nat :=
  mkCanonicalGraph (length qp) (λ i, (length qp - 1 - i)%nat).

Definition count_id (cg : nat) : Z := Z.of_nat cg.

(** Two embeddings of the same shape, on the edges 1-3 and 2-5, and an
    embedding of the single vertex 1. *)
Definition emb_25 : EdgeEmbedding :=
  mkEdgeEmbedding [mkElement 2 1 0 0 0; mkElement 5 2 0 0 0] 0.
Definition emb_1 : EdgeEmbedding :=
  mkEdgeEmbedding [mkElement 1 1 0 0 0] 0.

(** Embeddings carrying the quick-pattern ids 10 and 11, and maps resolving
    them to patterns of support 5 and 1. *)
Definition emb_q10 : EdgeEmbedding := Edge.set_qpid emb_13 10.
Definition emb_q11 : EdgeEmbedding := Edge.set_qpid emb_25 11.
Definition ids_10_11 : gmap Z Z := <[10 := 100]> (<[11 := 101]> ∅).
Definition supports_5_1 : gmap Z Z := <[100 := 5]> (<[101 := 1]> ∅).

(** A domain support of two slots, the sets {1, 2} and {3}, and a canonical
    map holding it for the pattern 2. *)
Definition sets_12_3 : list (gset VertexId) := [{[1; 2]}; {[3]}].
Definition one_pattern_map : gmap nat (list (gset VertexId)) :=
  {[2%nat := sets_12_3]}.

(** A support map that already holds the support 0 under the id of the
    pattern 2; an id function that gives every pattern the id 0, and a
    canonical map of two patterns, of supports 1 and 2. *)
Definition stale_supports : gmap Z Z := {[2 := 0]}.
Definition same_id (cg : nat) : Z := 0.
Definition two_pattern_map : gmap nat (list (gset VertexId)) :=
  <[1%nat := [{[1]}]]> (<[2%nat := [{[1; 2]}]]> ∅).

(** A frequency map for the same pattern, a quick-pattern map of two shapes
    with two slots, an id map resolving the quick-pattern id 7 to the
    pattern 2, and an embedding carrying that id. *)
Definition one_count_map : gmap nat Z := {[2%nat := 5]}.
Definition two_shapes_map : gmap (list nat) Z :=
  <[[0%nat; 0%nat] := 3]> (<[[0%nat; 1%nat] := 4]> ∅).
Definition two_shapes : list (list nat * Z) :=
  [([0%nat; 0%nat], 3); ([0%nat; 1%nat], 4)].

(** Embeddings used as their own keys in a [SimpleMap]. *)
Definition own_key (emb : BaseEmbedding) : list Z := emb.
Definition own_size (k : list Z) : nat := length k.

Section Patterns.

#[local] Set Default Proof Using "Type".

(** The quick patterns and canonical patterns used as map keys are declared
    in quick_pattern.h and canonical_graph.h; the canonical labelling is
    computed by an external library. They are parameters here. A pattern is
    the key of the maps, and its id is a function of the pattern ("a stable
    integer id"): the id of a key stored in a map is the id of any equal
    pattern built later. What this header itself does on the way to a
    canonical pattern, the assertions of [readGraph], is modelled below. *)
Context {QPattern : Type} `{Countable QPattern}.
Context {CPattern : Type} `{Countable CPattern}.

(** [QPattern qp(emb)], [qp.get_size()], [qp.get_id()]. *)
Variable quick_pattern : EdgeEmbedding → QPattern.
Variable qp_get_size : QPattern → nat.
Variable qp_get_id : QPattern → Z.

(** The canonical labelling of the external library and the permutation to
    the canonical form ([ag->canonical_form], [ag->permute],
    [new CPattern]), applied to the graph that [readGraph] builds from the
    elements of a quick pattern. *)
Variable canonical_form : QPattern → CanonicalGraph CPattern.
Variable cg_get_id : CPattern → Z.

(** [Miner::threshold]. *)
Variable threshold : Z.

(** The embeddings used as keys of a [SimpleMap]: hashing and equality of
    [BaseEmbedding] are declared outside this header. [base_key emb] is the
    key an embedding is found under, [key_size] the [size ()] of a stored
    key. *)
Context {EmbKey : Type} {EmbKey_eq : EqDecision EmbKey}
  {EmbKey_countable : Countable EmbKey}.
Variable base_key : BaseEmbedding → EmbKey.
Variable key_size : EmbKey → nat.

(** *** The canonical pattern of a quick pattern *)

(** [readGraph (qp, opt_directed)]: the graph is filled in, element by
    element, by calls to the external library and is the argument of its
    canonical labelling in [turn_canonical_graph]; both are inside the
    parameter [canonical_form]. What is left here is what the function itself
    checks, in the order of the source: the graph is undirected, the quick
    pattern has more than one element. *)
Definition readGraph (qp : QPattern) (opt_directed : bool) : outcome unit :=
  _ ← assert (negb opt_directed);
  assert (1 <? qp_get_size qp)%nat.

(** [turn_canonical_graph (qp, is_directed)]. *)
Definition turn_canonical_graph (qp : QPattern) (is_directed : bool)
    : outcome (CanonicalGraph CPattern) :=
  _ ← readGraph qp is_directed;
  Ok (canonical_form qp).

(** *** Quick-pattern aggregation, frequency *)

Definition quick_aggregate_freq_step (qp_map : gmap QPattern Z)
    (emb : EdgeEmbedding) : gmap QPattern Z :=
  let qp := quick_pattern emb in
  match qp_map !! qp with
  | Some c => <[qp := wrap32 (c + 1)]> qp_map
  | None => <[qp := 1]> qp_map
  end.

Definition quick_aggregate_freq (queue : list EdgeEmbedding)
    (qp_map : gmap QPattern Z) : gmap QPattern Z :=
  fold_left quick_aggregate_freq_step queue qp_map.

(** [quick_aggregate_each (EdgeEmbedding&, QpMapFreq&)]: the embedding with
    its quick-pattern id set, and the map. *)
Definition quick_aggregate_each_freq (emb : EdgeEmbedding)
    (qp_map : gmap QPattern Z) : EdgeEmbedding * gmap QPattern Z :=
  let qp := quick_pattern emb in
  match qp_map !! qp with
  | Some c =>
      let qp_map := <[qp := wrap32 (c + 1)]> qp_map in
      (Edge.set_qpid emb (qp_get_id qp), qp_map)
  | None =>
      let qp_map := <[qp := 1]> qp_map in
      (Edge.set_qpid emb (qp_get_id qp), qp_map)
  end.

(** *** Quick-pattern aggregation, domain support *)

(** [for i < emb.size(): sets[i].insert(emb.get_vertex(i))]. *)
Definition insert_vertex (emb : EdgeEmbedding) (sets : DomainSupport) (i : nat)
    : outcome DomainSupport :=
  v ← Edge.get_vertex emb i;
  s ← index sets i;
  Ok (<[i := {[v]} ∪ s]> sets).

Definition insert_vertices (emb : EdgeEmbedding) (sets : DomainSupport)
    : outcome DomainSupport :=
  foldM (insert_vertex emb) (seq 0 (Edge.size emb)) sets.

Definition quick_aggregate_domain_step (qp_map : gmap QPattern DomainSupport)
    (emb : EdgeEmbedding) : outcome (gmap QPattern DomainSupport) :=
  let qp := quick_pattern emb in
  match qp_map !! qp with
  | Some sets =>
      sets ← insert_vertices emb sets;
      Ok (<[qp := sets]> qp_map)
  | None =>
      let sets := replicate (Edge.size emb) ∅ in   (* resize(emb.size()) *)
      sets ← insert_vertices emb sets;
      Ok (<[qp := sets]> qp_map)
  end.

Definition quick_aggregate_domain (queue : list EdgeEmbedding)
    (qp_map : gmap QPattern DomainSupport)
    : outcome (gmap QPattern DomainSupport) :=
  foldM quick_aggregate_domain_step queue qp_map.

Definition quick_aggregate_each_domain (emb : EdgeEmbedding)
    (qp_map : gmap QPattern DomainSupport)
    : outcome (EdgeEmbedding * gmap QPattern DomainSupport) :=
  let qp := quick_pattern emb in
  let '(sets, emb) :=
    match qp_map !! qp with
    | None => (replicate (Edge.size emb) ∅, Edge.set_qpid emb (qp_get_id qp))
    | Some sets => (sets, Edge.set_qpid emb (qp_get_id qp))
    end in
  sets ← insert_vertices emb sets;
  Ok (emb, <[qp := sets]> qp_map).

(** *** Canonical-pattern aggregation, domain support *)

(** [for i < numDomains: cg_sets[i].insert(domainSets[qp_idx] ...)]. *)
Definition union_slot (cg : CanonicalGraph CPattern) (numDomains : nat)
    (domainSets : DomainSupport) (cg_sets : DomainSupport) (i : nat)
    : outcome DomainSupport :=
  let qp_idx := get_quick_pattern_index cg i in
  _ ← assert (qp_idx <? numDomains)%nat;
  from ← index domainSets qp_idx;
  slot ← index cg_sets i;
  Ok (<[i := slot ∪ from]> cg_sets).

Definition union_slots (cg : CanonicalGraph CPattern) (numDomains : nat)
    (domainSets : DomainSupport) (cg_sets : DomainSupport)
    : outcome DomainSupport :=
  foldM (union_slot cg numDomains domainSets) (seq 0 numDomains) cg_sets.

Definition canonical_aggregate_each_domain (qp : QPattern)
    (domainSets : DomainSupport) (cg_map : gmap CPattern DomainSupport)
    (id_map : UintMap) : outcome (gmap CPattern DomainSupport * UintMap) :=
  _ ← assert (qp_get_size qp =? length domainSets)%nat;
  let numDomains := qp_get_size qp in
  cg ← turn_canonical_graph qp false;
  let qp_id := qp_get_id qp in
  let cg_id := cg_get_id (cg_pattern cg) in
  let id_map := map_insert_pair qp_id cg_id id_map in
  let cg_sets :=
    match cg_map !! cg_pattern cg with
    | None => replicate numDomains ∅   (* cg_map[*cg].resize(numDomains) *)
    | Some sets => sets
    end in
  cg_sets ← union_slots cg numDomains domainSets cg_sets;
  Ok (<[cg_pattern cg := cg_sets]> cg_map, id_map).

(** *** Filtering *)

Definition filter_freq_step (st : gmap CPattern Z * list EdgeEmbedding)
    (emb : EdgeEmbedding) : outcome (gmap CPattern Z * list EdgeEmbedding) :=
  let '(cg_map, out_queue) := st in
  let qp := quick_pattern emb in
  cf ← turn_canonical_graph qp false;
  _ ← assert (bool_decide (is_Some (cg_map !! cg_pattern cf)));
  let '(freq, cg_map) := subscript cg_map (cg_pattern cf) 0 in
  if freq >=? threshold then Ok (cg_map, out_queue ++ [emb])
  else Ok (cg_map, out_queue).

Definition filter_freq (in_queue : list EdgeEmbedding)
    (cg_map : gmap CPattern Z) (out_queue : list EdgeEmbedding)
    : outcome (gmap CPattern Z * list EdgeEmbedding) :=
  foldM filter_freq_step in_queue (cg_map, out_queue).

(** The assertion of [filter] is commented out in [filter_each]. *)
Definition filter_each_freq (emb : EdgeEmbedding) (cg_map : gmap CPattern Z)
    (out_queue : list EdgeEmbedding)
    : outcome (gmap CPattern Z * list EdgeEmbedding) :=
  let qp := quick_pattern emb in
  cf ← turn_canonical_graph qp false;
  let '(freq, cg_map) := subscript cg_map (cg_pattern cf) 0 in
  if freq >=? threshold then Ok (cg_map, out_queue ++ [emb])
  else Ok (cg_map, out_queue).

(** [is_frequent = true; for i: if sets[i].size() < threshold {false; break}]. *)
Fixpoint all_domains_frequent (sets : DomainSupport) : bool :=
  match sets with
  | [] => true
  | s :: rest =>
      if slot_size s <? threshold then false else all_domains_frequent rest
  end.

Definition filter_domain_step
    (st : gmap CPattern DomainSupport * list EdgeEmbedding)
    (emb : EdgeEmbedding)
    : outcome (gmap CPattern DomainSupport * list EdgeEmbedding) :=
  let '(cg_map, out_queue) := st in
  let qp := quick_pattern emb in
  cf ← turn_canonical_graph qp false;
  _ ← assert (bool_decide (is_Some (cg_map !! cg_pattern cf)));
  let '(sets, cg_map) := subscript cg_map (cg_pattern cf) [] in
  if all_domains_frequent sets then Ok (cg_map, out_queue ++ [emb])
  else Ok (cg_map, out_queue).

Definition filter_domain (in_queue : list EdgeEmbedding)
    (cg_map : gmap CPattern DomainSupport) (out_queue : list EdgeEmbedding)
    : outcome (gmap CPattern DomainSupport * list EdgeEmbedding) :=
  foldM filter_domain_step in_queue (cg_map, out_queue).

Definition filter_each_domain (emb : EdgeEmbedding)
    (cg_map : gmap CPattern DomainSupport) (out_queue : list EdgeEmbedding)
    : outcome (gmap CPattern DomainSupport * list EdgeEmbedding) :=
  let qp := quick_pattern emb in
  cf ← turn_canonical_graph qp false;
  let '(sets, cg_map) := subscript cg_map (cg_pattern cf) [] in
  if all_domains_frequent sets then Ok (cg_map, out_queue ++ [emb])
  else Ok (cg_map, out_queue).

(** [filter_each (emb, id_map, support_map, out_queue)]. *)
Definition filter_each (emb : EdgeEmbedding) (id_map support_map : UintMap)
    (out_queue : list EdgeEmbedding) : outcome (list EdgeEmbedding) :=
  let qp_id := Edge.get_qpid emb in
  cg_id ← map_at id_map qp_id;
  support ← map_at support_map cg_id;
  if support >=? threshold then Ok (out_queue ++ [emb]) else Ok out_queue.

(** [filter (in_queue, id_map, support_map, out_queue)]. *)
Definition filter (in_queue : list EdgeEmbedding) (id_map support_map : UintMap)
    (out_queue : list EdgeEmbedding) : outcome (list EdgeEmbedding) :=
  foldM (λ out_queue emb,
           let qp_id := Edge.get_qpid emb in
           cg_id ← map_at id_map qp_id;
           support ← map_at support_map cg_id;
           if support >=? threshold then Ok (out_queue ++ [emb])
           else Ok out_queue)
        in_queue out_queue.

(** *** Support counting *)

(** One iteration of [support_count (CgMapDomain, UintMap&)]. *)
Definition support_count_step (st : Z * UintMap)
    (entry : CPattern * DomainSupport) : Z * UintMap :=
  let '(count, support_map) := st in
  let support := get_support (snd entry) in
  let support_map :=
    map_insert_pair (cg_get_id (fst entry)) support support_map in
  if support >=? threshold then (wrap32 (count + 1), support_map)
  else (count, support_map).

(** The loop of [support_count] over the entries in iteration order. *)
Definition support_count_entries (entries : list (CPattern * DomainSupport))
    (support_map : UintMap) : Z * UintMap :=
  fold_left support_count_step entries (0, support_map).

Definition support_count (cg_map : gmap CPattern DomainSupport)
    (support_map : UintMap) : Z * UintMap :=
  support_count_entries (map_to_list cg_map) support_map.

(** *** Canonical-pattern aggregation, frequency *)

(** [cg_map[*cg] += freq] for a pattern of the map, [cg_map[*cg] = freq]
    for a new one. *)
Definition add_frequency (cg : CPattern) (freq : Z) (cg_map : gmap CPattern Z)
    : gmap CPattern Z :=
  match cg_map !! cg with
  | Some count => <[cg := wrap32 (count + freq)]> cg_map
  | None => <[cg := freq]> cg_map
  end.

(** [canonical_aggregate_each (qp, freq, cg_map)]. *)
Definition canonical_aggregate_each_freq (qp : QPattern) (freq : Z)
    (cg_map : gmap CPattern Z) : outcome (gmap CPattern Z) :=
  cg ← turn_canonical_graph qp false;
  Ok (add_frequency (cg_pattern cg) freq cg_map).

(** [canonical_aggregate_each (qp, freq, cg_map, id_map)]; the canonical
    graph is a fresh object, its assertion [cg != NULL] holds. *)
Definition canonical_aggregate_each_freq_ids (qp : QPattern) (freq : Z)
    (cg_map : gmap CPattern Z) (id_map : UintMap)
    : outcome (gmap CPattern Z * UintMap) :=
  cg ← turn_canonical_graph qp false;
  let qp_id := qp_get_id qp in
  let cg_id := cg_get_id (cg_pattern cg) in
  let id_map := map_insert_pair qp_id cg_id id_map in
  Ok (add_frequency (cg_pattern cg) freq cg_map, id_map).

(** The loop of [canonical_aggregate] over the entries of the quick-pattern
    map in iteration order. *)
Definition canonical_aggregate_entries (entries : list (QPattern * Z))
    (cg_map : gmap CPattern Z) : outcome (gmap CPattern Z) :=
  foldM (λ cg_map entry,
           let qp := fst entry in
           let freq := snd entry in
           cg ← turn_canonical_graph qp false;
           Ok (add_frequency (cg_pattern cg) freq cg_map))
        entries cg_map.

Definition canonical_aggregate (qp_map : gmap QPattern Z)
    (cg_map : gmap CPattern Z) : outcome (gmap CPattern Z) :=
  canonical_aggregate_entries (map_to_list qp_map) cg_map.

(** One iteration of [support_count (CgMapFreq, UintMap&)]. *)
Definition support_count_freq_step (st : Z * UintMap) (entry : CPattern * Z)
    : Z * UintMap :=
  let '(count, support_map) := st in
  let support := snd entry in
  let support_map :=
    map_insert_pair (cg_get_id (fst entry)) support support_map in
  if support >=? threshold then (wrap32 (count + 1), support_map)
  else (count, support_map).

Definition support_count_freq_entries (entries : list (CPattern * Z))
    (support_map : UintMap) : Z * UintMap :=
  fold_left support_count_freq_step entries (0, support_map).

Definition support_count_freq (cg_map : gmap CPattern Z)
    (support_map : UintMap) : Z * UintMap :=
  support_count_freq_entries (map_to_list cg_map) support_map.

(** *** Clique aggregation *)

(** [aggregate_clique_each]: an embedding found with the count
    [size () - 2] is emitted and erased, one found with another count is
    counted once more, a new one enters with the count 1. [size ()] is read
    as [unsigned], as everywhere in this header; for a size of 2 or more the
    difference does not wrap, whatever the width of [size ()]. *)
Definition aggregate_clique_each (emb : BaseEmbedding) (sm : gmap EmbKey Z)
    (out_queue : list BaseEmbedding) : gmap EmbKey Z * list BaseEmbedding :=
  let k := base_key emb in
  match sm !! k with
  | Some count =>
      if count =? wrap32 (Z.of_nat (key_size k) - 2)
      then (delete k sm, out_queue ++ [emb])
      else (<[k := wrap32 (count + 1)]> sm, out_queue)
  | None => (<[k := 1]> sm, out_queue)
  end.

(** [aggregate_clique]: the same steps on a local map [simple_agg]. *)
Definition aggregate_clique (in_queue out_queue : list BaseEmbedding)
    : list BaseEmbedding :=
  snd (fold_left (λ st emb, aggregate_clique_each emb (fst st) (snd st))
                 in_queue (∅, out_queue)).

(** *** Merging the maps of several accumulation contexts *)

(** Modelled from the spec: the merge of the per-context quick-pattern maps is
    done by the callers of this header. "A deterministic merge step combines
    them by key: frequency counters are summed, domain-set slots are
    unioned". *)
Definition merge_freq (a b : gmap QPattern Z) : gmap QPattern Z :=
  union_with (λ x y, Some (wrap32 (x + y))) a b.

Definition merge_domain (a b : gmap QPattern DomainSupport)
    : gmap QPattern DomainSupport :=
  union_with (λ x y, Some (zip_with (∪) x y)) a b.

(** A way of splitting the embeddings over contexts and of merging the
    results: a leaf is one context with the embeddings it aggregates, a node
    merges two results. *)
Inductive contexts : Type :=
| Single (embs : list EdgeEmbedding)
| Merged (left right : contexts).

Fixpoint embeddings_of (t : contexts) : list EdgeEmbedding :=
  match t with
  | Single embs => embs
  | Merged l r => embeddings_of l ++ embeddings_of r
  end.

Fixpoint aggregate_freq (t : contexts) : gmap QPattern Z :=
  match t with
  | Single embs => quick_aggregate_freq embs ∅
  | Merged l r => merge_freq (aggregate_freq l) (aggregate_freq r)
  end.

Fixpoint aggregate_domain (t : contexts)
    : outcome (gmap QPattern DomainSupport) :=
  match t with
  | Single embs => quick_aggregate_domain embs ∅
  | Merged l r =>
      a ← aggregate_domain l;
      b ← aggregate_domain r;
      Ok (merge_domain a b)
  end.

(** A context that aggregates with [quick_aggregate_each], one embedding
    after the other. *)
Definition aggregate_each_freq (embs : list EdgeEmbedding)
    (qp_map : gmap QPattern Z) : gmap QPattern Z :=
  fold_left (λ m emb, snd (quick_aggregate_each_freq emb m)) embs qp_map.

Definition aggregate_each_domain (embs : list EdgeEmbedding)
    (qp_map : gmap QPattern DomainSupport)
    : outcome (gmap QPattern DomainSupport) :=
  foldM (λ m emb, r ← quick_aggregate_each_domain emb m; Ok (snd r)) embs qp_map.

(** *** Vocabulary of the specification *)

(** The canonical pattern that [turn_canonical_graph] returns for the quick
    pattern of an embedding, when it returns. *)
Definition canonical_of (emb : EdgeEmbedding) : CPattern :=
  cg_pattern (canonical_form (quick_pattern emb)).

(** The support reached from an embedding through the two id maps. *)
Definition support_of (id_map support_map : UintMap) (emb : EdgeEmbedding)
    : option Z :=
  match id_map !! Edge.get_qpid emb with
  | Some cg_id => support_map !! cg_id
  | None => None
  end.

(** "A pattern is frequent iff its support is at least the threshold". *)
Definition frequent (id_map support_map : UintMap) (emb : EdgeEmbedding) : Prop :=
  ∃ s, support_of id_map support_map emb = Some s ∧ threshold ≤ s.

#[global] Instance frequent_dec id_map support_map emb :
  Decision (frequent id_map support_map emb).
Proof.
  unfold frequent. destruct (support_of id_map support_map emb) as [s |].
  - destruct (decide (threshold ≤ s)) as [Hle | Hgt].
    + left. by exists s.
    + right. intros (s' & [= <-] & Hle). done.
  - right. intros (s' & Hs & _). done.
Defined.

(** The canonical slot [i] before an aggregation step: empty when the
    pattern has no entry yet. *)
Definition slot_before (cg_map : gmap CPattern DomainSupport) (cg : CPattern)
    (i : nat) : gset VertexId :=
  match cg_map !! cg with
  | Some sets => default ∅ (sets !! i)
  | None => ∅
  end.

(** The entries counted as frequent by [support_count]. *)
Definition frequent_entries (entries : list (CPattern * DomainSupport))
    : list (CPattern * DomainSupport) :=
  base.filter (λ e, threshold ≤ get_support (snd e)) entries.

(** [support_count] as the specification words it: for every pattern with
    a non-empty domain support, the minimum cardinality over the slots is
    what [get_support] returns, what is recorded as the support of the
    pattern, and what decides whether the pattern is counted. *)
Definition support_count_as_stated (cg_map : gmap CPattern DomainSupport)
    (support_map : UintMap) : Prop :=
  ∀ cg sets, cg_map !! cg = Some sets → sets ≠ [] →
    let m := get_support sets in
    (∃ s, s ∈ sets ∧ slot_size s = m)
    ∧ (∀ s, s ∈ sets → m ≤ slot_size s)
    ∧ snd (support_count cg_map support_map) !! cg_get_id cg = Some m
    ∧ ∀ count sm,
        fst (support_count_step (count, sm) (cg, sets))
        = if decide (threshold ≤ m) then wrap32 (count + 1) else count.

(** The one-vertex sets, slot by slot, that an embedding contributes. *)
Definition singleton_slots (emb : EdgeEmbedding) : DomainSupport :=
  map (λ e, {[vertex_id e]}) (elements emb).

(** What the aggregation of one embedding makes of a domain map. *)
Definition absorb (qp_map : gmap QPattern DomainSupport) (emb : EdgeEmbedding)
    : gmap QPattern DomainSupport :=
  let qp := quick_pattern emb in
  <[qp := zip_with (∪)
            (default (replicate (Edge.size emb) ∅) (qp_map !! qp))
            (singleton_slots emb)]> qp_map.

(** Embeddings of one quick pattern have one size. *)
Definition patterns_fix_size : Prop :=
  ∀ e1 e2, quick_pattern e1 = quick_pattern e2 → Edge.size e1 = Edge.size e2.

(** Every entry has as many slots as the embeddings of its pattern. *)
Definition well_sized (qp_map : gmap QPattern DomainSupport) : Prop :=
  ∀ emb sets, qp_map !! quick_pattern emb = Some sets →
              length sets = Edge.size emb.

(** The entries of a quick-pattern map whose canonical pattern is [cg], and
    the sum of the frequencies of a list of entries. *)
Definition entries_of (cg : CPattern) (entries : list (QPattern * Z))
    : list (QPattern * Z) :=
  base.filter (λ e, cg_pattern (canonical_form (fst e)) = cg) entries.

Definition total_frequency (entries : list (QPattern * Z)) : Z :=
  foldr (λ e acc, snd e + acc) 0 entries.

(** The frequencies of a list of entries added one after the other to the
    canonical patterns of their quick patterns. *)
Definition add_frequencies (entries : list (QPattern * Z))
    (cg_map : gmap CPattern Z) : gmap CPattern Z :=
  fold_left (λ m e, add_frequency (cg_pattern (canonical_form (fst e)))
                                  (snd e) m)
            entries cg_map.

(** The number of embeddings of a queue with a given quick pattern. *)
Definition occurrences (qp : QPattern) (embs : list EdgeEmbedding) : nat :=
  length (base.filter (λ emb, quick_pattern emb = qp) embs).

(** The vertex [v] is in slot [i] of the entry of [qp]. *)
Definition slot_holds (qp_map : gmap QPattern DomainSupport) (qp : QPattern)
    (i : nat) (v : VertexId) : Prop :=
  ∃ sets s, qp_map !! qp = Some sets ∧ sets !! i = Some s ∧ v ∈ s.

(** The number of embeddings of a queue found under a given key. *)
Definition key_occurrences (k : EmbKey) (embs : list BaseEmbedding) : nat :=
  length (base.filter (λ emb, base_key emb = k) embs).




(** * Facts about aggregation, support and filtering *)

(** ** Machine integers and loops *)

Lemma to_int_small z : - 2 ^ 31 ≤ z < 2 ^ 31 → to_int z = z.
Proof.
  intros Hz. unfold to_int.
  destruct (Z.ltb_spec (z mod 2 ^ 32) (2 ^ 31)) as [Hlt | Hge];
    Z.to_euclidean_division_equations; lia.
Qed.

Lemma wrap32_range z : 0 ≤ wrap32 z < 2 ^ 32.
Proof. unfold wrap32. apply Z.mod_pos_bound. lia. Qed.

Lemma wrap32_small z : 0 ≤ z < 2 ^ 32 → wrap32 z = z.
Proof. unfold wrap32. apply Z.mod_small. Qed.

Lemma wrap32_succ num k :
  wrap32 (wrap32 (num + 1) + Z.of_nat k) = wrap32 (num + Z.of_nat (S k)).
Proof.
  unfold wrap32. rewrite Zplus_mod_idemp_l. f_equal. lia.
Qed.

Lemma foldM_cons {A S} (f : S → A → outcome S) a l s :
  foldM f (a :: l) s = f s a ≫= foldM f l.
Proof. reflexivity. Qed.

Lemma bind_Ok {A B} (a : A) (k : A → outcome B) : Ok a ≫= k = k a.
Proof. reflexivity. Qed.

Lemma bind_Ok_inv {A B} (m : outcome A) (k : A → outcome B) b :
  m ≫= k = Ok b → ∃ a, m = Ok a ∧ k a = Ok b.
Proof. destruct m as [a | | |]; try done. intros Hk. by exists a. Qed.

Lemma index_lookup {A} (l : list A) i a : l !! i = Some a → index l i = Ok a.
Proof. intros Hl. unfold index. by rewrite Hl. Qed.

Lemma get_vertex_lookup emb i e :
  elements emb !! i = Some e → Edge.get_vertex emb i = Ok (vertex_id e).
Proof. intros Hl. unfold Edge.get_vertex. by rewrite (index_lookup _ _ _ Hl). Qed.

Lemma get_history_lookup emb i e :
  elements emb !! i = Some e → Edge.get_history emb i = Ok (history_info e).
Proof. intros Hl. unfold Edge.get_history. by rewrite (index_lookup _ _ _ Hl). Qed.

(** [turn_canonical_graph] returns the canonical form exactly for an
    undirected pattern of more than one element; it stops on an assertion of
    [readGraph] otherwise. *)
Lemma turn_canonical_graph_ok qp :
  (1 < qp_get_size qp)%nat →
  turn_canonical_graph qp false = Ok (canonical_form qp).
Proof.
  intros Hsize. unfold turn_canonical_graph, readGraph. simpl.
  by destruct (Nat.ltb_spec 1 (qp_get_size qp)); [| lia].
Qed.

Lemma turn_canonical_graph_abort qp is_directed :
  (qp_get_size qp ≤ 1)%nat ∨ is_directed = true →
  turn_canonical_graph qp is_directed = AssertFailed.
Proof.
  intros Hbad. unfold turn_canonical_graph, readGraph.
  destruct is_directed; [done |]. simpl.
  destruct Hbad as [Hsize |]; [| done].
  by destruct (Nat.ltb_spec 1 (qp_get_size qp)); [lia |].
Qed.

(** An invariant of the loop body holds after the loop. *)
Lemma foldM_invariant {A S} (I : S → Prop) (f : S → A → outcome S) :
  (∀ s a s', I s → f s a = Ok s' → I s') →
  ∀ l s s', I s → foldM f l s = Ok s' → I s'.
Proof.
  intros Hstep. induction l as [| a l IH]; intros s s' Hs Hrun.
  - simpl in Hrun. by injection Hrun as <-.
  - rewrite foldM_cons in Hrun. destruct (f s a) as [s1 | | |] eqn:Hf; try done.
    rewrite bind_Ok in Hrun. eapply IH; [| exact Hrun]. eapply Hstep; eauto.
Qed.

(** A loop whose body returns on every state of the invariant returns. *)
Lemma foldM_total {A S} (I : S → Prop) (f : S → A → outcome S) l :
  (∀ s a, a ∈ l → I s → ∃ s', f s a = Ok s' ∧ I s') →
  ∀ s, I s → ∃ s', foldM f l s = Ok s' ∧ I s'.
Proof.
  induction l as [| a l IH]; intros Hstep s Hs.
  - exists s. by split.
  - destruct (Hstep s a ltac:(by left) Hs) as (s1 & Hf & Hs1).
    rewrite foldM_cons, Hf, bind_Ok. apply IH; [| done].
    intros s2 b Hb. apply Hstep. by right.
Qed.

(** ** [get_support] *)

Lemma slot_size_nonneg s : 0 ≤ slot_size s.
Proof. unfold slot_size. lia. Qed.

(** The loop of [get_support] from a current value [support]: the result is
    the least of [support] and the slot sizes. *)
Lemma get_support_loop sets : ∀ support,
  0 ≤ support ≤ UINT_MAX →
  let m := fold_left (λ support s,
                        if slot_size s <? support then wrap32 (slot_size s)
                        else support) sets support in
  m ≤ support ∧ (∀ s, s ∈ sets → m ≤ slot_size s)
  ∧ (m = support ∨ ∃ s, s ∈ sets ∧ slot_size s = m).
Proof.
  induction sets as [| s sets IH]; intros support Hsup; simpl.
  - split; [lia |]. split; [| by left]. intros s Hs. by apply elem_of_nil in Hs.
  - pose proof (slot_size_nonneg s) as Hs0.
    destruct (Z.ltb_spec (slot_size s) support) as [Hlt | Hge].
    + rewrite wrap32_small by (unfold UINT_MAX in Hsup; lia).
      destruct (IH (slot_size s) ltac:(lia)) as (Hle & Hall & Hex).
      split; [lia |]. split.
      * intros s' Hs'. apply elem_of_cons in Hs' as [-> | Hs']; [done | by apply Hall].
      * right. destruct Hex as [Heq | (s' & Hs' & Heq)].
        -- exists s. split; [by left | done].
        -- exists s'. split; [by right | done].
    + destruct (IH support Hsup) as (Hle & Hall & Hex).
      split; [done |]. split.
      * intros s' Hs'. apply elem_of_cons in Hs' as [-> | Hs']; [lia | by apply Hall].
      * destruct Hex as [Heq | (s' & Hs' & Heq)]; [by left |].
        right. exists s'. split; [by right | done].
Qed.

(** C10. For the empty vector of domain sets [get_support] returns
    0xFFFFFFFF; whatever the threshold (an unsigned value), [support_count]
    records this value, counts the pattern as frequent, and the
    slot-by-slot test of the domain filter accepts it. *)
Theorem get_support_empty (cg : CPattern) count support_map :
  0 ≤ threshold ≤ UINT_MAX →
  get_support [] = 0xFFFFFFFF
  ∧ support_count_step (count, support_map) (cg, [])
    = (wrap32 (count + 1),
       map_insert_pair (cg_get_id cg) 0xFFFFFFFF support_map)
  ∧ all_domains_frequent [] = true.
Proof.
  intros Hthr. split; [reflexivity |]. split; [| reflexivity].
  unfold support_count_step. simpl. unfold get_support. simpl.
  destruct (Z.geb_spec UINT_MAX threshold); [done | lia].
Qed.

(** ** [support_count] *)

Lemma map_insert_pair_lookup k v (m : UintMap) j :
  map_insert_pair k v m !! j
  = match m !! j with
    | Some old => Some old
    | None => if decide (j = k) then Some v else None
    end.
Proof.
  unfold map_insert_pair. destruct (m !! k) as [old |] eqn:Hk.
  - destruct (m !! j) as [old' |] eqn:Hj; [done |].
    destruct (decide (j = k)) as [-> | Hne]; [congruence | done].
  - destruct (decide (j = k)) as [-> | Hne].
    + by rewrite lookup_insert_eq, Hk.
    + rewrite lookup_insert_ne by done. by destruct (m !! j).
Qed.

Lemma fold_left_cons {A B} (f : B → A → B) a l s :
  fold_left f (a :: l) s = fold_left f l (f s a).
Proof. reflexivity. Qed.

Lemma support_count_step_eq count (support_map : UintMap) e :
  support_count_step (count, support_map) e
  = (if decide (threshold ≤ get_support (snd e)) then wrap32 (count + 1)
     else count,
     map_insert_pair (cg_get_id (fst e)) (get_support (snd e)) support_map).
Proof.
  unfold support_count_step.
  destruct (Z.geb_spec (get_support (snd e)) threshold);
    destruct (decide (threshold ≤ get_support (snd e))); done || lia.
Qed.

(** The loop of [support_count]: the count grows by the number of entries
    whose support reaches the threshold; an id that had a support keeps it,
    an id that had none receives the support of the first entry carrying
    it. *)
Lemma support_count_loop entries : ∀ count (support_map : UintMap),
  0 ≤ count < 2 ^ 32 →
  let r := fold_left support_count_step entries (count, support_map) in
  fst r = wrap32 (count + Z.of_nat (length (frequent_entries entries)))
  ∧ ∀ k, snd r !! k
         = match support_map !! k with
           | Some old => Some old
           | None =>
               (λ e, get_support (snd e))
               <$> head (base.filter (λ e, cg_get_id (fst e) = k) entries)
           end.
Proof.
  induction entries as [| e entries IH]; intros count support_map Hcount.
  - simpl. rewrite Z.add_0_r, wrap32_small by done.
    split; [done |]. intros k. by destruct (support_map !! k).
  - cbv zeta. rewrite fold_left_cons, support_count_step_eq.
    unfold frequent_entries. rewrite filter_cons. fold (frequent_entries entries).
    destruct (decide (threshold ≤ get_support (snd e))) as [Hge | Hlt].
    + destruct (IH (wrap32 (count + 1))
                  (map_insert_pair (cg_get_id (fst e)) (get_support (snd e))
                     support_map) (wrap32_range _)) as [Hcnt Hrec].
      split; [rewrite Hcnt; apply wrap32_succ |].
      intros k. rewrite Hrec, map_insert_pair_lookup, (filter_cons _ e entries).
      destruct (support_map !! k) as [old |]; [done |].
      destruct (decide (k = cg_get_id (fst e))) as [-> | Hne].
      * by destruct (decide (cg_get_id (fst e) = cg_get_id (fst e))).
      * by destruct (decide (cg_get_id (fst e) = k)); [congruence |].
    + destruct (IH count
                  (map_insert_pair (cg_get_id (fst e)) (get_support (snd e))
                     support_map) Hcount) as [Hcnt Hrec].
      split; [exact Hcnt |].
      intros k. rewrite Hrec, map_insert_pair_lookup, (filter_cons _ e entries).
      destruct (support_map !! k) as [old |]; [done |].
      destruct (decide (k = cg_get_id (fst e))) as [-> | Hne].
      * by destruct (decide (cg_get_id (fst e) = cg_get_id (fst e))).
      * by destruct (decide (cg_get_id (fst e) = k)); [congruence |].
Qed.

(** C2, as the code has it. For a canonical pattern of the map whose domain
    support is a non-empty vector of sets (of sizes an [unsigned] can hold),
    [get_support] is the minimum cardinality over the slots. [support_count]
    records that minimum under the id of the pattern when the support map
    has no entry under that id yet and no other pattern of the map carries
    the id; an entry that the support map already has under the id is kept
    as it is. The step for the pattern increments the count exactly when the
    minimum is at least the threshold, and the returned count is the number
    of patterns whose support is at least the threshold, whatever the
    support map held. *)
Theorem get_support_minimum (cg_map : gmap CPattern DomainSupport)
    (support_map : UintMap) (cg : CPattern) (sets : DomainSupport) :
  cg_map !! cg = Some sets → sets ≠ [] →
  Forall (λ s, slot_size s ≤ UINT_MAX) sets →
  let m := get_support sets in
  (∃ s, s ∈ sets ∧ slot_size s = m)
  ∧ (∀ s, s ∈ sets → m ≤ slot_size s)
  ∧ (support_map !! cg_get_id cg = None →
     (∀ c, is_Some (cg_map !! c) → cg_get_id c = cg_get_id cg → c = cg) →
     snd (support_count cg_map support_map) !! cg_get_id cg = Some m)
  ∧ (∀ old, support_map !! cg_get_id cg = Some old →
       snd (support_count cg_map support_map) !! cg_get_id cg = Some old)
  ∧ (∀ count sm,
       fst (support_count_step (count, sm) (cg, sets))
       = if decide (threshold ≤ m) then wrap32 (count + 1) else count)
  ∧ fst (support_count cg_map support_map)
    = wrap32 (Z.of_nat (length (frequent_entries (map_to_list cg_map)))).
Proof.
  intros Hcg Hne Hsizes m.
  destruct (get_support_loop sets UINT_MAX ltac:(unfold UINT_MAX; lia))
    as (Hle & Hall & Hex).
  fold (get_support sets) in Hle, Hall, Hex. fold m in Hle, Hall, Hex.
  assert (∃ s, s ∈ sets ∧ slot_size s = m) as Hmin.
  { destruct Hex as [Heq | Hex]; [| done].
    destruct sets as [| s sets]; [done |]. exists s. split; [by left |].
    apply Forall_cons in Hsizes as [Hs _]. specialize (Hall s ltac:(by left)). lia. }
  destruct (support_count_loop (map_to_list cg_map) 0 support_map ltac:(lia))
    as [Hcnt Hrec].
  split; [done |]. split; [done |]. split; [| split; [| split]].
  - intros Hfresh Hid. unfold support_count, support_count_entries.
    rewrite Hrec, Hfresh.
    destruct (head _) as [[c d] |] eqn:Hhead.
    + apply head_Some_elem_of, list_elem_of_filter in Hhead as [Heq Hin].
      simpl in Heq. apply elem_of_map_to_list in Hin.
      assert (c = cg) as -> by (apply Hid; [by eexists | done]).
      simpl. unfold m. congruence.
    + exfalso. apply head_None in Hhead.
      assert ((cg, sets) ∈ base.filter (λ e, cg_get_id (fst e) = cg_get_id cg)
                             (map_to_list cg_map)) as Hin.
      { apply list_elem_of_filter. split; [done |].
        by apply elem_of_map_to_list. }
      rewrite Hhead in Hin. by apply elem_of_nil in Hin.
  - intros old Hold. unfold support_count, support_count_entries.
    by rewrite Hrec, Hold.
  - intros count sm. by rewrite support_count_step_eq.
  - exact Hcnt.
Qed.

(** ** Filtering through the id maps *)

Lemma filter_body_spec id_map support_map out_queue emb s :
  support_of id_map support_map emb = Some s →
  (cg_id ← map_at id_map (Edge.get_qpid emb);
   support ← map_at support_map cg_id;
   if support >=? threshold then Ok (out_queue ++ [emb]) else Ok out_queue)
  = Ok (out_queue ++ base.filter (frequent id_map support_map) [emb]).
Proof.
  intros Hs. rewrite filter_cons, filter_nil.
  destruct (decide (frequent id_map support_map emb)) as [Hyes | Hno].
  - destruct Hyes as (s' & Hs' & Hle). rewrite Hs in Hs'. injection Hs' as <-.
    unfold support_of in Hs. unfold map_at.
    destruct (id_map !! Edge.get_qpid emb) as [cg_id |]; [| done].
    rewrite bind_Ok, Hs, bind_Ok.
    destruct (Z.geb_spec s threshold); [done | lia].
  - assert (s < threshold) as Hlt.
    { destruct (decide (threshold ≤ s)) as [Hle | Hgt]; [| lia].
      exfalso. apply Hno. by exists s. }
    unfold support_of in Hs. unfold map_at.
    destruct (id_map !! Edge.get_qpid emb) as [cg_id |]; [| done].
    rewrite bind_Ok, Hs, bind_Ok.
    destruct (Z.geb_spec s threshold); [lia | by rewrite app_nil_r].
Qed.

(** C3. When the quick-pattern id of every embedding of the input queue
    resolves through the id map to a pattern with a recorded support, the
    filtering pass returns, and its output queue is the previous one followed
    by exactly those embeddings, in order, whose support is at least the
    threshold; nothing else is produced. [filter_each] does the same for one
    embedding. *)
Theorem filter_keeps_frequent in_queue id_map support_map out_queue :
  (∀ emb, emb ∈ in_queue → is_Some (support_of id_map support_map emb)) →
  filter in_queue id_map support_map out_queue
  = Ok (out_queue ++ base.filter (frequent id_map support_map) in_queue)
  ∧ (∀ emb, emb ∈ in_queue →
       emb ∈ base.filter (frequent id_map support_map) in_queue
       ↔ ∃ cg_id s, id_map !! Edge.get_qpid emb = Some cg_id
                    ∧ support_map !! cg_id = Some s ∧ threshold ≤ s)
  ∧ (∀ emb, emb ∈ in_queue →
       filter_each emb id_map support_map out_queue
       = Ok (if decide (frequent id_map support_map emb)
             then out_queue ++ [emb] else out_queue)).
Proof.
  intros Hres. split; [| split].
  - unfold filter. revert out_queue.
    induction in_queue as [| emb in_queue IH]; intros out_queue.
    + simpl. by rewrite app_nil_r.
    + destruct (Hres emb ltac:(by left)) as [s Hs].
      rewrite foldM_cons, (filter_body_spec _ _ _ _ _ Hs), bind_Ok.
      rewrite IH by (intros e He; apply Hres; by right).
      rewrite (filter_cons _ emb in_queue), (filter_cons _ emb []), filter_nil.
      destruct (decide (frequent id_map support_map emb)); simpl.
      * by rewrite <- app_assoc.
      * by rewrite app_nil_r.
  - intros emb Hemb. rewrite list_elem_of_filter. unfold frequent, support_of.
    split.
    + intros [(s & Hs & Hle) _].
      destruct (id_map !! Edge.get_qpid emb) as [cg_id |]; [| done].
      by exists cg_id, s.
    + intros (cg_id & s & Hid & Hs & Hle). split; [| done].
      exists s. by rewrite Hid.
  - intros emb Hemb. destruct (Hres emb Hemb) as [s Hs].
    unfold filter_each. rewrite (filter_body_spec _ _ _ _ _ Hs).
    rewrite filter_cons, filter_nil.
    destruct (decide (frequent id_map support_map emb)); [done |].
    by rewrite app_nil_r.
Qed.

(** ** Canonical aggregation of domain sets *)

Lemma union_slot_ok (cg : CanonicalGraph CPattern) n
    (domainSets sets : DomainSupport) k src slot :
  (get_quick_pattern_index cg k < n)%nat →
  domainSets !! get_quick_pattern_index cg k = Some src →
  sets !! k = Some slot →
  union_slot cg n domainSets sets k = Ok (<[k := slot ∪ src]> sets).
Proof.
  intros Hlt Hsrc Hslot. unfold union_slot. cbv zeta.
  destruct (Nat.ltb_spec (get_quick_pattern_index cg k) n); [| lia].
  unfold assert. rewrite bind_Ok.
  rewrite (index_lookup _ _ _ Hsrc), bind_Ok.
  by rewrite (index_lookup _ _ _ Hslot), bind_Ok.
Qed.

(** The loop over the canonical slots, from slot [k]: slots below [k] are
    left as they are, every slot [i] from [k] on receives the quick-pattern
    set at position [get_quick_pattern_index cg i]. *)
Lemma union_slots_from (cg : CanonicalGraph CPattern) n
    (domainSets : DomainSupport) : ∀ todo k (sets : DomainSupport),
  (k + todo = n)%nat → length sets = n → length domainSets = n →
  (∀ i, (i < n)%nat → (get_quick_pattern_index cg i < n)%nat) →
  ∃ new : DomainSupport,
    foldM (union_slot cg n domainSets) (seq k todo) sets = Ok new
    ∧ length new = n
    ∧ (∀ i, (i < k)%nat → new !! i = sets !! i)
    ∧ (∀ i old src, (k ≤ i)%nat → sets !! i = Some old →
         domainSets !! get_quick_pattern_index cg i = Some src →
         new !! i = Some (old ∪ src)).
Proof.
  induction todo as [| todo IH]; intros k sets Hk Hlen Hds Hperm.
  - exists sets. split; [done |]. split; [done |]. split; [done |].
    intros i old src Hi Hold _. apply lookup_lt_Some in Hold. lia.
  - destruct (lookup_lt_is_Some_2 domainSets (get_quick_pattern_index cg k))
      as [src Hsrc]; [rewrite Hds; apply Hperm; lia |].
    destruct (lookup_lt_is_Some_2 sets k ltac:(lia)) as [slot Hslot].
    simpl seq.
    rewrite foldM_cons, (union_slot_ok cg n domainSets sets k src slot), bind_Ok;
      [| apply Hperm; lia | done | done].
    destruct (IH (S k) (<[k := slot ∪ src]> sets) ltac:(lia)
                ltac:(by rewrite length_insert) Hds Hperm)
      as (new & Hrun & Hnew & Hbelow & Hfrom).
    exists new. split; [done |]. split; [done |]. split.
    + intros i Hi. rewrite Hbelow by lia. apply list_lookup_insert_ne. lia.
    + intros i old src' Hi Hold Hsrc'. destruct (decide (i = k)) as [-> | Hne].
      * rewrite Hbelow by lia. rewrite list_lookup_insert_eq by lia.
        rewrite Hslot in Hold. rewrite Hsrc in Hsrc'. congruence.
      * apply Hfrom; [lia | | done].
        rewrite list_lookup_insert_ne by lia. done.
Qed.

Lemma canonical_aggregate_each_domain_spec qp (domainSets : DomainSupport)
    (cg_map : gmap CPattern DomainSupport) (id_map : UintMap) :
  let cg := canonical_form qp in
  let n := qp_get_size qp in
  (1 < n)%nat →
  length domainSets = n →
  (∀ i, (i < n)%nat → (get_quick_pattern_index cg i < n)%nat) →
  (∀ sets, cg_map !! cg_pattern cg = Some sets → length sets = n) →
  ∃ new : DomainSupport,
    canonical_aggregate_each_domain qp domainSets cg_map id_map
    = Ok (<[cg_pattern cg := new]> cg_map,
          map_insert_pair (qp_get_id qp) (cg_get_id (cg_pattern cg)) id_map)
    ∧ length new = n
    ∧ ∀ i, (i < n)%nat →
        ∃ src, domainSets !! get_quick_pattern_index cg i = Some src
               ∧ new !! i = Some (slot_before cg_map (cg_pattern cg) i ∪ src).
Proof.
  intros cg n Hsize Hds Hperm Hentry. unfold canonical_aggregate_each_domain.
  fold n. rewrite Hds, Nat.eqb_refl. unfold assert at 1. rewrite bind_Ok.
  rewrite (turn_canonical_graph_ok qp Hsize), bind_Ok. fold cg.
  set (start := match cg_map !! cg_pattern cg with
                | Some sets => sets
                | None => replicate n ∅
                end).
  assert (length start = n) as Hstart.
  { unfold start. destruct (cg_map !! cg_pattern cg) as [sets |] eqn:Hcg.
    - by apply Hentry.
    - apply length_replicate. }
  destruct (union_slots_from cg n domainSets n 0 start ltac:(lia) Hstart Hds Hperm)
    as (new & Hrun & Hnew & _ & Hfrom).
  exists new. unfold union_slots. rewrite Hrun, bind_Ok.
  split; [done |]. split; [done |]. intros i Hi.
  destruct (lookup_lt_is_Some_2 domainSets (get_quick_pattern_index cg i))
    as [src Hsrc]; [rewrite Hds; by apply Hperm |].
  exists src. split; [done |].
  apply Hfrom; [lia | | done]. unfold slot_before, start.
  destruct (cg_map !! cg_pattern cg) as [sets |] eqn:Hcg.
  - destruct (lookup_lt_is_Some_2 sets i) as [old Hold];
      [rewrite (Hentry sets eq_refl); lia |].
    by rewrite Hold.
  - rewrite lookup_replicate_2 by lia. done.
Qed.

(** C4. With the assertions of [canonical_aggregate_each] and of
    [readGraph] holding (as many domain sets as the quick pattern has slots,
    more than one slot, a permutation inside the slots) and an existing entry
    of that many slots, the call returns, the canonical entry has numDomains
    slots, and every canonical slot i is its previous content united with the
    quick pattern's set at index [get_quick_pattern_index cg i]. So two quick
    patterns of one canonical pattern, aggregated one after the other into an
    empty map, leave in canonical slot i the union of their sets at their own
    permuted indices. On a quick pattern of one element or none the call
    stops on an assertion and no slot is touched. *)
Theorem canonical_aggregate_each_through_permutation :
  (∀ qp (domainSets : DomainSupport) (cg_map : gmap CPattern DomainSupport)
     (id_map : UintMap),
     let cg := canonical_form qp in
     let n := qp_get_size qp in
     (1 < n)%nat →
     length domainSets = n →
     (∀ i, (i < n)%nat → (get_quick_pattern_index cg i < n)%nat) →
     (∀ sets, cg_map !! cg_pattern cg = Some sets → length sets = n) →
     ∃ new : DomainSupport,
       canonical_aggregate_each_domain qp domainSets cg_map id_map
       = Ok (<[cg_pattern cg := new]> cg_map,
             map_insert_pair (qp_get_id qp) (cg_get_id (cg_pattern cg)) id_map)
       ∧ length new = n
       ∧ ∀ i, (i < n)%nat →
           ∃ src, domainSets !! get_quick_pattern_index cg i = Some src
                  ∧ new !! i = Some (slot_before cg_map (cg_pattern cg) i ∪ src))
  ∧ (∀ qp1 qp2 (sets1 sets2 : DomainSupport) (id_map : UintMap),
       let cg1 := canonical_form qp1 in
       let cg2 := canonical_form qp2 in
       let n := qp_get_size qp1 in
       (1 < n)%nat →
       cg_pattern cg1 = cg_pattern cg2 → qp_get_size qp2 = n →
       length sets1 = n → length sets2 = n →
       (∀ i, (i < n)%nat → (get_quick_pattern_index cg1 i < n)%nat) →
       (∀ i, (i < n)%nat → (get_quick_pattern_index cg2 i < n)%nat) →
       ∃ cg_map1 id_map1 cg_map2 id_map2 (slots : DomainSupport),
         canonical_aggregate_each_domain qp1 sets1 ∅ id_map
         = Ok (cg_map1, id_map1)
         ∧ canonical_aggregate_each_domain qp2 sets2 cg_map1 id_map1
           = Ok (cg_map2, id_map2)
         ∧ cg_map2 !! cg_pattern cg1 = Some slots
         ∧ length slots = n
         ∧ ∀ i, (i < n)%nat →
             ∃ s1 s2, sets1 !! get_quick_pattern_index cg1 i = Some s1
                      ∧ sets2 !! get_quick_pattern_index cg2 i = Some s2
                      ∧ slots !! i = Some (s1 ∪ s2))
  ∧ (∀ qp (domainSets : DomainSupport) (cg_map : gmap CPattern DomainSupport)
       (id_map : UintMap),
       (qp_get_size qp ≤ 1)%nat →
       canonical_aggregate_each_domain qp domainSets cg_map id_map
       = AssertFailed).
Proof.
  split; [exact canonical_aggregate_each_domain_spec |]. split.
  2:{ intros qp domainSets cg_map id_map Hsize.
      unfold canonical_aggregate_each_domain.
      destruct (qp_get_size qp =? length domainSets)%nat; [| done].
      unfold assert. rewrite bind_Ok.
      by rewrite (turn_canonical_graph_abort qp false (or_introl Hsize)). }
  intros qp1 qp2 sets1 sets2 id_map cg1 cg2 n Hbig Hsame Hsize Hlen1 Hlen2
    Hperm1 Hperm2.
  destruct (canonical_aggregate_each_domain_spec qp1 sets1 ∅ id_map Hbig Hlen1
              Hperm1)
    as (new1 & Hrun1 & Hnew1 & Hslots1); [by intros sets; rewrite lookup_empty |].
  fold cg1 in Hrun1, Hslots1.
  destruct (canonical_aggregate_each_domain_spec qp2 sets2
              (<[cg_pattern cg1 := new1]> ∅)
              (map_insert_pair (qp_get_id qp1) (cg_get_id (cg_pattern cg1)) id_map))
    as (new2 & Hrun2 & Hnew2 & Hslots2).
  { by rewrite Hsize. }
  { by rewrite Hsize. }
  { rewrite Hsize. exact Hperm2. }
  { fold cg2. rewrite <- Hsame, lookup_insert_eq, Hsize. by intros sets [= <-]. }
  fold cg2 in Hrun2, Hslots2. rewrite Hsize in Hnew2, Hslots2.
  eexists _, _, _, _, new2. split; [exact Hrun1 |]. split; [exact Hrun2 |].
  split; [by rewrite Hsame, lookup_insert_eq |]. split; [done |].
  intros i Hi. destruct (Hslots1 i Hi) as (s1 & Hs1 & Hn1).
  destruct (Hslots2 i Hi) as (s2 & Hs2 & Hn2).
  exists s1, s2. split; [done |]. split; [done |].
  rewrite Hn2. f_equal. unfold slot_before in *.
  rewrite <- Hsame, lookup_insert_eq, Hn1. rewrite lookup_empty. simpl.
  by rewrite (left_id_L ∅ (∪)).
Qed.

(** ** Filtering against a pattern that has no entry *)

(** C5, what the code does. For an embedding whose canonical pattern is not
    in the map, [filter] stops on an assertion, and the filter through the
    id maps stops on the exception of [at]; but [filter_each] on a
    canonical map, once [turn_canonical_graph] has returned the pattern (the
    quick pattern has more than one element), returns normally:
    [cg_map[*cf]] inserts a default entry into the map, the domain variant
    then puts the embedding on the output queue, the frequency variant
    classifies it against the count 0. Only for a quick pattern of one
    element or none does [filter_each] stop, on the assertion of
    [readGraph]. *)
Theorem filter_each_absent_pattern emb
    (dom_map : gmap CPattern DomainSupport) (freq_map : gmap CPattern Z)
    (id_map support_map : UintMap) out_queue :
  dom_map !! canonical_of emb = None →
  freq_map !! canonical_of emb = None →
  support_of id_map support_map emb = None →
  ((1 < qp_get_size (quick_pattern emb))%nat →
   filter_each_domain emb dom_map out_queue
   = Ok (<[canonical_of emb := []]> dom_map, out_queue ++ [emb])
   ∧ filter_each_freq emb freq_map out_queue
     = Ok (<[canonical_of emb := 0]> freq_map,
           if 0 >=? threshold then out_queue ++ [emb] else out_queue))
  ∧ filter_domain [emb] dom_map out_queue = AssertFailed
  ∧ filter_freq [emb] freq_map out_queue = AssertFailed
  ∧ filter_each emb id_map support_map out_queue = OutOfRange
  ∧ filter [emb] id_map support_map out_queue = OutOfRange
  ∧ ((qp_get_size (quick_pattern emb) ≤ 1)%nat →
     filter_each_domain emb dom_map out_queue = AssertFailed
     ∧ filter_each_freq emb freq_map out_queue = AssertFailed).
Proof.
  intros Hdom Hfreq Hsup.
  assert (filter_each emb id_map support_map out_queue = OutOfRange) as Hat.
  { unfold filter_each, map_at. unfold support_of in Hsup.
    destruct (id_map !! Edge.get_qpid emb) as [cg_id |]; [| done].
    rewrite bind_Ok. by rewrite Hsup. }
  unfold canonical_of in Hdom, Hfreq.
  split; [| split; [| split; [| split; [| split]]]].
  - intros Hsize. split.
    + unfold filter_each_domain, subscript, canonical_of. cbv zeta.
      by rewrite (turn_canonical_graph_ok _ Hsize), bind_Ok, Hdom.
    + unfold filter_each_freq, subscript, canonical_of. cbv zeta.
      rewrite (turn_canonical_graph_ok _ Hsize), bind_Ok, Hfreq.
      by destruct (0 >=? threshold).
  - unfold filter_domain. rewrite foldM_cons. unfold filter_domain_step.
    cbv zeta.
    destruct (Nat.lt_ge_cases 1 (qp_get_size (quick_pattern emb)))
      as [Hsize | Hsize].
    + rewrite (turn_canonical_graph_ok _ Hsize), bind_Ok.
      case_bool_decide as Hs; [| done]. destruct Hs as [x Hx]. congruence.
    + by rewrite (turn_canonical_graph_abort _ false (or_introl Hsize)).
  - unfold filter_freq. rewrite foldM_cons. unfold filter_freq_step.
    cbv zeta.
    destruct (Nat.lt_ge_cases 1 (qp_get_size (quick_pattern emb)))
      as [Hsize | Hsize].
    + rewrite (turn_canonical_graph_ok _ Hsize), bind_Ok.
      case_bool_decide as Hs; [| done]. destruct Hs as [x Hx]. congruence.
    + by rewrite (turn_canonical_graph_abort _ false (or_introl Hsize)).
  - exact Hat.
  - unfold filter. simpl. unfold filter_each in Hat. by rewrite Hat.
  - intros Hsize. unfold filter_each_domain, filter_each_freq. cbv zeta.
    by rewrite (turn_canonical_graph_abort _ false (or_introl Hsize)).
Qed.

(** ** Aggregation over several contexts: frequencies *)

Lemma wrap32_add_l x y : wrap32 (wrap32 x + y) = wrap32 (x + y).
Proof. unfold wrap32. apply Zplus_mod_idemp_l. Qed.

Lemma wrap32_add_r x y : wrap32 (x + wrap32 y) = wrap32 (x + y).
Proof. unfold wrap32. apply Zplus_mod_idemp_r. Qed.

(** A loop whose steps commute does not depend on the order of its list. *)
Lemma fold_left_permutation {A B} (f : B → A → B) :
  (∀ m a b, f (f m a) b = f (f m b) a) →
  ∀ l l', l ≡ₚ l' → ∀ m, fold_left f l m = fold_left f l' m.
Proof.
  intros Hcomm l l' Hperm.
  induction Hperm as [| x l l' _ IH | x y l | l l' l'' _ IH1 _ IH2]; intros m; simpl.
  - done.
  - apply IH.
  - by rewrite Hcomm.
  - by rewrite IH1.
Qed.

Lemma merge_freq_empty_r (m : gmap QPattern Z) : merge_freq m ∅ = m.
Proof.
  apply map_eq. intros k. unfold merge_freq.
  rewrite lookup_union_with, lookup_empty. by destruct (m !! k).
Qed.

(** Counting one more embedding after a merge is counting it in the right
    operand before the merge. *)
Lemma quick_aggregate_freq_step_merge (m a : gmap QPattern Z) emb :
  quick_aggregate_freq_step (merge_freq m a) emb
  = merge_freq m (quick_aggregate_freq_step a emb).
Proof.
  apply map_eq. intros k. unfold quick_aggregate_freq_step, merge_freq.
  set (qp := quick_pattern emb). rewrite lookup_union_with.
  destruct (m !! qp) as [c |] eqn:Hm, (a !! qp) as [d |] eqn:Ha; simpl;
    destruct (decide (k = qp)) as [-> | Hne];
    rewrite ?lookup_insert_eq, ?lookup_union_with, ?lookup_insert_eq, ?Hm, ?Ha;
    rewrite ?lookup_insert_ne, ?lookup_union_with, ?lookup_insert_ne by done;
    simpl; try done.
  - f_equal. by rewrite wrap32_add_l, wrap32_add_r, Z.add_assoc.
Qed.

Lemma quick_aggregate_freq_merge l : ∀ m : gmap QPattern Z,
  quick_aggregate_freq l m = merge_freq m (quick_aggregate_freq l ∅).
Proof.
  unfold quick_aggregate_freq.
  induction l as [| emb l IH] using rev_ind; intros m.
  - simpl. by rewrite merge_freq_empty_r.
  - rewrite !fold_left_app. simpl.
    by rewrite IH, quick_aggregate_freq_step_merge.
Qed.

Lemma quick_aggregate_freq_step_comm (m : gmap QPattern Z) a b :
  quick_aggregate_freq_step (quick_aggregate_freq_step m a) b
  = quick_aggregate_freq_step (quick_aggregate_freq_step m b) a.
Proof.
  unfold quick_aggregate_freq_step.
  destruct (decide (quick_pattern a = quick_pattern b)) as [Heq | Hne].
  - by rewrite Heq.
  - destruct (m !! quick_pattern a) as [c |] eqn:Ha,
             (m !! quick_pattern b) as [d |] eqn:Hb;
      rewrite !lookup_insert_ne, ?Ha, ?Hb by done;
      by rewrite insert_insert_ne.
Qed.

Lemma aggregate_freq_spec t :
  aggregate_freq t = quick_aggregate_freq (embeddings_of t) ∅.
Proof.
  induction t as [embs | l IHl r IHr]; simpl; [done |].
  rewrite IHl, IHr. unfold quick_aggregate_freq at 3.
  rewrite fold_left_app. fold (quick_aggregate_freq (embeddings_of l) ∅).
  symmetry. apply quick_aggregate_freq_merge.
Qed.

Lemma aggregate_each_freq_spec embs (m : gmap QPattern Z) :
  aggregate_each_freq embs m = quick_aggregate_freq embs m.
Proof.
  unfold aggregate_each_freq, quick_aggregate_freq. revert m.
  induction embs as [| emb embs IH]; intros m; [done |]. simpl.
  rewrite IH. f_equal. unfold quick_aggregate_each_freq, quick_aggregate_freq_step.
  by destruct (m !! quick_pattern emb).
Qed.

(** ** Aggregation over several contexts: domain sets *)

Lemma zip_union_assoc (a b c : DomainSupport) :
  zip_with (∪) (zip_with (∪) a b) c = zip_with (∪) a (zip_with (∪) b c).
Proof.
  revert b c. induction a as [| x a IH]; intros [| y b] [| z c]; simpl; try done.
  f_equal; [symmetry; apply (assoc_L (∪)) | apply IH].
Qed.

Lemma zip_union_comm (a b : DomainSupport) :
  zip_with (∪) a b = zip_with (∪) b a.
Proof.
  revert b. induction a as [| x a IH]; intros [| y b]; simpl; try done.
  f_equal; [apply (comm_L (∪)) | apply IH].
Qed.

Lemma zip_union_empty n (a : DomainSupport) :
  (length a ≤ n)%nat → zip_with (∪) (replicate n ∅) a = a.
Proof.
  intros Hlen. rewrite zip_with_replicate_l by done.
  induction a as [| x a IH]; simpl; [done |].
  f_equal; [apply (left_id_L ∅ (∪)) | apply IH; simpl in Hlen; lia].
Qed.

Lemma length_singleton_slots emb : length (singleton_slots emb) = Edge.size emb.
Proof. unfold singleton_slots, Edge.size. apply length_map. Qed.

(** The loop of [insert_vertices], from slot [k]. *)
Lemma insert_vertices_from emb : ∀ todo k (sets : DomainSupport),
  (k + todo = Edge.size emb)%nat → length sets = Edge.size emb →
  ∃ new : DomainSupport,
    foldM (insert_vertex emb) (seq k todo) sets = Ok new
    ∧ length new = Edge.size emb
    ∧ (∀ i, (i < k)%nat → new !! i = sets !! i)
    ∧ (∀ i old e, (k ≤ i)%nat → sets !! i = Some old →
         elements emb !! i = Some e → new !! i = Some (old ∪ {[vertex_id e]})).
Proof.
  induction todo as [| todo IH]; intros k sets Hk Hlen.
  - exists sets. split; [done |]. split; [done |]. split; [done |].
    intros i old e Hi Hold _. apply lookup_lt_Some in Hold. lia.
  - destruct (lookup_lt_is_Some_2 (elements emb) k) as [e He];
      [unfold Edge.size in Hk; lia |].
    destruct (lookup_lt_is_Some_2 sets k ltac:(lia)) as [slot Hslot].
    simpl seq. rewrite foldM_cons.
    assert (insert_vertex emb sets k = Ok (<[k := {[vertex_id e]} ∪ slot]> sets))
      as ->.
    { unfold insert_vertex. rewrite (get_vertex_lookup _ _ _ He), bind_Ok.
      by rewrite (index_lookup _ _ _ Hslot), bind_Ok. }
    rewrite bind_Ok.
    destruct (IH (S k) (<[k := {[vertex_id e]} ∪ slot]> sets) ltac:(lia)
                ltac:(by rewrite length_insert))
      as (new & Hrun & Hnew & Hbelow & Hfrom).
    exists new. split; [done |]. split; [done |]. split.
    + intros i Hi. rewrite Hbelow by lia. apply list_lookup_insert_ne. lia.
    + intros i old e' Hi Hold He'. destruct (decide (i = k)) as [-> | Hne].
      * rewrite Hbelow by lia. rewrite list_lookup_insert_eq by lia.
        rewrite Hslot in Hold. rewrite He in He'.
        injection Hold as <-. injection He' as <-. f_equal. apply (comm_L (∪)).
      * apply Hfrom; [lia | | done].
        rewrite list_lookup_insert_ne by lia. done.
Qed.

Lemma insert_vertices_ok emb (sets : DomainSupport) :
  length sets = Edge.size emb →
  insert_vertices emb sets = Ok (zip_with (∪) sets (singleton_slots emb)).
Proof.
  intros Hlen. unfold insert_vertices.
  destruct (insert_vertices_from emb (Edge.size emb) 0 sets ltac:(lia) Hlen)
    as (new & Hrun & Hnew & _ & Hfrom).
  rewrite Hrun. f_equal. apply list_eq. intros i.
  rewrite lookup_zip_with. unfold singleton_slots. rewrite list_lookup_fmap.
  destruct (sets !! i) as [old |] eqn:Hold; simpl.
  - destruct (lookup_lt_is_Some_2 (elements emb) i) as [e He].
    { apply lookup_lt_Some in Hold. unfold Edge.size in Hlen. lia. }
    rewrite He. simpl. apply (Hfrom i old e); [lia | done | done].
  - apply lookup_ge_None. apply lookup_ge_None in Hold. lia.
Qed.

Lemma quick_aggregate_domain_step_ok (m : gmap QPattern DomainSupport) emb :
  well_sized m → quick_aggregate_domain_step m emb = Ok (absorb m emb).
Proof.
  intros Hwell. unfold quick_aggregate_domain_step, absorb.
  destruct (m !! quick_pattern emb) as [sets |] eqn:Hm; simpl.
  - by rewrite (insert_vertices_ok emb sets (Hwell emb sets Hm)), bind_Ok.
  - by rewrite insert_vertices_ok, bind_Ok by apply length_replicate.
Qed.

Lemma well_sized_empty : well_sized ∅.
Proof. intros emb sets Hm. by rewrite lookup_empty in Hm. Qed.

Lemma well_sized_absorb (m : gmap QPattern DomainSupport) emb :
  patterns_fix_size → well_sized m → well_sized (absorb m emb).
Proof.
  intros Hfix Hwell emb' sets. unfold absorb.
  destruct (decide (quick_pattern emb = quick_pattern emb')) as [Heq | Hne].
  - rewrite Heq, lookup_insert_eq. intros [= <-].
    rewrite length_zip_with, length_singleton_slots, <- (Hfix _ _ Heq).
    destruct (m !! quick_pattern emb') as [old |] eqn:Hold; simpl.
    + rewrite (Hwell emb' old Hold), <- (Hfix _ _ Heq). lia.
    + rewrite length_replicate. lia.
  - rewrite lookup_insert_ne by done. apply Hwell.
Qed.

Lemma well_sized_fold l : ∀ m : gmap QPattern DomainSupport,
  patterns_fix_size → well_sized m → well_sized (fold_left absorb l m).
Proof.
  induction l as [| emb l IH]; intros m Hfix Hwell; [done |].
  simpl. apply IH; [done |]. by apply well_sized_absorb.
Qed.

Lemma quick_aggregate_domain_ok l : ∀ m : gmap QPattern DomainSupport,
  patterns_fix_size → well_sized m →
  quick_aggregate_domain l m = Ok (fold_left absorb l m).
Proof.
  unfold quick_aggregate_domain.
  induction l as [| emb l IH]; intros m Hfix Hwell; [done |].
  rewrite foldM_cons, quick_aggregate_domain_step_ok, bind_Ok by done.
  simpl. apply IH; [done |]. by apply well_sized_absorb.
Qed.

Lemma aggregate_each_domain_ok l : ∀ m : gmap QPattern DomainSupport,
  patterns_fix_size → well_sized m →
  aggregate_each_domain l m = Ok (fold_left absorb l m).
Proof.
  unfold aggregate_each_domain.
  induction l as [| emb l IH]; intros m Hfix Hwell; [done |].
  rewrite foldM_cons.
  assert (quick_aggregate_each_domain emb m
          = Ok (Edge.set_qpid emb (qp_get_id (quick_pattern emb)), absorb m emb))
    as ->.
  { unfold quick_aggregate_each_domain, absorb.
    destruct (m !! quick_pattern emb) as [sets |] eqn:Hm; simpl.
    - rewrite (insert_vertices_ok _ sets); [done |]. by apply (Hwell emb).
    - rewrite insert_vertices_ok; [done |]. apply length_replicate. }
  rewrite !bind_Ok. simpl. apply IH; [done |]. by apply well_sized_absorb.
Qed.

Lemma merge_domain_empty_r (m : gmap QPattern DomainSupport) :
  merge_domain m ∅ = m.
Proof.
  apply map_eq. intros k. unfold merge_domain.
  rewrite lookup_union_with, lookup_empty. by destruct (m !! k).
Qed.

(** Absorbing one more embedding after a merge is absorbing it in the right
    operand before the merge. *)
Lemma absorb_merge (m a : gmap QPattern DomainSupport) emb :
  absorb (merge_domain m a) emb = merge_domain m (absorb a emb).
Proof.
  apply map_eq. intros k. unfold absorb, merge_domain.
  set (qp := quick_pattern emb). rewrite lookup_union_with.
  destruct (decide (k = qp)) as [-> | Hne].
  - rewrite lookup_insert_eq, lookup_union_with, lookup_insert_eq.
    destruct (m !! qp) as [c |] eqn:Hm, (a !! qp) as [d |] eqn:Ha; simpl;
      f_equal.
    + apply zip_union_assoc.
    + by rewrite zip_union_empty by (rewrite length_singleton_slots; lia).
  - rewrite lookup_insert_ne, !lookup_union_with, lookup_insert_ne by done.
    done.
Qed.

Lemma fold_absorb_merge l : ∀ m : gmap QPattern DomainSupport,
  fold_left absorb l m = merge_domain m (fold_left absorb l ∅).
Proof.
  induction l as [| emb l IH] using rev_ind; intros m.
  - simpl. by rewrite merge_domain_empty_r.
  - rewrite !fold_left_app. simpl. by rewrite IH, absorb_merge.
Qed.

Lemma absorb_comm (m : gmap QPattern DomainSupport) a b :
  patterns_fix_size → absorb (absorb m a) b = absorb (absorb m b) a.
Proof.
  intros Hfix. unfold absorb.
  destruct (decide (quick_pattern a = quick_pattern b)) as [Heq | Hne].
  - rewrite Heq, !lookup_insert_eq, !insert_insert_eq. simpl.
    rewrite (Hfix _ _ Heq). f_equal.
    rewrite !zip_union_assoc. f_equal. apply zip_union_comm.
  - rewrite !lookup_insert_ne by done. by rewrite insert_insert_ne.
Qed.

Lemma aggregate_domain_spec t :
  patterns_fix_size →
  aggregate_domain t = Ok (fold_left absorb (embeddings_of t) ∅).
Proof.
  intros Hfix. induction t as [embs | l IHl r IHr]; simpl.
  - apply quick_aggregate_domain_ok; [done | apply well_sized_empty].
  - rewrite IHl, bind_Ok, IHr, bind_Ok, fold_left_app. f_equal.
    symmetry. apply fold_absorb_merge.
Qed.

(** C7. When embeddings of one quick pattern have one size, any way of
    splitting the embeddings over contexts and any order of merging the
    per-context maps (summing the counters, uniting the domain sets slot by
    slot) gives the map that one context computes from the whole collection,
    taken in any order; a context may aggregate with [quick_aggregate] or with
    [quick_aggregate_each]. *)
Theorem aggregation_independent_of_partition (t : contexts)
    (embs : list EdgeEmbedding) :
  patterns_fix_size → embeddings_of t ≡ₚ embs →
  aggregate_freq t = quick_aggregate_freq embs ∅
  ∧ aggregate_each_freq embs ∅ = quick_aggregate_freq embs ∅
  ∧ ∃ qp_map : gmap QPattern DomainSupport,
      aggregate_domain t = Ok qp_map
      ∧ quick_aggregate_domain embs ∅ = Ok qp_map
      ∧ aggregate_each_domain embs ∅ = Ok qp_map
      ∧ ∀ t', embeddings_of t' ≡ₚ embs →
          aggregate_freq t' = aggregate_freq t
          ∧ aggregate_domain t' = Ok qp_map.
Proof.
  intros Hfix Hperm.
  assert (∀ t', embeddings_of t' ≡ₚ embs →
            aggregate_freq t' = quick_aggregate_freq embs ∅
            ∧ aggregate_domain t' = Ok (fold_left absorb embs ∅)) as Hany.
  { intros t' Hperm'. split.
    - rewrite aggregate_freq_spec. unfold quick_aggregate_freq.
      apply fold_left_permutation; [apply quick_aggregate_freq_step_comm | done].
    - rewrite aggregate_domain_spec by done. f_equal.
      apply fold_left_permutation; [| done].
      intros m a b. by apply absorb_comm. }
  destruct (Hany t Hperm) as [Hfreq Hdom].
  split; [done |]. split; [apply aggregate_each_freq_spec |].
  exists (fold_left absorb embs ∅). split; [done |]. split; [| split].
  - apply quick_aggregate_domain_ok; [done | apply well_sized_empty].
  - apply aggregate_each_domain_ok; [done | apply well_sized_empty].
  - intros t' Hperm'. destruct (Hany t' Hperm') as [Hfreq' Hdom'].
    split; [by rewrite Hfreq', Hfreq | done].
Qed.

(** * Further facts about support and aggregation *)

(** ** Support *)

Lemma get_support_bounds (sets : DomainSupport) :
  get_support sets ≤ UINT_MAX
  ∧ (∀ s, s ∈ sets → get_support sets ≤ slot_size s)
  ∧ (get_support sets = UINT_MAX
     ∨ ∃ s, s ∈ sets ∧ slot_size s = get_support sets).
Proof.
  apply (get_support_loop sets UINT_MAX). unfold UINT_MAX. lia.
Qed.

(** X10. Uniting further sets into the slots of a domain support never
    lowers its support: [get_support] of the slot-wise union of two vectors
    is at least [get_support] of the first. The support is never above
    0xFFFFFFFF, nor above the size of any slot. *)
Theorem get_support_union_monotone (a b : DomainSupport) :
  get_support a ≤ get_support (zip_with (∪) a b)
  ∧ get_support a ≤ UINT_MAX
  ∧ ∀ s, s ∈ a → get_support a ≤ slot_size s.
Proof.
  destruct (get_support_bounds a) as (Hmax & Hall & _).
  split; [| by split].
  destruct (get_support_bounds (zip_with (∪) a b)) as (_ & _ & [Heq | Hex]).
  - by rewrite Heq.
  - destruct Hex as (s & Hs & <-).
    apply list_elem_of_lookup in Hs as [i Hi].
    apply lookup_zip_with_Some in Hi as (x & y & -> & Hx & Hy).
    transitivity (slot_size x).
    + apply Hall. eapply list_elem_of_lookup_2, Hx.
    + unfold slot_size. apply inj_le, subseteq_size, union_subseteq_l.
Qed.

Lemma all_domains_frequent_spec (sets : DomainSupport) :
  all_domains_frequent sets = true ↔ ∀ s, s ∈ sets → threshold ≤ slot_size s.
Proof.
  induction sets as [| s sets IH]; simpl.
  - split; [| done]. intros _ s Hs. by apply elem_of_nil in Hs.
  - destruct (Z.ltb_spec (slot_size s) threshold) as [Hlt | Hge].
    + split; [done |]. intros Hall. specialize (Hall s ltac:(by left)). lia.
    + rewrite IH. split.
      * intros Hall s' Hs'. apply elem_of_cons in Hs' as [-> | Hs'];
          [done | by apply Hall].
      * intros Hall s' Hs'. apply Hall. by right.
Qed.

(** X11. The two ways of deciding that a pattern is frequent agree: for a
    threshold an [unsigned] can hold, the slot-by-slot test of the filters on
    the canonical map accepts a vector of domain sets exactly when the value
    of [get_support], which [support_count] records for the filter through
    the id maps, is at least the threshold. *)
Theorem all_domains_frequent_iff_support (sets : DomainSupport) :
  threshold ≤ UINT_MAX →
  all_domains_frequent sets = (get_support sets >=? threshold).
Proof.
  intros Hthr. apply eq_true_iff_eq. rewrite all_domains_frequent_spec.
  destruct (get_support_bounds sets) as (Hmax & Hall & Hex).
  destruct (Z.geb_spec (get_support sets) threshold) as [Hge | Hlt].
  - split; [done |]. intros _ s Hs. specialize (Hall s Hs). lia.
  - split; [| done]. intros Hfreq. exfalso.
    destruct Hex as [Heq | (s & Hs & Heq)]; [lia |].
    specialize (Hfreq s Hs). lia.
Qed.

(** ** Support counting, further *)

Lemma support_count_entries_keeps entries : ∀ count (support_map : UintMap),
  let r := fold_left support_count_step entries (count, support_map) in
  (∀ k v, support_map !! k = Some v → snd r !! k = Some v)
  ∧ (∀ e, e ∈ entries → is_Some (snd r !! cg_get_id (fst e)))
  ∧ (∀ k, (∀ e, e ∈ entries → cg_get_id (fst e) ≠ k) →
          snd r !! k = support_map !! k).
Proof.
  induction entries as [| e entries IH]; intros count support_map.
  - simpl. split; [done |]. split; [| done].
    intros e He. by apply elem_of_nil in He.
  - cbv zeta. rewrite fold_left_cons.
    set (support_map' :=
           map_insert_pair (cg_get_id (fst e)) (get_support (snd e)) support_map).
    assert (∃ count', support_count_step (count, support_map) e
                      = (count', support_map')) as [count' ->].
    { unfold support_count_step. fold support_map'.
      destruct (get_support (snd e) >=? threshold); by eexists. }
    destruct (IH count' support_map') as (Hkeep & Hall & Hframe).
    assert (∀ k v, support_map !! k = Some v → support_map' !! k = Some v)
      as Hstep.
    { intros k v Hk. unfold support_map'.
      by rewrite map_insert_pair_lookup, Hk. }
    split; [| split].
    + intros k v Hk. by apply Hkeep, Hstep.
    + intros e' He'. apply elem_of_cons in He' as [-> | He']; [| by apply Hall].
      assert (is_Some (support_map' !! cg_get_id (fst e))) as [v Hv].
      { unfold support_map'. rewrite map_insert_pair_lookup.
        destruct (support_map !! cg_get_id (fst e)); [by eexists |].
        destruct (decide (cg_get_id (fst e) = cg_get_id (fst e))); [| done].
        by eexists. }
      exists v. by apply Hkeep.
    + intros k Hk. rewrite Hframe by (intros e' He'; apply Hk; by right).
      unfold support_map'. rewrite map_insert_pair_lookup.
      destruct (support_map !! k); [done |].
      destruct (decide (k = cg_get_id (fst e))) as [-> | Hne]; [| done].
      exfalso. by apply (Hk e); [left |].
Qed.

Lemma support_count_freq_entries_keeps entries : ∀ count (support_map : UintMap),
  let r := fold_left support_count_freq_step entries (count, support_map) in
  (∀ k v, support_map !! k = Some v → snd r !! k = Some v)
  ∧ (∀ e, e ∈ entries → is_Some (snd r !! cg_get_id (fst e)))
  ∧ (∀ k, (∀ e, e ∈ entries → cg_get_id (fst e) ≠ k) →
          snd r !! k = support_map !! k).
Proof.
  induction entries as [| e entries IH]; intros count support_map.
  - simpl. split; [done |]. split; [| done].
    intros e He. by apply elem_of_nil in He.
  - cbv zeta. rewrite fold_left_cons.
    set (support_map' := map_insert_pair (cg_get_id (fst e)) (snd e) support_map).
    assert (∃ count', support_count_freq_step (count, support_map) e
                      = (count', support_map')) as [count' ->].
    { unfold support_count_freq_step. fold support_map'.
      destruct (snd e >=? threshold); by eexists. }
    destruct (IH count' support_map') as (Hkeep & Hall & Hframe).
    assert (∀ k v, support_map !! k = Some v → support_map' !! k = Some v)
      as Hstep.
    { intros k v Hk. unfold support_map'.
      by rewrite map_insert_pair_lookup, Hk. }
    split; [| split].
    + intros k v Hk. by apply Hkeep, Hstep.
    + intros e' He'. apply elem_of_cons in He' as [-> | He']; [| by apply Hall].
      assert (is_Some (support_map' !! cg_get_id (fst e))) as [v Hv].
      { unfold support_map'. rewrite map_insert_pair_lookup.
        destruct (support_map !! cg_get_id (fst e)); [by eexists |].
        destruct (decide (cg_get_id (fst e) = cg_get_id (fst e))); [| done].
        by eexists. }
      exists v. by apply Hkeep.
    + intros k Hk. rewrite Hframe by (intros e' He'; apply Hk; by right).
      unfold support_map'. rewrite map_insert_pair_lookup.
      destruct (support_map !! k); [done |].
      destruct (decide (k = cg_get_id (fst e))) as [-> | Hne]; [| done].
      exfalso. by apply (Hk e); [left |].
Qed.

(** X12. Neither variant of [support_count] ever changes an entry that the
    support map already has: a support recorded earlier under an id stays,
    even when a pattern with that id now has another support. After the call
    the id of every pattern of the canonical map has an entry, and ids of no
    pattern of the map are left as they were. *)
Theorem support_count_keeps_entries (dom_map : gmap CPattern DomainSupport)
    (freq_map : gmap CPattern Z) (support_map : UintMap) :
  (∀ k v, support_map !! k = Some v →
          snd (support_count dom_map support_map) !! k = Some v
          ∧ snd (support_count_freq freq_map support_map) !! k = Some v)
  ∧ (∀ cg, is_Some (dom_map !! cg) →
           is_Some (snd (support_count dom_map support_map) !! cg_get_id cg))
  ∧ (∀ cg, is_Some (freq_map !! cg) →
           is_Some (snd (support_count_freq freq_map support_map)
                      !! cg_get_id cg))
  ∧ (∀ k, (∀ cg, is_Some (dom_map !! cg) → cg_get_id cg ≠ k) →
          snd (support_count dom_map support_map) !! k = support_map !! k)
  ∧ (∀ k, (∀ cg, is_Some (freq_map !! cg) → cg_get_id cg ≠ k) →
          snd (support_count_freq freq_map support_map) !! k
          = support_map !! k).
Proof.
  destruct (support_count_entries_keeps (map_to_list dom_map) 0 support_map)
    as (Hkeep & Hall & Hframe).
  destruct (support_count_freq_entries_keeps (map_to_list freq_map) 0 support_map)
    as (Hkeep' & Hall' & Hframe').
  split; [| split; [| split; [| split]]].
  - intros k v Hk. split; [by apply Hkeep | by apply Hkeep'].
  - intros cg [sets Hcg]. apply (Hall (cg, sets)). by apply elem_of_map_to_list.
  - intros cg [freq Hcg]. apply (Hall' (cg, freq)). by apply elem_of_map_to_list.
  - intros k Hk. apply Hframe. intros [cg sets] He.
    apply elem_of_map_to_list in He. apply Hk. by eexists.
  - intros k Hk. apply Hframe'. intros [cg freq] He.
    apply elem_of_map_to_list in He. apply Hk. by eexists.
Qed.

(** ** Frequencies of canonical patterns *)

Lemma add_frequency_lookup cg freq (m : gmap CPattern Z) c :
  0 ≤ freq < 2 ^ 32 →
  add_frequency cg freq m !! c
  = if decide (c = cg) then Some (wrap32 (default 0 (m !! cg) + freq))
    else m !! c.
Proof.
  intros Hfreq. unfold add_frequency.
  destruct (m !! cg) as [count |] eqn:Hcg;
    destruct (decide (c = cg)) as [-> | Hne]; simpl;
    rewrite ?lookup_insert_eq, ?lookup_insert_ne by done; try done.
  by rewrite wrap32_small.
Qed.

Lemma add_frequency_comm c1 f1 c2 f2 (m : gmap CPattern Z) :
  add_frequency c1 f1 (add_frequency c2 f2 m)
  = add_frequency c2 f2 (add_frequency c1 f1 m).
Proof.
  unfold add_frequency. destruct (decide (c1 = c2)) as [-> | Hne].
  - destruct (m !! c2) as [count |] eqn:Hc; rewrite !lookup_insert_eq;
      rewrite !insert_insert_eq; f_equal.
    + rewrite !wrap32_add_l. f_equal. lia.
    + f_equal. lia.
  - destruct (m !! c1) as [n1 |] eqn:H1, (m !! c2) as [n2 |] eqn:H2;
      rewrite !lookup_insert_ne, ?H1, ?H2 by done;
      by rewrite insert_insert_ne.
Qed.

(** The loop of [canonical_aggregate] returns when every quick pattern has
    more than one element, and stops on the assertion of [readGraph] when one
    has not. *)
Lemma canonical_aggregate_entries_ok entries : ∀ m : gmap CPattern Z,
  Forall (λ e, (1 < qp_get_size (fst e))%nat) entries →
  canonical_aggregate_entries entries m = Ok (add_frequencies entries m).
Proof.
  unfold canonical_aggregate_entries, add_frequencies.
  induction entries as [| e entries IH]; intros m Hbig; [done |].
  apply Forall_cons in Hbig as [He Hbig].
  rewrite foldM_cons, fold_left_cons. cbv zeta.
  rewrite (turn_canonical_graph_ok _ He), !bind_Ok. by apply IH.
Qed.

Lemma canonical_aggregate_entries_abort entries : ∀ m : gmap CPattern Z,
  Exists (λ e, (qp_get_size (fst e) ≤ 1)%nat) entries →
  canonical_aggregate_entries entries m = AssertFailed.
Proof.
  unfold canonical_aggregate_entries.
  induction entries as [| e entries IH]; intros m Hsmall.
  - by apply Exists_nil in Hsmall.
  - rewrite foldM_cons. cbv zeta.
    destruct (Nat.lt_ge_cases 1 (qp_get_size (fst e))) as [He | He].
    + rewrite (turn_canonical_graph_ok _ He), !bind_Ok. apply IH.
      apply Exists_cons in Hsmall as [Hhere | Hlater]; [lia | done].
    + by rewrite (turn_canonical_graph_abort _ false (or_introl He)).
Qed.

Lemma add_frequencies_lookup entries : ∀ (m : gmap CPattern Z) c,
  Forall (λ e, 0 ≤ snd e < 2 ^ 32) entries →
  add_frequencies entries m !! c
  = match entries_of c entries with
    | [] => m !! c
    | _ :: _ =>
        Some (wrap32 (default 0 (m !! c)
                      + total_frequency (entries_of c entries)))
    end.
Proof.
  unfold add_frequencies, entries_of.
  induction entries as [| e entries IH]; intros m c Hrange; [done |].
  apply Forall_cons in Hrange as [He Hrange].
  rewrite fold_left_cons, IH by done.
  rewrite (filter_cons _ e entries).
  rewrite (add_frequency_lookup _ _ _ _ He).
  destruct (decide (cg_pattern (canonical_form (fst e)) = c))
    as [Heq | Hne].
  - subst c.
    destruct (decide (cg_pattern (canonical_form (fst e))
                      = cg_pattern (canonical_form (fst e)))); [| done].
    simpl. destruct (base.filter _ entries) as [| e' rest]; simpl.
    + by rewrite Z.add_0_r.
    + f_equal. rewrite wrap32_add_l. f_equal. lia.
  - destruct (decide (c = cg_pattern (canonical_form (fst e))));
      [congruence | done].
Qed.

Lemma canonical_aggregate_entries_permutation entries entries'
    (m : gmap CPattern Z) :
  entries ≡ₚ entries' →
  canonical_aggregate_entries entries m = canonical_aggregate_entries entries' m.
Proof.
  intros Hperm.
  destruct (decide (Forall (λ e, (1 < qp_get_size (fst e))%nat) entries))
    as [Hbig | Hsmall].
  - rewrite !canonical_aggregate_entries_ok by (by rewrite <- ?Hperm).
    f_equal. unfold add_frequencies.
    apply fold_left_permutation; [| done].
    intros m' a b. apply add_frequency_comm.
  - apply not_Forall_Exists in Hsmall; [| intros e; apply _].
    assert (Exists (λ e, (qp_get_size (fst e) ≤ 1)%nat) entries) as Hex.
    { eapply Exists_impl; [exact Hsmall |]. intros e He. simpl in He. lia. }
    rewrite !canonical_aggregate_entries_abort; [done | by rewrite <- Hperm | done].
Qed.

(** X13. Canonical aggregation conserves the frequencies: when every quick
    pattern of the quick-pattern map has more than one element,
    [canonical_aggregate] into an empty map returns; a canonical pattern has
    an entry exactly when some quick pattern of the quick-pattern map has it
    as its canonical form, and the entry is the sum, modulo 2^32, of the
    frequencies of those quick patterns. The order in which the quick patterns
    are visited does not change the outcome. When some quick pattern of the
    map has one element or none, [canonical_aggregate] stops on the assertion
    of [readGraph]. *)
Theorem canonical_aggregate_sums_frequencies (qp_map : gmap QPattern Z) :
  map_Forall (λ _ freq, 0 ≤ freq < 2 ^ 32) qp_map →
  (map_Forall (λ qp _, (1 < qp_get_size qp)%nat) qp_map →
   ∃ cg_map : gmap CPattern Z,
     canonical_aggregate qp_map ∅ = Ok cg_map
     ∧ ∀ c, cg_map !! c
            = match entries_of c (map_to_list qp_map) with
              | [] => None
              | _ :: _ =>
                  Some (wrap32 (total_frequency
                                  (entries_of c (map_to_list qp_map))))
              end)
  ∧ (∀ entries (cg_map : gmap CPattern Z),
       entries ≡ₚ map_to_list qp_map →
       canonical_aggregate_entries entries cg_map
       = canonical_aggregate qp_map cg_map)
  ∧ (∀ qp (cg_map : gmap CPattern Z),
       is_Some (qp_map !! qp) → (qp_get_size qp ≤ 1)%nat →
       canonical_aggregate qp_map cg_map = AssertFailed).
Proof.
  intros Hrange. split; [| split].
  - intros Hbig. exists (add_frequencies (map_to_list qp_map) ∅). split.
    + unfold canonical_aggregate. apply canonical_aggregate_entries_ok.
      apply Forall_forall. intros [qp freq] He.
      apply elem_of_map_to_list in He. exact (Hbig qp freq He).
    + intros c. rewrite add_frequencies_lookup.
      * rewrite lookup_empty. simpl. by destruct (entries_of _ _).
      * apply Forall_forall. intros [qp freq] He.
        apply elem_of_map_to_list in He. exact (Hrange qp freq He).
  - intros entries cg_map Hperm. unfold canonical_aggregate.
    by apply canonical_aggregate_entries_permutation.
  - intros qp cg_map [freq Hqp] Hsize. unfold canonical_aggregate.
    apply canonical_aggregate_entries_abort. apply Exists_exists.
    exists (qp, freq). split; [by apply elem_of_map_to_list | done].
Qed.

(** ** Frequencies of quick patterns *)

Lemma quick_aggregate_freq_lookup embs : ∀ (m : gmap QPattern Z) qp,
  quick_aggregate_freq embs m !! qp
  = match occurrences qp embs with
    | O => m !! qp
    | S n => Some (wrap32 (default 0 (m !! qp) + Z.of_nat (S n)))
    end.
Proof.
  unfold quick_aggregate_freq, occurrences.
  induction embs as [| emb embs IH]; intros m qp; [done |].
  rewrite fold_left_cons, IH, (filter_cons _ emb embs).
  assert (quick_aggregate_freq_step m emb !! qp
          = if decide (quick_pattern emb = qp)
            then Some (wrap32 (default 0 (m !! qp) + 1)) else m !! qp) as ->.
  { unfold quick_aggregate_freq_step.
    destruct (decide (quick_pattern emb = qp)) as [<- | Hne].
    - destruct (m !! quick_pattern emb) as [c |] eqn:Hc; simpl;
        by rewrite lookup_insert_eq.
    - destruct (m !! quick_pattern emb) as [c |] eqn:Hc;
        by rewrite lookup_insert_ne. }
  destruct (decide (quick_pattern emb = qp)) as [Heq | Hne]; [| done].
  simpl length. destruct (length (base.filter _ embs)) as [| n]; simpl default.
  - done.
  - f_equal. rewrite wrap32_add_l. f_equal. lia.
Qed.

(** X14. After [quick_aggregate] into an empty map, a quick pattern has an
    entry exactly when some embedding of the queue has that pattern, and the
    entry is the number of those embeddings modulo 2^32 (the exact number
    below 2^32). *)
Theorem quick_aggregate_counts_occurrences (embs : list EdgeEmbedding) qp :
  quick_aggregate_freq embs ∅ !! qp
  = match occurrences qp embs with
    | O => None
    | S n => Some (wrap32 (Z.of_nat (S n)))
    end
  ∧ (Z.of_nat (occurrences qp embs) < 2 ^ 32 →
     (0 < occurrences qp embs)%nat →
     quick_aggregate_freq embs ∅ !! qp = Some (Z.of_nat (occurrences qp embs))).
Proof.
  rewrite quick_aggregate_freq_lookup, lookup_empty. split; [done |].
  intros Hlt Hpos. destruct (occurrences qp embs) as [| n]; [lia |].
  simpl default. f_equal. apply wrap32_small. lia.
Qed.

(** ** Domain sets of quick patterns *)

Lemma singleton_slots_lookup emb i :
  singleton_slots emb !! i
  = (λ e, {[vertex_id e]}) <$> elements emb !! i.
Proof. unfold singleton_slots. apply list_lookup_fmap. Qed.

Lemma absorb_slot_holds (m : gmap QPattern DomainSupport) emb qp i v :
  well_sized m →
  slot_holds (absorb m emb) qp i v
  ↔ slot_holds m qp i v ∨ (quick_pattern emb = qp ∧ vertex_at emb i = Some v).
Proof.
  intros Hwell. unfold slot_holds, absorb, vertex_at.
  destruct (decide (quick_pattern emb = qp)) as [<- | Hne].
  - rewrite lookup_insert_eq. split.
    + intros (sets & s & [= <-] & Hs & Hv).
      apply lookup_zip_with_Some in Hs as (x & y & -> & Hx & Hy).
      rewrite singleton_slots_lookup in Hy.
      destruct (elements emb !! i) as [e |] eqn:He; [| done].
      injection Hy as <-. apply elem_of_union in Hv as [Hv | Hv].
      * left. destruct (m !! quick_pattern emb) as [old |] eqn:Hold.
        -- by exists old, x.
        -- simpl in Hx. apply lookup_replicate in Hx as [-> _].
           by apply not_elem_of_empty in Hv.
      * right. split; [done |]. apply elem_of_singleton in Hv. by subst v.
    + intros [(sets & s & Hm & Hs & Hv) | [_ Hv]].
      * rewrite Hm. simpl.
        destruct (lookup_lt_is_Some_2 (singleton_slots emb) i) as [y Hy].
        { rewrite length_singleton_slots, <- (Hwell emb sets Hm).
          eapply lookup_lt_Some, Hs. }
        eexists _, (s ∪ y). split; [done |]. split.
        -- apply lookup_zip_with_Some. by exists s, y.
        -- apply elem_of_union. by left.
      * destruct (elements emb !! i) as [e |] eqn:He; [| done].
        injection Hv as <-.
        set (old := default (replicate (Edge.size emb) ∅)
                            (m !! quick_pattern emb)).
        destruct (lookup_lt_is_Some_2 old i) as [x Hx].
        { unfold old. destruct (m !! quick_pattern emb) as [sets |] eqn:Hm;
            simpl.
          - rewrite (Hwell emb sets Hm). eapply lookup_lt_Some, He.
          - rewrite length_replicate. eapply lookup_lt_Some, He. }
        eexists _, (x ∪ {[vertex_id e]}). split; [done |]. split.
        -- apply lookup_zip_with_Some. exists x, {[vertex_id e]}.
           split; [done |]. split; [done |].
           by rewrite singleton_slots_lookup, He.
        -- apply elem_of_union. right. by apply elem_of_singleton.
  - rewrite lookup_insert_ne by done. split; [by left |].
    intros [Hm | [Heq _]]; [done | congruence].
Qed.

Lemma fold_absorb_slot_holds embs : ∀ (m : gmap QPattern DomainSupport) qp i v,
  patterns_fix_size → well_sized m →
  slot_holds (fold_left absorb embs m) qp i v
  ↔ slot_holds m qp i v
    ∨ ∃ emb, emb ∈ embs ∧ quick_pattern emb = qp ∧ vertex_at emb i = Some v.
Proof.
  induction embs as [| emb embs IH]; intros m qp i v Hfix Hwell.
  - simpl. split; [by left |]. intros [Hm | (emb & Hemb & _)]; [done |].
    by apply elem_of_nil in Hemb.
  - rewrite fold_left_cons, IH by (done || by apply well_sized_absorb).
    rewrite absorb_slot_holds by done. split.
    + intros [[Hm | [Hqp Hv]] | (e & He & Hqp & Hv)].
      * by left.
      * right. exists emb. split; [by left | done].
      * right. exists e. split; [by right | done].
    + intros [Hm | (e & He & Hqp & Hv)]; [by left; left |].
      apply elem_of_cons in He as [-> | He].
      * left. by right.
      * right. by exists e.
Qed.

Lemma fold_absorb_has_entry embs : ∀ (m : gmap QPattern DomainSupport) emb,
  emb ∈ embs ∨ is_Some (m !! quick_pattern emb) →
  is_Some (fold_left absorb embs m !! quick_pattern emb).
Proof.
  induction embs as [| e embs IH]; intros m emb Hin.
  - destruct Hin as [Hin | Hm]; [by apply elem_of_nil in Hin | done].
  - rewrite fold_left_cons. apply IH.
    destruct (decide (quick_pattern e = quick_pattern emb)) as [Heq | Hne].
    + right. unfold absorb. rewrite Heq, lookup_insert_eq. by eexists.
    + destruct Hin as [Hin | Hm].
      * apply elem_of_cons in Hin as [-> | Hin]; [done | by left].
      * right. unfold absorb. by rewrite lookup_insert_ne.
Qed.

(** X15. When embeddings of one quick pattern have one size,
    [quick_aggregate] on domain maps returns; every embedding of the queue
    has an entry with as many slots as it has elements; and a vertex is in
    slot i of the entry of a quick pattern exactly when it is the vertex at
    position i of some embedding of the queue with that pattern. *)
Theorem quick_aggregate_domain_collects_positions (embs : list EdgeEmbedding) :
  patterns_fix_size →
  ∃ qp_map : gmap QPattern DomainSupport,
    quick_aggregate_domain embs ∅ = Ok qp_map
    ∧ (∀ emb, emb ∈ embs →
         ∃ sets, qp_map !! quick_pattern emb = Some sets
                 ∧ length sets = Edge.size emb)
    ∧ (∀ qp i v,
         slot_holds qp_map qp i v
         ↔ ∃ emb, emb ∈ embs ∧ quick_pattern emb = qp
                  ∧ vertex_at emb i = Some v).
Proof.
  intros Hfix. exists (fold_left absorb embs ∅).
  split; [apply quick_aggregate_domain_ok; [done | apply well_sized_empty] |].
  split.
  - intros emb Hemb.
    destruct (fold_absorb_has_entry embs ∅ emb (or_introl Hemb)) as [sets Hsets].
    exists sets. split; [done |].
    by apply (well_sized_fold embs ∅ Hfix well_sized_empty emb).
  - intros qp i v.
    rewrite fold_absorb_slot_holds by (done || apply well_sized_empty).
    split; [| by right]. intros [(sets & s & Hm & _) | Hemb]; [| done].
    by rewrite lookup_empty in Hm.
Qed.

(** ** Clique aggregation *)

Lemma key_occurrences_cons k emb embs :
  key_occurrences k (emb :: embs)
  = if decide (base_key emb = k) then S (key_occurrences k embs)
    else key_occurrences k embs.
Proof.
  unfold key_occurrences. rewrite filter_cons.
  by destruct (decide (base_key emb = k)).
Qed.

Lemma key_occurrences_snoc k embs emb :
  key_occurrences k (embs ++ [emb])
  = if decide (base_key emb = k) then S (key_occurrences k embs)
    else key_occurrences k embs.
Proof.
  unfold key_occurrences. rewrite filter_app, length_app, filter_cons, filter_nil.
  destruct (decide (base_key emb = k)); simpl; lia.
Qed.

(** An embedding found under another key leaves the entry of [k] and the
    embeddings emitted for [k] as they are. *)
Lemma aggregate_clique_each_other k emb (sm : gmap EmbKey Z) out :
  base_key emb ≠ k →
  fst (aggregate_clique_each emb sm out) !! k = sm !! k
  ∧ key_occurrences k (snd (aggregate_clique_each emb sm out))
    = key_occurrences k out.
Proof.
  intros Hne. unfold aggregate_clique_each.
  destruct (sm !! base_key emb) as [count |] eqn:Hc.
  - destruct (count =? _); simpl.
    + rewrite lookup_delete_ne by done. split; [done |].
      rewrite key_occurrences_snoc. by destruct (decide (base_key emb = k)).
    + by rewrite lookup_insert_ne.
  - simpl. by rewrite lookup_insert_ne.
Qed.

(** The count kept for a key of size 3 or more runs through 1 .. size - 2
    and then starts again, with one embedding emitted per round. *)
Lemma aggregate_clique_rounds k :
  3 ≤ Z.of_nat (key_size k) < 2 ^ 32 →
  ∀ embs (sm : gmap EmbKey Z) out c0,
    0 ≤ c0 < Z.of_nat (key_size k) - 1 →
    sm !! k = (if decide (c0 = 0) then None else Some c0) →
    ∃ q c,
      c0 + Z.of_nat (key_occurrences k embs)
      = (Z.of_nat (key_size k) - 1) * q + c
      ∧ 0 ≤ c < Z.of_nat (key_size k) - 1
      ∧ fst (fold_left (λ st emb, aggregate_clique_each emb (fst st) (snd st))
                       embs (sm, out)) !! k
        = (if decide (c = 0) then None else Some c)
      ∧ Z.of_nat (key_occurrences k
           (snd (fold_left (λ st emb, aggregate_clique_each emb (fst st) (snd st))
                           embs (sm, out))))
        = Z.of_nat (key_occurrences k out) + q.
Proof.
  intros Hsize. induction embs as [| emb embs IH]; intros sm out c0 Hc0 Hsm.
  - exists 0, c0. unfold key_occurrences at 1. rewrite filter_nil. simpl.
    split; [lia |]. split; [done |]. split; [done | lia].
  - rewrite fold_left_cons, key_occurrences_cons. simpl fst. simpl snd.
    destruct (decide (base_key emb = k)) as [Hk | Hk].
    + destruct (decide (c0 = 0)) as [Hzero | Hpos].
      * assert (aggregate_clique_each emb sm out = (<[k := 1]> sm, out)) as ->.
        { unfold aggregate_clique_each. by rewrite Hk, Hsm. }
        destruct (IH (<[k := 1]> sm) out 1 ltac:(lia)) as (q & c & Heq & Hc & Hfin).
        { rewrite lookup_insert_eq. by destruct (decide (1 = 0)). }
        exists q, c. split; [lia | by split].
      * destruct (Z.eqb_spec c0 (Z.of_nat (key_size k) - 2)) as [Hlast | Hmore].
        -- assert (aggregate_clique_each emb sm out
                   = (delete k sm, out ++ [emb])) as ->.
           { unfold aggregate_clique_each. rewrite Hk, Hsm.
             rewrite (wrap32_small (Z.of_nat (key_size k) - 2)) by lia.
             by destruct (Z.eqb_spec c0 (Z.of_nat (key_size k) - 2)). }
           destruct (IH (delete k sm) (out ++ [emb]) 0 ltac:(lia))
             as (q & c & Heq & Hc & Hsm' & Hout).
           { rewrite lookup_delete_eq. by destruct (decide (0 = 0)). }
           exists (q + 1), c. split; [lia |]. split; [done |].
           split; [done |]. rewrite Hout, key_occurrences_snoc.
           destruct (decide (base_key emb = k)); [lia | done].
        -- assert (aggregate_clique_each emb sm out
                   = (<[k := c0 + 1]> sm, out)) as ->.
           { unfold aggregate_clique_each. rewrite Hk, Hsm.
             rewrite (wrap32_small (Z.of_nat (key_size k) - 2)) by lia.
             rewrite (wrap32_small (c0 + 1)) by lia.
             by destruct (Z.eqb_spec c0 (Z.of_nat (key_size k) - 2)). }
           destruct (IH (<[k := c0 + 1]> sm) out (c0 + 1) ltac:(lia))
             as (q & c & Heq & Hc & Hfin).
           { rewrite lookup_insert_eq. destruct (decide (c0 + 1 = 0)); [lia | done]. }
           exists q, c. split; [lia | by split].
    + destruct (aggregate_clique_each_other k emb sm out Hk) as [Hsm' Hout'].
      destruct (aggregate_clique_each emb sm out) as [sm1 out1].
      simpl in Hsm', Hout'.
      destruct (IH sm1 out1 c0 Hc0) as (q & c & Heq & Hc & Hfin & Hout).
      { by rewrite Hsm'. }
      exists q, c. split; [done |]. split; [done |].
      split; [done |]. by rewrite Hout, Hout'.
Qed.

(** A key of size 2 is counted and never emitted. *)
Lemma aggregate_clique_pairs k :
  key_size k = 2%nat →
  ∀ embs (sm : gmap EmbKey Z) out c0,
    0 ≤ c0 → c0 + Z.of_nat (key_occurrences k embs) < 2 ^ 32 →
    sm !! k = (if decide (c0 = 0) then None else Some c0) →
    key_occurrences k
      (snd (fold_left (λ st emb, aggregate_clique_each emb (fst st) (snd st))
                      embs (sm, out)))
    = key_occurrences k out.
Proof.
  intros Hsize. induction embs as [| emb embs IH]; intros sm out c0 Hc0 Hlt Hsm;
    [done |].
  rewrite fold_left_cons. rewrite key_occurrences_cons in Hlt. simpl fst. simpl snd.
  destruct (decide (base_key emb = k)) as [Hk | Hk].
  - destruct (decide (c0 = 0)) as [Hzero | Hpos].
    + assert (aggregate_clique_each emb sm out = (<[k := 1]> sm, out)) as ->.
      { unfold aggregate_clique_each. by rewrite Hk, Hsm. }
      apply (IH _ _ 1); [lia | lia |].
      rewrite lookup_insert_eq. by destruct (decide (1 = 0)).
    + assert (aggregate_clique_each emb sm out = (<[k := c0 + 1]> sm, out)) as ->.
      { unfold aggregate_clique_each. rewrite Hk, Hsm, Hsize.
        change (wrap32 (Z.of_nat 2 - 2)) with 0.
        rewrite (wrap32_small (c0 + 1)) by lia.
        by destruct (Z.eqb_spec c0 0). }
      apply (IH _ _ (c0 + 1)); [lia | lia |].
      rewrite lookup_insert_eq. destruct (decide (c0 + 1 = 0)); [lia | done].
  - destruct (aggregate_clique_each_other k emb sm out Hk) as [Hsm' Hout'].
    destruct (aggregate_clique_each emb sm out) as [sm1 out1].
    simpl in Hsm', Hout'. rewrite <- Hout'.
    apply (IH _ _ c0); [done | done | by rewrite Hsm'].
Qed.

(** X16. [aggregate_clique] emits an embedding once for every size - 1
    occurrences of its key: for a key of size s with 3 <= s < 2^32, the number
    of embeddings of that key added to the output queue is the number of its
    occurrences in the input queue divided by s - 1 (rounded down), whatever
    the other embeddings of the queue. An embedding of size 2 is never
    emitted (while its key occurs fewer than 2^32 times). *)
Theorem aggregate_clique_emits_per_round k (in_queue out_queue : list BaseEmbedding) :
  (3 ≤ Z.of_nat (key_size k) < 2 ^ 32 →
   Z.of_nat (key_occurrences k (aggregate_clique in_queue out_queue))
   = Z.of_nat (key_occurrences k out_queue)
     + Z.of_nat (key_occurrences k in_queue) / (Z.of_nat (key_size k) - 1))
  ∧ (key_size k = 2%nat → Z.of_nat (key_occurrences k in_queue) < 2 ^ 32 →
     key_occurrences k (aggregate_clique in_queue out_queue)
     = key_occurrences k out_queue).
Proof.
  split.
  - intros Hsize. unfold aggregate_clique.
    destruct (aggregate_clique_rounds k Hsize in_queue ∅ out_queue 0 ltac:(lia))
      as (q & c & Heq & Hc & _ & Hout).
    { rewrite lookup_empty. by destruct (decide (0 = 0)). }
    rewrite Hout. f_equal.
    apply (Z.div_unique_pos _ _ q c); [done | lia].
  - intros Hsize Hlt. unfold aggregate_clique.
    apply (aggregate_clique_pairs k Hsize in_queue ∅ out_queue 0); [lia | lia |].
    rewrite lookup_empty. by destruct (decide (0 = 0)).
Qed.

(** ** From canonical aggregation to filtering *)


(** ** Filtering on a canonical map *)




(** ** Canonical ids recorded with the frequencies *)

Lemma add_frequency_is_Some cg freq (m : gmap CPattern Z) c :
  is_Some (add_frequency cg freq m !! c) ↔ c = cg ∨ is_Some (m !! c).
Proof.
  unfold add_frequency.
  destruct (m !! cg) as [count |] eqn:Hcg;
    (destruct (decide (c = cg)) as [-> | Hne];
     [rewrite lookup_insert_eq | rewrite lookup_insert_ne by done]);
    split; eauto; intros [| Hc]; try done; by eexists.
Qed.

Lemma add_frequencies_is_Some entries :
  ∀ (m : gmap CPattern Z) c,
    is_Some (add_frequencies entries m !! c)
    ↔ is_Some (m !! c)
      ∨ ∃ e, e ∈ entries ∧ cg_pattern (canonical_form (fst e)) = c.
Proof.
  unfold add_frequencies.
  induction entries as [| e entries IH]; intros m c.
  - simpl. split; [by left |]. intros [| (e & He & _)]; [done |].
    by apply elem_of_nil in He.
  - rewrite fold_left_cons, IH. rewrite add_frequency_is_Some.
    split.
    + intros [[-> | Hm] | (e' & He' & Hc)].
      * right. exists e. split; [by left | done].
      * by left.
      * right. exists e'. split; [by right | done].
    + intros [Hm | (e' & He' & Hc)]; [left; by right |].
      apply elem_of_cons in He' as [-> | He'].
      * left. by left.
      * right. by exists e'.
Qed.

Lemma canonical_aggregate_each_freq_ids_fold entries :
  ∀ (cg_map : gmap CPattern Z) (id_map : UintMap),
    Forall (λ e, (1 < qp_get_size (fst e))%nat) entries →
    foldM (λ st e, canonical_aggregate_each_freq_ids
                     (fst e) (snd e) (fst st) (snd st))
          entries (cg_map, id_map)
    = Ok (add_frequencies entries cg_map,
          fold_left (λ ids e,
                       map_insert_pair
                         (qp_get_id (fst e))
                         (cg_get_id (cg_pattern (canonical_form (fst e))))
                         ids)
                    entries id_map).
Proof.
  unfold add_frequencies.
  induction entries as [| e entries IH]; intros cg_map id_map Hbig; [done |].
  apply Forall_cons in Hbig as [He Hbig].
  assert (canonical_aggregate_each_freq_ids (fst e) (snd e) cg_map id_map
          = Ok (add_frequency (cg_pattern (canonical_form (fst e))) (snd e)
                  cg_map,
                map_insert_pair (qp_get_id (fst e))
                  (cg_get_id (cg_pattern (canonical_form (fst e)))) id_map))
    as Hstep.
  { unfold canonical_aggregate_each_freq_ids.
    by rewrite (turn_canonical_graph_ok _ He). }
  rewrite foldM_cons, !fold_left_cons. simpl fst. simpl snd.
  rewrite Hstep, bind_Ok. by apply IH.
Qed.

Lemma canonical_aggregate_each_freq_fold entries :
  ∀ cg_map : gmap CPattern Z,
    foldM (λ m e, canonical_aggregate_each_freq (fst e) (snd e) m)
          entries cg_map
    = canonical_aggregate_entries entries cg_map.
Proof. done. Qed.

Lemma recorded_ids_lookup entries : ∀ (id_map : UintMap) k,
  fold_left (λ ids (e : QPattern * Z),
               map_insert_pair
                 (qp_get_id (fst e))
                 (cg_get_id (cg_pattern (canonical_form (fst e))))
                 ids)
            entries id_map !! k
  = match id_map !! k with
    | Some v => Some v
    | None =>
        (λ e, cg_get_id (cg_pattern (canonical_form (fst e))))
        <$> head (base.filter (λ e, qp_get_id (fst e) = k) entries)
    end.
Proof.
  induction entries as [| e entries IH]; intros id_map k.
  - simpl. by destruct (id_map !! k).
  - rewrite fold_left_cons, IH, map_insert_pair_lookup, (filter_cons _ e entries).
    destruct (id_map !! k) as [v |]; [done |].
    destruct (decide (k = qp_get_id (fst e))) as [-> | Hne].
    + by destruct (decide (qp_get_id (fst e) = qp_get_id (fst e))).
    + by destruct (decide (qp_get_id (fst e) = k)); [congruence |].
Qed.

(** X19. Applying [canonical_aggregate_each], in its form that also fills
    the id map, to a sequence of quick patterns of more than one element with
    their frequencies returns, with the frequency map of the loop of
    [canonical_aggregate], which is also what the form without id map gives.
    The id map keeps every entry it had; a quick-pattern id without entry
    receives the canonical id of the first quick pattern of the sequence
    carrying that id, later ones are not recorded; and when every canonical
    id of the id map was the id of a pattern of the frequency map before, the
    same holds afterwards. Both forms stop on the assertion of [readGraph] at
    a quick pattern of one element or none. *)
Theorem canonical_aggregate_each_records_first_id
    (entries : list (QPattern * Z)) (cg_map : gmap CPattern Z)
    (id_map : UintMap) :
  (Forall (λ e, (1 < qp_get_size (fst e))%nat) entries →
   ∃ (cg_map' : gmap CPattern Z) (id_map' : UintMap),
     foldM (λ st e, canonical_aggregate_each_freq_ids
                      (fst e) (snd e) (fst st) (snd st))
           entries (cg_map, id_map)
     = Ok (cg_map', id_map')
     ∧ canonical_aggregate_entries entries cg_map = Ok cg_map'
     ∧ foldM (λ m e, canonical_aggregate_each_freq (fst e) (snd e) m)
             entries cg_map
       = Ok cg_map'
     ∧ (∀ k, id_map' !! k
             = match id_map !! k with
               | Some v => Some v
               | None =>
                   (λ e, cg_get_id (cg_pattern (canonical_form (fst e))))
                   <$> head (base.filter (λ e, qp_get_id (fst e) = k) entries)
               end)
     ∧ ((∀ k v, id_map !! k = Some v →
                ∃ cg, is_Some (cg_map !! cg) ∧ cg_get_id cg = v) →
        ∀ k v, id_map' !! k = Some v →
               ∃ cg, is_Some (cg_map' !! cg) ∧ cg_get_id cg = v))
  ∧ (∀ qp freq,
       (qp_get_size qp ≤ 1)%nat →
       canonical_aggregate_each_freq_ids qp freq cg_map id_map = AssertFailed
       ∧ canonical_aggregate_each_freq qp freq cg_map = AssertFailed).
Proof.
  split.
  2:{ intros qp freq Hsize.
      unfold canonical_aggregate_each_freq_ids, canonical_aggregate_each_freq.
      by rewrite (turn_canonical_graph_abort _ false (or_introl Hsize)). }
  intros Hbig. eexists _, _.
  split; [by apply canonical_aggregate_each_freq_ids_fold |].
  split; [by apply canonical_aggregate_entries_ok |].
  split; [rewrite canonical_aggregate_each_freq_fold;
          by apply canonical_aggregate_entries_ok |].
  split; [apply recorded_ids_lookup |].
  intros Hres k v. rewrite recorded_ids_lookup.
  destruct (id_map !! k) as [old |] eqn:Hold.
  - intros [= <-]. destruct (Hres k old Hold) as (cg & Hcg & Hid).
    exists cg. split; [| done].
    apply add_frequencies_is_Some. by left.
  - destruct (head _) as [e |] eqn:Hhead; [| done]. intros [= <-].
    exists (cg_pattern (canonical_form (fst e))). split; [| done].
    apply add_frequencies_is_Some. right. exists e.
    split; [| done].
    apply head_Some_elem_of in Hhead.
    by apply list_elem_of_filter in Hhead as [_ Hin].
Qed.

End Patterns.

(** * Facts about extension and the automorphism filters *)

(** ** [is_automorphism] *)

Lemma normalize_swap p : normalize (swap p) = normalize p.
Proof.
  destruct p as [a b]. unfold swap, normalize. simpl.
  destruct (Z.gtb_spec a b); simpl; f_equal; lia.
Qed.

Lemma swap_normalize p : swap p = normalize p.
Proof.
  destruct p as [a b]. unfold swap, normalize. simpl.
  destruct (Z.gtb_spec a b); simpl; f_equal; lia.
Qed.

Lemma swap_swap p : swap (swap p) = swap p.
Proof.
  destruct p as [a b]. unfold swap. simpl.
  destruct (Z.gtb_spec a b) as [Hgt | Hle]; simpl.
  - destruct (Z.gtb_spec b a); [lia | done].
  - destruct (Z.gtb_spec a b); [lia | done].
Qed.

Lemma compare_swap_l a e : compare (swap a) e = compare a e.
Proof. unfold compare. by rewrite swap_swap. Qed.

Lemma compare_leq a e :
  0 ≤ fst a < 2 ^ 31 → 0 ≤ snd a < 2 ^ 31 →
  0 ≤ fst e < 2 ^ 31 → 0 ≤ snd e < 2 ^ 31 →
  compare a e = (fst (fst (compare a e)), swap a, swap e)
  ∧ (fst (fst (compare a e)) ≤ 0 ↔ edge_leq a e).
Proof.
  intros Ha1 Ha2 He1 He2. unfold compare, edge_leq.
  rewrite !swap_normalize.
  destruct a as [a1 a2], e as [e1 e2]; unfold normalize; simpl in *.
  destruct (Z.eqb_spec (Z.min a1 a2) (Z.min e1 e2)) as [Heq | Hne]; simpl;
    (split; [done |]); rewrite to_int_small by lia; lia.
Qed.

Lemma history_lookup emb i e :
  histories_inside emb → elements emb !! i = Some e →
  ∃ f, elements emb !! history_info e = Some f.
Proof.
  intros Hwf Hl. unfold histories_inside in Hwf.
  rewrite Forall_forall in Hwf.
  apply lookup_lt_is_Some_2, Hwf. eapply list_elem_of_lookup_2, Hl.
Qed.

Lemma getEdge_ok emb idx e :
  edge_at emb idx = Some e → fst e ≠ snd e → getEdge emb idx = Ok e.
Proof.
  unfold edge_at, getEdge. intros Hedge Hne.
  destruct (elements emb !! idx) as [x |] eqn:Hx; [| done].
  destruct (elements emb !! history_info x) as [f |] eqn:Hf; [| done].
  injection Hedge as <-. simpl in Hne.
  rewrite (get_history_lookup _ _ _ Hx). simpl.
  rewrite (get_vertex_lookup _ _ _ Hf). simpl.
  rewrite (get_vertex_lookup _ _ _ Hx). simpl.
  destruct (Z.eqb_spec (vertex_id f) (vertex_id x)); [done | reflexivity].
Qed.

Lemma edge_at_inside emb idx :
  histories_inside emb → (idx < Edge.size emb)%nat → is_Some (edge_at emb idx).
Proof.
  intros Hwf Hlt. unfold edge_at.
  destruct (lookup_lt_is_Some_2 (elements emb) idx Hlt) as [x Hx].
  rewrite Hx. destruct (history_lookup _ _ _ Hwf Hx) as [f Hf].
  rewrite Hf. by eexists.
Qed.

Lemma edge_at_below bound emb idx e :
  ids_below bound emb → edge_at emb idx = Some e →
  0 ≤ fst e < bound ∧ 0 ≤ snd e < bound.
Proof.
  unfold ids_below, edge_at. rewrite Forall_forall. intros Hsmall Hedge.
  destruct (elements emb !! idx) as [x |] eqn:Hx; [| done].
  destruct (elements emb !! history_info x) as [f |] eqn:Hf; [| done].
  injection Hedge as <-. simpl.
  split; apply Hsmall; eapply list_elem_of_lookup_2; eauto.
Qed.

Lemma swap_below bound a :
  0 ≤ fst a < bound → 0 ≤ snd a < bound →
  0 ≤ fst (swap a) < bound ∧ 0 ≤ snd (swap a) < bound.
Proof.
  destruct a as [x y]. unfold swap. simpl.
  destruct (x >? y); simpl; lia.
Qed.

Lemma edge_leq_swap_l a e : edge_leq (swap a) e ↔ edge_leq a e.
Proof. unfold edge_leq. by rewrite normalize_swap. Qed.

(** The loop over the later edges answers whether the candidate is
    less-or-equal to one of them. *)
Lemma is_automorphism_loop_spec emb history todo : ∀ a idx,
  histories_inside emb → ids_below (2 ^ 31) emb →
  no_self_edge_after emb history →
  (history < idx)%nat → (idx + todo = Edge.size emb)%nat →
  0 ≤ fst a < 2 ^ 31 → 0 ≤ snd a < 2 ^ 31 →
  ∃ b, is_automorphism_loop emb a idx todo = Ok b
       ∧ (b = true ↔ ∃ i e, (idx ≤ i)%nat ∧ edge_at emb i = Some e
                             ∧ edge_leq a e).
Proof.
  induction todo as [| todo IH]; intros a idx Hwf Hsmall Hloop Hidx Hsize Ha1 Ha2.
  - exists false. split; [done |]. split; [done |].
    intros (i & e & Hi & He & _). exfalso.
    assert (is_Some (elements emb !! i)) as Hin.
    { unfold edge_at in He. destruct (elements emb !! i); [by eexists | done]. }
    apply lookup_lt_is_Some_1 in Hin. unfold Edge.size in Hsize. lia.
  - destruct (edge_at_inside emb idx Hwf ltac:(lia)) as [e He].
    destruct (edge_at_below _ _ _ _ Hsmall He) as [He1 He2].
    destruct (compare_leq a e Ha1 Ha2 He1 He2) as [Hcmp Hleq].
    simpl. rewrite (getEdge_ok _ _ _ He (Hloop _ _ Hidx He)). simpl.
    rewrite Hcmp. destruct (Z.leb_spec (fst (fst (compare a e))) 0) as [Hle | Hgt].
    + exists true. split; [done |]. split; [| done]. intros _.
      exists idx, e. split; [lia |]. split; [done |]. by apply Hleq.
    + destruct (swap_below _ _ Ha1 Ha2) as [Hs1 Hs2].
      destruct (IH (swap a) (S idx) Hwf Hsmall Hloop ltac:(lia) ltac:(lia) Hs1 Hs2)
        as (b & Hrun & Hb).
      exists b. split; [done |]. rewrite Hb. split.
      * intros (i & e' & Hi & He' & Hleq'). exists i, e'.
        split; [lia |]. split; [done |]. by apply edge_leq_swap_l.
      * intros (i & e' & Hi & He' & Hleq').
        destruct (decide (i = idx)) as [-> | Hne].
        -- rewrite He in He'. injection He' as <-. apply Hleq in Hleq'. lia.
        -- exists i, e'. split; [lia |]. split; [done |]. by apply edge_leq_swap_l.
Qed.

Lemma collect_vertices_from emb : ∀ todo i (vs : gset VertexId),
  (i + todo = Edge.size emb)%nat →
  foldM (λ (vs : gset VertexId) i, v ← Edge.get_vertex emb i; Ok ({[v]} ∪ vs))
        (seq i todo) vs
  = Ok (list_to_set (map vertex_id (drop i (elements emb))) ∪ vs).
Proof.
  induction todo as [| todo IH]; intros i vs Hsize.
  - simpl. rewrite drop_ge by (unfold Edge.size in Hsize; lia).
    simpl. f_equal. set_solver.
  - simpl. destruct (lookup_lt_is_Some_2 (elements emb) i) as [x Hx].
    { unfold Edge.size in Hsize. lia. }
    rewrite (get_vertex_lookup _ _ _ Hx). simpl.
    rewrite IH by lia. rewrite (drop_S _ _ _ Hx). simpl. f_equal. set_solver.
Qed.

Lemma collect_vertices_spec emb vertices_set dst :
  collect_vertices emb = Ok vertices_set →
  dst ∈ vertices_set ↔ vertex_in emb dst.
Proof.
  unfold collect_vertices, vertex_in.
  rewrite (collect_vertices_from emb (Edge.size emb) 0 ∅) by lia.
  intros [= <-]. rewrite drop_0. set_solver.
Qed.

(** C1 (amended). On an embedding whose history indices are inside it, whose
    later edges are not self-edges and whose ids are below 2^31,
    [is_automorphism], called as [extend_edge] calls it, returns, and returns
    true exactly when: dst is below the first vertex; or dst is the vertex the
    extension point was itself extended from; or dst is already in the
    embedding and src > dst; or the candidate edge is less-or-equal to some
    edge at an index after the extension point, in the lexicographic order on
    (min endpoint, max endpoint). *)
Theorem is_automorphism_rejects emb history src dst vertices_set :
  histories_inside emb → ids_below (2 ^ 31) emb →
  no_self_edge_after emb history →
  vertex_at emb history = Some src → 0 ≤ dst < 2 ^ 31 →
  collect_vertices emb = Ok vertices_set →
  ∃ b, is_automorphism emb history src dst (bool_decide (dst ∈ vertices_set))
       = Ok b
       ∧ (b = true ↔ rejects emb history src dst).
Proof.
  intros Hwf Hsmall Hloop Hsrc Hdst Hvs.
  unfold vertex_at in Hsrc.
  destruct (elements emb !! history) as [x |] eqn:Hx; [| done].
  injection Hsrc as <-.
  assert (history < Edge.size emb)%nat as Hlt.
  { eapply lookup_lt_Some, Hx. }
  destruct (lookup_lt_is_Some_2 (elements emb) 0) as [x0 Hx0].
  { unfold Edge.size in Hlt. lia. }
  destruct (history_lookup _ _ _ Hwf Hx) as [f Hf].
  assert (0 ≤ vertex_id x < 2 ^ 31) as Hxs.
  { unfold ids_below in Hsmall. rewrite Forall_forall in Hsmall.
    eapply Hsmall, list_elem_of_lookup_2, Hx. }
  unfold is_automorphism, rejects, reject_rule, vertex_at, history_at.
  rewrite (get_vertex_lookup _ _ _ Hx0), Hx0, Hx. simpl.
  destruct (Z.ltb_spec dst (vertex_id x0)) as [Hlt0 | Hge0].
  { exists true. split; [done |]. split; [| done]. intros _. left. eauto. }
  rewrite (get_history_lookup _ _ _ Hx). simpl.
  rewrite (get_vertex_lookup _ _ _ Hf). simpl.
  destruct (Z.eqb_spec dst (vertex_id f)) as [Heq | Hne].
  { exists true. split; [done |]. split; [| done]. intros _.
    right; left. exists (history_info x), (vertex_id f). by rewrite Hf. }
  pose proof (collect_vertices_spec emb vertices_set dst Hvs) as Hin.
  destruct (bool_decide_reflect (dst ∈ vertices_set)) as [Hex | Hnex];
    destruct (Z.gtb_spec (vertex_id x) dst) as [Hgt | Hle]; simpl.
  { exists true. split; [done |]. split; [| done]. intros _.
    right; right; left. split; [by apply Hin | lia]. }
  all: destruct (is_automorphism_loop_spec emb history
           (Edge.size emb - (history + 1)) (vertex_id x, dst) (history + 1)%nat
           Hwf Hsmall Hloop ltac:(lia) ltac:(lia) Hxs Hdst) as (b & Hrun & Hb);
    exists b; (split; [done |]); rewrite Hb; split.
  all: try (intros (i & e & Hi & He & Hleq); right; right; right;
            exists i, e; split; [lia | done]).
  all: intros [(v0 & [= <-] & Hv0) | [(h & vh & [= <-] & Hvh & ->)
                | [[Hex' Hgt'] | (i & e & Hi & He & Hleq)]]];
    try lia; try (rewrite Hf in Hvh; simpl in Hvh; congruence);
    try (apply Hin in Hex'; done);
    try (exists i, e; split; [lia | done]).
Qed.

(** C1, counterexample. With the embedding holding the edge 1-3, extension
    point 0 (src = 1) and the new vertex dst = 2, the code rejects, although
    none of the four conditions as the claim words them holds: the later edge
    (1,3) is not less-or-equal to the candidate (1,2). *)
Lemma is_automorphism_as_stated_fails :
  is_automorphism emb_13 0 1 2 false = Ok true
  ∧ ¬ vertex_in emb_13 2
  ∧ ¬ rejects_as_stated emb_13 0 1 2.
Proof.
  split; [reflexivity |].
  assert (¬ vertex_in emb_13 2) as Hnotin.
  { unfold vertex_in. simpl. rewrite !elem_of_cons. intros [? | [? | Hnil]];
      [lia | lia | by apply elem_of_nil in Hnil]. }
  split; [done |].
  intros [(v0 & [= <-] & Hv0) | [(h & vh & [= <-] & [= <-] & Heq)
         | [[Hin _] | (i & e & Hi & He & Hleq)]]]; try lia; try done.
  destruct i as [| [| i]]; [lia | | done].
  injection He as <-. unfold edge_leq, normalize in Hleq. simpl in Hleq. lia.
Qed.

Lemma is_automorphism_rejects_witness :
  ∃ b, is_automorphism emb_13 0 1 2 false = Ok b
       ∧ (b = true ↔ rejects emb_13 0 1 2).
Proof.
  refine (is_automorphism_rejects emb_13 0%nat 1 2 (list_to_set [3; 1])
            _ _ _ _ _ _).
  - unfold histories_inside, emb_13, Edge.size. simpl.
    repeat (apply List.Forall_cons; [simpl; lia |]). apply List.Forall_nil.
  - unfold ids_below. simpl.
    repeat (apply List.Forall_cons; [simpl; lia |]). apply List.Forall_nil.
  - intros i e Hi He. destruct i as [| [| i]]; [lia | | done].
    injection He as <-. simpl. lia.
  - reflexivity.
  - lia.
  - vm_compute. reflexivity.
Defined.

(** ** [is_vertexInduced_automorphism] *)

Lemma find_vertex_loop_found emb dst : ∀ todo i,
  (i + todo = length emb)%nat → dst ∈ drop i emb →
  find_vertex_loop emb dst i todo = Ok true.
Proof.
  induction todo as [| todo IH]; intros i Hlen Hin.
  - rewrite drop_ge in Hin by lia. by apply elem_of_nil in Hin.
  - destruct (lookup_lt_is_Some_2 emb i ltac:(lia)) as [vi Hvi].
    simpl. unfold Vert.get_vertex. rewrite (index_lookup _ _ _ Hvi). simpl.
    destruct (Z.eqb_spec dst vi) as [Heq | Hne]; [done |].
    apply IH; [lia |]. rewrite (drop_S _ _ _ Hvi) in Hin.
    apply elem_of_cons in Hin as [Heq | Hin]; [done | exact Hin].
Qed.

(** C8. [is_vertexInduced_automorphism] returns true whenever dst is at most
    the first vertex of the embedding, or dst occurs in the embedding. *)
Theorem is_vertexInduced_automorphism_rejects g emb idx src dst :
  (∃ v0, emb !! 0%nat = Some v0 ∧ dst ≤ v0) ∨ dst ∈ emb →
  is_vertexInduced_automorphism g emb idx src dst = Ok true.
Proof.
  intros Hcase. destruct emb as [| v0 rest].
  { destruct Hcase as [(v0 & Hv0 & _) | Hin]; [done | by apply elem_of_nil in Hin]. }
  unfold is_vertexInduced_automorphism, Vert.get_vertex, index. simpl.
  destruct (Z.leb_spec dst v0) as [Hle | Hgt]; [done |].
  assert (dst ∈ rest) as Hin.
  { destruct Hcase as [(v & [= <-] & Hle) | Hin]; [lia |].
    apply elem_of_cons in Hin as [-> | Hin]; [lia | done]. }
  rewrite (find_vertex_loop_found (v0 :: rest) dst (Vert.size rest - 0) 1);
    [done | unfold Vert.size; simpl; lia | done].
Qed.

Lemma is_vertexInduced_automorphism_rejects_witness :
  is_vertexInduced_automorphism triangle [0; 1] 1 1 0 = Ok true
  ∧ is_vertexInduced_automorphism triangle [0; 2] 0 0 2 = Ok true.
Proof.
  split.
  - apply is_vertexInduced_automorphism_rejects. left. exists 0.
    split; [reflexivity | lia].
  - apply is_vertexInduced_automorphism_rejects. right.
    apply elem_of_cons. right. apply elem_of_cons. left. reflexivity.
Defined.

(** ** Clique extension *)

Lemma scan_for_spec w l : scan_for w l = true ↔ w ∈ l.
Proof.
  induction l as [| d l IH]; simpl.
  - split; [done | intros Hin; by apply elem_of_nil in Hin].
  - rewrite elem_of_cons. destruct (Z.eqb_spec d w) as [-> | Hne].
    + split; [by left | done].
    + rewrite IH. split; [by right | intros [-> | Hin]; done].
Qed.

Lemma is_connected_spec g from to :
  undirected g → is_connected g from to = true ↔ connected g from to.
Proof.
  intros Hsym. unfold is_connected.
  destruct (degrees g from <? degrees g to); rewrite scan_for_spec.
  - done.
  - symmetry. apply Hsym.
Qed.

Lemma forallb_connected g dst l :
  undirected g →
  forallb (λ v, is_connected g v dst) l = true ↔ Forall (λ v, connected g v dst) l.
Proof.
  intros Hsym. induction l as [| v l IH]; simpl.
  - split; [constructor | done].
  - rewrite andb_true_iff, IH, (is_connected_spec _ _ _ Hsym). split.
    + intros [Hv Hl]. by constructor.
    + intros Hall. by inversion Hall.
Qed.

Lemma is_all_connected_loop_spec g dst emb : ∀ todo i,
  (i + todo ≤ length emb)%nat →
  is_all_connected_loop g dst emb i todo
  = Ok (forallb (λ v, is_connected g v dst) (take todo (drop i emb))).
Proof.
  induction todo as [| todo IH]; intros i Hlen; [done |].
  destruct (lookup_lt_is_Some_2 emb i ltac:(lia)) as [vi Hvi].
  simpl. unfold Vert.get_vertex. rewrite (index_lookup _ _ _ Hvi). simpl.
  rewrite (drop_S _ _ _ Hvi). simpl.
  destruct (is_connected g vi dst); simpl; [apply IH; lia | done].
Qed.

Lemma is_all_connected_spec g dst init last :
  is_all_connected g dst (init ++ [last])
  = Ok (forallb (λ v, is_connected g v dst) init).
Proof.
  unfold is_all_connected, Vert.size. rewrite length_app. simpl.
  replace (length init + 1)%nat with (S (length init)) by lia.
  rewrite is_all_connected_loop_spec by (rewrite length_app; simpl; lia).
  rewrite drop_0. by rewrite take_app_length.
Qed.

Lemma pop_back_push_back (emb : list VertexId) v :
  Vert.pop_back (Vert.push_back emb v) = emb.
Proof. unfold Vert.pop_back, Vert.push_back. apply removelast_last. Qed.

Lemma clique_candidate_step g init last need_update queue num dst :
  undirected g → dst ∈ edges g last →
  extend_vertex_clique_candidate g last need_update
    (init ++ [last], queue, num) dst
  = Ok (init ++ [last],
        queue ++ (if need_update
                  then map (Vert.push_back (init ++ [last]))
                         (base.filter (clique_candidate g (init ++ [last]) last) [dst])
                  else []),
        if decide (clique_candidate g (init ++ [last]) last dst)
        then wrap32 (num + 1) else num).
Proof.
  intros Hsym Hdst. unfold extend_vertex_clique_candidate.
  rewrite is_all_connected_spec. simpl.
  assert (clique_candidate g (init ++ [last]) last dst
          ↔ last < dst ∧ forallb (λ v, is_connected g v dst) init = true) as Hiff.
  { unfold clique_candidate. rewrite Forall_app, (forallb_connected _ _ _ Hsym).
    split; [tauto |]. intros [? ?]. repeat split; try done.
    constructor; [done | constructor]. }
  rewrite filter_cons, filter_nil.
  destruct (decide (clique_candidate g (init ++ [last]) last dst)) as [Hyes | Hno].
  - apply Hiff in Hyes as [Hlt Hall].
    destruct (Z.gtb_spec dst last); [| lia]. rewrite Hall.
    destruct need_update; simpl; [| by rewrite app_nil_r].
    by rewrite pop_back_push_back.
  - destruct (Z.gtb_spec dst last) as [Hgt | Hle].
    + destruct (forallb (λ v, is_connected g v dst) init) eqn:Hall.
      { exfalso. apply Hno, Hiff. split; [lia | done]. }
      destruct need_update; simpl; by rewrite app_nil_r.
    + destruct need_update; simpl; by rewrite app_nil_r.
Qed.

Lemma extend_vertex_clique_fold g init last need_update : ∀ l queue num,
  undirected g → 0 ≤ num < 2 ^ 32 → (∀ d, d ∈ l → d ∈ edges g last) →
  foldM (extend_vertex_clique_candidate g last need_update) l
        (init ++ [last], queue, num)
  = Ok (init ++ [last],
        queue ++ (if need_update
                  then map (Vert.push_back (init ++ [last]))
                         (base.filter (clique_candidate g (init ++ [last]) last) l)
                  else []),
        wrap32 (num + Z.of_nat
          (length (base.filter (clique_candidate g (init ++ [last]) last) l)))).
Proof.
  induction l as [| d l IH]; intros queue num Hsym Hnum Hsub.
  - simpl. rewrite Z.add_0_r, (wrap32_small _ Hnum).
    destruct need_update; simpl; by rewrite app_nil_r.
  - rewrite foldM_cons.
    rewrite (clique_candidate_step g init last need_update queue num d Hsym)
      by (apply Hsub; by left).
    rewrite bind_Ok, (filter_cons _ d l), (filter_cons _ d []).
    destruct (decide (clique_candidate g (init ++ [last]) last d)) as [Hyes | Hno].
    + rewrite IH; [| done | apply wrap32_range | intros d' Hd'; apply Hsub; by right].
      rewrite wrap32_succ. f_equal. f_equal.
      destruct need_update; simpl; [| by rewrite !app_nil_r].
      by rewrite <- app_assoc.
    + rewrite IH; [| done | done | intros d' Hd'; apply Hsub; by right].
      f_equal. f_equal.
      destruct need_update; simpl; by rewrite ?app_nil_r.
Qed.

Lemma lookup_last {A} (init : list A) last :
  (init ++ [last]) !! (length (init ++ [last]) - 1)%nat = Some last.
Proof.
  rewrite length_app. simpl.
  replace (length init + 1 - 1)%nat with (length init + 0)%nat by lia.
  by rewrite lookup_app_r, Nat.add_0_r, Nat.sub_diag by lia.
Qed.

Lemma extend_vertex_candidate_step init last queue d :
  extend_vertex_candidate (length (init ++ [last])) (init ++ [last], queue) d
  = Ok (init ++ [last],
        queue ++ map (Vert.push_back (init ++ [last]))
                     (base.filter (ascending_candidate last) [d])).
Proof.
  unfold extend_vertex_candidate, Vert.get_vertex.
  rewrite (index_lookup _ _ _ (lookup_last init last)), bind_Ok.
  rewrite filter_cons, filter_nil. unfold ascending_candidate.
  destruct (Z.gtb_spec d last) as [Hgt | Hle].
  - rewrite pop_back_push_back. destruct (decide (last < d)); [done | lia].
  - destruct (decide (last < d)); [lia |]. simpl. by rewrite app_nil_r.
Qed.

Lemma extend_vertex_candidate_fold init last : ∀ l queue,
  foldM (extend_vertex_candidate (length (init ++ [last]))) l
        (init ++ [last], queue)
  = Ok (init ++ [last],
        queue ++ map (Vert.push_back (init ++ [last]))
                     (base.filter (ascending_candidate last) l)).
Proof.
  induction l as [| d l IH]; intros queue.
  - simpl. by rewrite app_nil_r.
  - rewrite foldM_cons, extend_vertex_candidate_step, bind_Ok, IH.
    rewrite (filter_cons _ d l), (filter_cons _ d []), filter_nil.
    destruct (decide (ascending_candidate last d)); simpl.
    + by rewrite <- app_assoc.
    + by rewrite app_nil_r.
Qed.

Lemma extend_vertex_fold g init last : ∀ todo i queue,
  (i + todo = length (init ++ [last]))%nat →
  foldM (extend_vertex_position g (length (init ++ [last]))) (seq i todo)
        (init ++ [last], queue)
  = Ok (init ++ [last],
        queue ++ flat_map
          (λ v, map (Vert.push_back (init ++ [last]))
                    (base.filter (ascending_candidate last) (edges g v)))
          (drop i (init ++ [last]))).
Proof.
  induction todo as [| todo IH]; intros i queue Hlen.
  - simpl. rewrite drop_ge by lia. simpl. by rewrite app_nil_r.
  - destruct (lookup_lt_is_Some_2 (init ++ [last]) i ltac:(lia)) as [vi Hvi].
    simpl seq. rewrite foldM_cons.
    assert (extend_vertex_position g (length (init ++ [last]))
              (init ++ [last], queue) i
            = foldM (extend_vertex_candidate (length (init ++ [last])))
                (edges g vi) (init ++ [last], queue)) as ->.
    { unfold extend_vertex_position, Vert.get_vertex. simpl fst.
      by rewrite (index_lookup _ _ _ Hvi), bind_Ok. }
    rewrite extend_vertex_candidate_fold, bind_Ok, IH by lia.
    rewrite (drop_S _ _ _ Hvi). simpl. by rewrite <- app_assoc.
Qed.

(** C6, as the code has it. For a non-empty embedding (ending in [last])
    over an undirected graph, [extend_vertex_clique] adds to the accumulator
    the number of those neighbours dst of [last] which are greater than
    [last] and connected to every vertex of the embedding, and, when
    [need_update] is set, pushes exactly the extensions by those neighbours,
    in edge order; without [need_update] it pushes nothing. [extend_vertex]
    pushes exactly the extensions by the neighbours, of any vertex of the
    embedding, greater than [last]. *)
Theorem extend_vertex_clique_emits g init last queue num need_update :
  undirected g → 0 ≤ num < 2 ^ 32 →
  let emb := init ++ [last] in
  let accepted := base.filter (clique_candidate g emb last) (edges g last) in
  extend_vertex_clique g emb queue num need_update
  = Ok (emb,
        queue ++ (if need_update then map (Vert.push_back emb) accepted
                  else []),
        wrap32 (num + Z.of_nat (length accepted)))
  ∧ (∀ dst, dst ∈ edges g last →
       Vert.push_back emb dst ∈ map (Vert.push_back emb) accepted
       ↔ last < dst ∧ ∀ v, v ∈ emb → connected g v dst)
  ∧ extend_vertex g emb queue
    = Ok (emb,
          queue ++ flat_map
            (λ v, map (Vert.push_back emb)
                      (base.filter (ascending_candidate last) (edges g v)))
            emb)
  ∧ (∀ v dst, v ∈ emb → dst ∈ edges g v →
       Vert.push_back emb dst
       ∈ map (Vert.push_back emb)
             (base.filter (ascending_candidate last) (edges g v))
       ↔ last < dst).
Proof.
  intros Hsym Hnum emb accepted.
  assert (∀ d l, Vert.push_back emb d ∈ map (Vert.push_back emb) l ↔ d ∈ l)
    as Hinj.
  { intros d l. rewrite list_elem_of_fmap. split.
    - intros (d' & Heq & Hd'). unfold Vert.push_back in Heq.
      apply app_inj_tail in Heq as [_ ->]. done.
    - intros Hd. by exists d. }
  split; [| split; [| split]].
  - unfold extend_vertex_clique, Vert.size. subst emb. rewrite length_app. simpl.
    replace (length init + 1)%nat with (S (length init)) by lia.
    unfold Vert.get_vertex.
    rewrite (index_lookup (init ++ [last]) _ last).
    2:{ replace (length init) with (length init + 0)%nat at 1 by lia.
        by rewrite lookup_app_r, Nat.add_0_r, Nat.sub_diag by lia. }
    rewrite bind_Ok. by apply extend_vertex_clique_fold.
  - intros dst Hdst. rewrite Hinj. unfold accepted.
    rewrite list_elem_of_filter. unfold clique_candidate.
    rewrite Forall_forall. tauto.
  - unfold extend_vertex, Vert.size. subst emb.
    rewrite (extend_vertex_fold g init last _ 0) by lia. by rewrite drop_0.
  - intros v dst Hv Hdst. rewrite Hinj, list_elem_of_filter.
    unfold ascending_candidate. tauto.
Qed.

Lemma undirected_triangle : undirected triangle.
Proof.
  intros u v. unfold connected, triangle. simpl.
  destruct (Z.eqb_spec u 0) as [-> | Hu0]; [| destruct (Z.eqb_spec u 1) as [-> | Hu1];
    [| destruct (Z.eqb_spec u 2) as [-> | Hu2]]];
  (destruct (Z.eqb_spec v 0) as [-> | Hv0]; [| destruct (Z.eqb_spec v 1) as [-> | Hv1];
    [| destruct (Z.eqb_spec v 2) as [-> | Hv2]]]);
  rewrite ?elem_of_cons, ?elem_of_nil; intuition lia.
Qed.

(** The claim C6 as stated fails: without [need_update] the neighbour 2 of
    the triangle is accepted and counted but not pushed; and over adjacency
    lists that are not symmetric the neighbour 2, listed by both vertices of
    the embedding, is not pushed either. *)
Lemma extend_vertex_clique_skips_accepted :
  extend_vertex_clique triangle [0; 1] [] 0 false = Ok ([0; 1], [], 1)
  ∧ ¬ clique_emits_as_stated triangle [0] 1 [] 0 false
  ∧ extend_vertex_clique one_way [0; 1] [] 0 true = Ok ([0; 1], [], 0)
  ∧ ¬ clique_emits_as_stated one_way [0] 1 [] 0 true.
Proof.
  assert (∀ g : Graph,
            edges g 0 = [1; 2] → edges g 1 = [0; 2] →
            ∀ need_update num',
              extend_vertex_clique g [0; 1] [] 0 need_update
              = Ok ([0; 1], [], num') →
              ¬ clique_emits_as_stated g [0] 1 [] 0 need_update) as Hskip.
  { intros g Hzero Hone need_update num' Hrun Hclaim.
    destruct (Hclaim _ _ _ Hrun) as (news & Hnews & Hiff).
    simpl in Hnews. subst news.
    assert (2 ∈ edges g 1) as Hdst by (rewrite Hone; set_solver).
    apply (Hiff 2) in Hdst as [_ Hpush].
    assert (Vert.push_back ([0] ++ [1]) 2 ∈ ([] : list BaseEmbedding))
      as Hin; [| by apply elem_of_nil in Hin].
    apply Hpush. split; [lia |]. intros v Hv. unfold connected.
    apply elem_of_cons in Hv as [-> | Hv]; [rewrite Hzero; set_solver |].
    apply elem_of_cons in Hv as [-> | Hv]; [rewrite Hone; set_solver |].
    by apply elem_of_nil in Hv. }
  split; [reflexivity |].
  split; [by apply (Hskip triangle eq_refl eq_refl false 1) |].
  split; [reflexivity |].
  by apply (Hskip one_way eq_refl eq_refl true 0).
Qed.

Lemma extend_vertex_clique_emits_witness :
  extend_vertex_clique triangle [0; 1] [] 0 true = Ok ([0; 1], [[0; 1; 2]], 1)
  ∧ extend_vertex triangle [0; 1] [] = Ok ([0; 1], [[0; 1; 2]; [0; 1; 2]]).
Proof.
  destruct (extend_vertex_clique_emits triangle [0] 1 [] 0 true
              undirected_triangle ltac:(lia)) as (Hclique & _ & Hvertex & _).
  split; [exact Hclique | exact Hvertex].
Defined.

(** ** Frame of the extension generators *)

Lemma vertex_frame_refl emb queue : vertex_frame emb queue (emb, queue).
Proof. split; [done |]. exists []. by rewrite app_nil_r. Qed.

Lemma vertex_frame_push emb queue q d :
  vertex_frame emb queue (emb, q) →
  vertex_frame emb queue
    (Vert.pop_back (Vert.push_back emb d), q ++ [Vert.push_back emb d]).
Proof.
  intros [_ (news & Hq & Hnews)]. simpl in Hq. subst q.
  split; [apply pop_back_push_back |].
  exists (news ++ [Vert.push_back emb d]). split; [by rewrite app_assoc |].
  apply Forall_app. split; [done |]. constructor; [by exists d | constructor].
Qed.

Lemma extend_vertex_candidate_frame emb queue n st dst st' :
  vertex_frame emb queue st → extend_vertex_candidate n st dst = Ok st' →
  vertex_frame emb queue st'.
Proof.
  destruct st as [e q]. intros Hst Hrun. pose proof Hst as [He _].
  simpl in He. subst e. unfold extend_vertex_candidate in Hrun.
  cbv beta iota in Hrun. apply bind_Ok_inv in Hrun as (last & _ & Hrun).
  destruct (dst >? last); injection Hrun as <-.
  - by apply vertex_frame_push.
  - done.
Qed.

Lemma extend_vertex_position_frame g emb queue n st i st' :
  vertex_frame emb queue st → extend_vertex_position g n st i = Ok st' →
  vertex_frame emb queue st'.
Proof.
  intros Hst Hrun. unfold extend_vertex_position in Hrun.
  apply bind_Ok_inv in Hrun as (id & _ & Hrun).
  eapply (foldM_invariant (vertex_frame emb queue)); [| exact Hst | exact Hrun].
  intros s a s' Hs Hf. eapply extend_vertex_candidate_frame; eauto.
Qed.

Lemma extend_vertex_frame g emb queue st' :
  extend_vertex g emb queue = Ok st' → vertex_frame emb queue st'.
Proof.
  unfold extend_vertex. intros Hrun.
  eapply (foldM_invariant (vertex_frame emb queue));
    [| apply vertex_frame_refl | exact Hrun].
  intros s a s' Hs Hf. eapply extend_vertex_position_frame; eauto.
Qed.

Lemma extend_vertex_total g emb queue : ∃ st', extend_vertex g emb queue = Ok st'.
Proof.
  unfold extend_vertex.
  destruct (foldM_total (vertex_frame emb queue)
              (extend_vertex_position g (Vert.size emb)) (seq 0 (Vert.size emb)))
    with (s := (emb, queue)) as (st' & Hrun & _);
    [| apply vertex_frame_refl | by exists st'].
  intros [e0 q0] i Hi Hs. apply elem_of_seq in Hi.
  destruct (lookup_lt_is_Some_2 emb i ltac:(unfold Vert.size in Hi; lia))
    as [id Hid].
  destruct (lookup_lt_is_Some_2 emb (Vert.size emb - 1)
              ltac:(unfold Vert.size in *; lia)) as [last Hlast].
  unfold extend_vertex_position, Vert.get_vertex.
  pose proof Hs as [He _]. simpl in He. subst e0. simpl fst.
  rewrite (index_lookup _ _ _ Hid), bind_Ok.
  apply (foldM_total (vertex_frame emb queue)); [| done].
  intros [e q] d _ Hframe. pose proof Hframe as [He' _]. simpl in He'. subst e.
  unfold extend_vertex_candidate, Vert.get_vertex. cbv beta iota.
  rewrite (index_lookup _ _ _ Hlast), bind_Ok.
  destruct (d >? last); eexists; (split; [reflexivity |]).
  - by apply vertex_frame_push.
  - done.
Qed.

Lemma extend_vertex_clique_frame g emb queue num need_update st' :
  extend_vertex_clique g emb queue num need_update = Ok st' →
  vertex_frame emb queue (fst st').
Proof.
  unfold extend_vertex_clique. intros Hrun.
  destruct (Vert.size emb) as [| n']; [done |].
  apply bind_Ok_inv in Hrun as (src & _ & Hrun).
  eapply (foldM_invariant (λ st, vertex_frame emb queue (fst st)));
    [| | exact Hrun]; [| apply vertex_frame_refl].
  intros [[e q] c] dst s' Hs Hf. simpl in Hs. pose proof Hs as [He _].
  simpl in He. subst e. unfold extend_vertex_clique_candidate in Hf.
  cbv beta iota in Hf.
  destruct (dst >? src); [| by injection Hf as <-].
  apply bind_Ok_inv in Hf as ([|] & _ & Hf); [| by injection Hf as <-].
  destruct need_update; injection Hf as <-; simpl; [| done].
  by apply vertex_frame_push.
Qed.

Lemma extend_vertex_clique_total g emb queue num need_update :
  emb ≠ [] → ∃ st', extend_vertex_clique g emb queue num need_update = Ok st'.
Proof.
  intros Hne. destruct (exists_last Hne) as (init & last & ->).
  unfold extend_vertex_clique, Vert.size. rewrite length_app. simpl.
  replace (length init + 1)%nat with (S (length init)) by lia.
  unfold Vert.get_vertex. rewrite (index_lookup (init ++ [last]) _ last).
  2:{ replace (length init) with (length init + 0)%nat at 1 by lia.
      by rewrite lookup_app_r, Nat.add_0_r, Nat.sub_diag by lia. }
  rewrite bind_Ok.
  destruct (foldM_total (λ st, fst (fst st) = init ++ [last])
              (extend_vertex_clique_candidate g last need_update)
              (edges g last))
    with (s := (init ++ [last], queue, num)) as (st' & Hrun & _);
    [| done | by exists st'].
  intros [[e q] c] dst _ He. simpl in He. subst e.
  unfold extend_vertex_clique_candidate. cbv beta iota.
  rewrite is_all_connected_spec, bind_Ok.
  destruct (dst >? last); [| by eexists].
  destruct (forallb _ init); [| by eexists].
  destruct need_update; eexists; (split; [reflexivity |]); simpl; [| done].
  apply pop_back_push_back.
Qed.

Lemma extend_vertex_motif_frame g emb queue st' :
  extend_vertex_motif g emb queue = Ok st' → vertex_frame emb queue st'.
Proof.
  unfold extend_vertex_motif. intros Hrun.
  eapply (foldM_invariant (vertex_frame emb queue));
    [| apply vertex_frame_refl | exact Hrun].
  clear st' Hrun. intros s i s' Hs Hrun. unfold extend_vertex_motif_position in Hrun.
  apply bind_Ok_inv in Hrun as (src & _ & Hrun).
  eapply (foldM_invariant (vertex_frame emb queue)); [| exact Hs | exact Hrun].
  clear s s' Hs Hrun. intros [e q] dst s' Hs Hf. pose proof Hs as [He _].
  simpl in He. subst e. unfold extend_vertex_motif_candidate in Hf.
  cbv beta iota in Hf. apply bind_Ok_inv in Hf as (aut & _ & Hf).
  destruct (negb aut); injection Hf as <-; [by apply vertex_frame_push | done].
Qed.

Lemma find_vertex_loop_total emb dst : ∀ todo i,
  (i + todo ≤ length emb)%nat → ∃ b, find_vertex_loop emb dst i todo = Ok b.
Proof.
  induction todo as [| todo IH]; intros i Hlen; [by eexists |].
  destruct (lookup_lt_is_Some_2 emb i ltac:(lia)) as [vi Hvi].
  simpl. unfold Vert.get_vertex. rewrite (index_lookup _ _ _ Hvi), bind_Ok.
  destruct (dst =? vi); [by eexists | apply IH; lia].
Qed.

Lemma below_second_loop_total emb dst todo :
  (2 ≤ length emb)%nat → ∃ b, below_second_loop emb dst todo = Ok b.
Proof.
  intros Hlen. destruct (lookup_lt_is_Some_2 emb 1 ltac:(lia)) as [v1 Hv1].
  induction todo as [| todo IH]; [by eexists |].
  simpl. unfold Vert.get_vertex. rewrite (index_lookup _ _ _ Hv1), bind_Ok.
  destruct (dst <? v1); [by eexists | apply IH].
Qed.

Lemma first_connected_loop_total g emb dst first : ∀ todo i,
  (i + todo ≤ length emb)%nat →
  ∃ f, first_connected_loop g emb dst first i todo = Ok f.
Proof.
  induction todo as [| todo IH]; intros i Hlen; [by eexists |].
  destruct (lookup_lt_is_Some_2 emb i ltac:(lia)) as [vi Hvi].
  simpl. unfold Vert.get_vertex. rewrite (index_lookup _ _ _ Hvi), bind_Ok.
  destruct (is_connected g vi dst); [by eexists | apply IH; lia].
Qed.

Lemma below_later_loop_total emb dst : ∀ todo i,
  (todo = 0 ∨ i + todo ≤ length emb)%nat →
  ∃ b, below_later_loop emb dst i todo = Ok b.
Proof.
  induction todo as [| todo IH]; intros i Hlen; [by eexists |].
  destruct (lookup_lt_is_Some_2 emb i ltac:(lia)) as [vi Hvi].
  simpl. unfold Vert.get_vertex. rewrite (index_lookup _ _ _ Hvi), bind_Ok.
  destruct (dst <? vi); [by eexists | apply IH; lia].
Qed.

Lemma vertexInduced_general_total g emb dst :
  ∃ b, vertexInduced_general g emb dst = Ok b.
Proof.
  unfold vertexInduced_general.
  destruct (first_connected_loop_total g emb dst (Vert.size emb - 1)
              (Vert.size emb) 0) as [f Hf]; [unfold Vert.size; lia |].
  rewrite Hf, bind_Ok. apply below_later_loop_total. unfold Vert.size. lia.
Qed.

Lemma is_vertexInduced_automorphism_total g emb idx src dst :
  (2 ≤ length emb)%nat →
  ∃ b, is_vertexInduced_automorphism g emb idx src dst = Ok b.
Proof.
  intros Hlen. unfold is_vertexInduced_automorphism.
  destruct (lookup_lt_is_Some_2 emb 0 ltac:(lia)) as [v0 Hv0].
  destruct (lookup_lt_is_Some_2 emb 1 ltac:(lia)) as [v1 Hv1].
  unfold Vert.get_vertex. rewrite (index_lookup _ _ _ Hv0), bind_Ok.
  destruct (dst <=? v0); [by eexists |].
  destruct (find_vertex_loop_total emb dst (Vert.size emb - 1) 1) as [b Hb];
    [unfold Vert.size; lia |].
  rewrite Hb, bind_Ok. destruct b; [by eexists |].
  destruct (idx =? 0)%nat; [| destruct (idx =? 1)%nat].
  - destruct (below_second_loop_total emb dst (Vert.size emb - 1) Hlen) as [b Hb'].
    rewrite Hb', bind_Ok. destruct b; [by eexists |].
    rewrite (index_lookup _ _ _ Hv1), bind_Ok.
    destruct (is_connected g v1 dst); [by eexists |].
    apply vertexInduced_general_total.
  - rewrite bind_Ok.
    destruct (is_connected g v0 dst); [by eexists |].
    by apply below_second_loop_total.
  - apply vertexInduced_general_total.
Qed.

Lemma extend_vertex_motif_total g emb queue :
  (2 ≤ length emb)%nat → ∃ st', extend_vertex_motif g emb queue = Ok st'.
Proof.
  intros Hlen. unfold extend_vertex_motif.
  destruct (foldM_total (vertex_frame emb queue)
              (extend_vertex_motif_position g) (seq 0 (Vert.size emb)))
    with (s := (emb, queue)) as (st' & Hrun & _);
    [| apply vertex_frame_refl | by exists st'].
  intros [e0 q0] i Hi Hs. apply elem_of_seq in Hi.
  destruct (lookup_lt_is_Some_2 emb i ltac:(unfold Vert.size in Hi; lia))
    as [src Hsrc].
  unfold extend_vertex_motif_position, Vert.get_vertex.
  pose proof Hs as [He _]. simpl in He. subst e0. simpl fst.
  rewrite (index_lookup _ _ _ Hsrc), bind_Ok.
  apply (foldM_total (vertex_frame emb queue)); [| done].
  intros [e q] d _ Hframe. pose proof Hframe as [He' _]. simpl in He'. subst e.
  unfold extend_vertex_motif_candidate. cbv beta iota.
  destruct (is_vertexInduced_automorphism_total g emb i src d Hlen) as [aut Haut].
  rewrite Haut, bind_Ok.
  destruct (negb aut); eexists; (split; [reflexivity |]).
  - by apply vertex_frame_push.
  - done.
Qed.

Lemma edge_pop_back_push_back emb x : Edge.pop_back (Edge.push_back emb x) = emb.
Proof.
  destruct emb as [els id]. unfold Edge.pop_back, Edge.push_back. simpl.
  by rewrite removelast_last.
Qed.

Lemma edge_frame_refl emb queue : edge_frame emb queue (emb, queue).
Proof. split; [done |]. exists []. by rewrite app_nil_r. Qed.

Lemma edge_frame_push emb queue q x :
  edge_frame emb queue (emb, q) →
  edge_frame emb queue
    (Edge.pop_back (Edge.push_back emb x), q ++ [Edge.push_back emb x]).
Proof.
  intros [_ (news & Hq & Hnews)]. simpl in Hq. subst q.
  split; [apply edge_pop_back_push_back |].
  exists (news ++ [Edge.push_back emb x]). split; [by rewrite app_assoc |].
  apply Forall_app. split; [done |]. constructor; [by exists x | constructor].
Qed.

Lemma extend_edge_candidate_frame lbl g max_size vs i id emb queue st dst st' :
  edge_frame emb queue st →
  extend_edge_candidate lbl g max_size vs i id st dst = Ok st' →
  edge_frame emb queue st'.
Proof.
  destruct st as [e q]. intros Hst Hrun. pose proof Hst as [He _].
  simpl in He. subst e. unfold extend_edge_candidate in Hrun.
  cbv beta iota zeta in Hrun.
  destruct (_ <=? max_size)%nat; [| by injection Hrun as <-].
  apply bind_Ok_inv in Hrun as (aut & _ & Hrun).
  destruct (negb aut); injection Hrun as <-; [by apply edge_frame_push | done].
Qed.

Lemma extend_edge_position_frame lbl g max_size vs emb queue st i st' :
  edge_frame emb queue (snd (fst st), snd st) →
  extend_edge_position lbl g max_size vs st i = Ok st' →
  edge_frame emb queue (snd (fst st'), snd st').
Proof.
  destruct st as [[set e] q]. simpl. intros Hst Hrun.
  unfold extend_edge_position in Hrun. cbv beta iota zeta in Hrun.
  apply bind_Ok_inv in Hrun as (id & _ & Hrun).
  apply bind_Ok_inv in Hrun as (_ & _ & Hrun).
  destruct (bool_decide (id ∈ set)); [by injection Hrun as <- |].
  apply bind_Ok_inv in Hrun as ([e1 q1] & Hfold & Hrun).
  injection Hrun as <-. simpl.
  eapply (foldM_invariant (edge_frame emb queue)); [| exact Hst | exact Hfold].
  intros s a s' Hs Hf. eapply extend_edge_candidate_frame; eauto.
Qed.

Lemma extend_edge_frame lbl g max_size emb queue st' :
  extend_edge lbl g max_size emb queue = Ok st' → edge_frame emb queue st'.
Proof.
  unfold extend_edge. intros Hrun.
  apply bind_Ok_inv in Hrun as (vs & _ & Hrun).
  apply bind_Ok_inv in Hrun as ([[set e] q] & Hfold & Hrun).
  injection Hrun as <-.
  apply (foldM_invariant (λ st, edge_frame emb queue (snd (fst st), snd st))
           (extend_edge_position lbl g max_size vs)
           (λ s a s', extend_edge_position_frame lbl g max_size vs emb queue s a s')
           _ (∅, emb, queue) (set, e, q) (edge_frame_refl emb queue) Hfold).
Qed.

Lemma is_automorphism_loop_total emb history todo : ∀ a idx,
  histories_inside emb → no_self_edge_after emb history →
  (history < idx)%nat → (idx + todo = Edge.size emb)%nat →
  ∃ b, is_automorphism_loop emb a idx todo = Ok b.
Proof.
  induction todo as [| todo IH]; intros a idx Hwf Hloop Hidx Hsize;
    [by eexists |].
  destruct (edge_at_inside emb idx Hwf ltac:(lia)) as [e He].
  simpl. rewrite (getEdge_ok _ _ _ He (Hloop _ _ Hidx He)), bind_Ok.
  destruct (compare a e) as [[cmp a'] e'].
  destruct (cmp <=? 0); [by eexists |]. apply IH; try done; lia.
Qed.

Lemma is_automorphism_total emb history src dst vertex_existed :
  histories_inside emb → no_self_edge_after emb history →
  (history < Edge.size emb)%nat →
  ∃ b, is_automorphism emb history src dst vertex_existed = Ok b.
Proof.
  intros Hwf Hloop Hlt. unfold is_automorphism.
  destruct (lookup_lt_is_Some_2 (elements emb) 0) as [x0 Hx0].
  { unfold Edge.size in Hlt. lia. }
  destruct (lookup_lt_is_Some_2 (elements emb) history Hlt) as [x Hx].
  destruct (history_lookup _ _ _ Hwf Hx) as [f Hf].
  rewrite (get_vertex_lookup _ _ _ Hx0), bind_Ok.
  destruct (dst <? vertex_id x0); [by eexists |].
  rewrite (get_history_lookup _ _ _ Hx), bind_Ok.
  rewrite (get_vertex_lookup _ _ _ Hf), bind_Ok.
  destruct (dst =? vertex_id f); [by eexists |].
  destruct (vertex_existed && (src >? dst)); [by eexists |].
  eapply is_automorphism_loop_total; eauto; lia.
Qed.

Lemma no_self_edge_after_mono emb h h' :
  (h ≤ h')%nat → no_self_edge_after emb h → no_self_edge_after emb h'.
Proof. intros Hle Hloop i e Hi. apply Hloop. lia. Qed.

Lemma collect_vertices_total emb : ∃ vs, collect_vertices emb = Ok vs.
Proof.
  unfold collect_vertices.
  rewrite (collect_vertices_from emb (Edge.size emb) 0 ∅) by lia. by eexists.
Qed.

Lemma extend_edge_total lbl g max_size emb queue :
  histories_inside emb → no_self_edge_after emb 0 → vertices_in_graph g emb →
  ∃ st', extend_edge lbl g max_size emb queue = Ok st'.
Proof.
  intros Hwf Hloop Hgraph. unfold extend_edge.
  destruct (collect_vertices_total emb) as [vs Hvs]. rewrite Hvs, bind_Ok.
  destruct (foldM_total (λ st, edge_frame emb queue (snd (fst st), snd st))
              (extend_edge_position lbl g max_size vs) (seq 0 (Edge.size emb)))
    with (s := (∅ : gset VertexId, emb, queue)) as ([[set e] q] & Hrun & _);
    [| apply edge_frame_refl | rewrite Hrun; by eexists].
  intros [[set e] q] i Hi Hs. apply elem_of_seq in Hi.
  pose proof Hs as [He _]. simpl in He. subst e.
  destruct (lookup_lt_is_Some_2 (elements emb) i ltac:(unfold Edge.size in Hi; lia))
    as [x Hx].
  unfold extend_edge_position. cbv beta iota zeta.
  rewrite (get_vertex_lookup _ _ _ Hx), bind_Ok.
  assert (0 ≤ vertex_id x < graph_size g) as Hrange.
  { unfold vertices_in_graph in Hgraph. rewrite Forall_forall in Hgraph.
    eapply Hgraph, list_elem_of_lookup_2, Hx. }
  destruct (Z.leb_spec 0 (vertex_id x)); [| lia].
  destruct (Z.ltb_spec (vertex_id x) (graph_size g)); [| lia].
  simpl assert. rewrite bind_Ok.
  destruct (bool_decide (vertex_id x ∈ set)); [by eexists |].
  destruct (foldM_total (edge_frame emb queue)
              (extend_edge_candidate lbl g max_size vs i (vertex_id x))
              (edges g (vertex_id x)))
    with (s := (emb, q)) as ([e1 q1] & Hfold & Hframe); [| done |].
  - intros [e2 q2] dst _ Hs2. pose proof Hs2 as [He2 _]. simpl in He2. subst e2.
    unfold extend_edge_candidate. cbv beta iota zeta.
    destruct (_ <=? max_size)%nat; [| by eexists].
    destruct (is_automorphism_total emb (to_BYTE i) (vertex_id x) dst
                (bool_decide (dst ∈ vs)) Hwf) as [aut Haut].
    { eapply no_self_edge_after_mono; [| exact Hloop]. lia. }
    { unfold to_BYTE. pose proof (Nat.Div0.mod_le i 256). lia. }
    rewrite Haut, bind_Ok.
    destruct (negb aut); eexists; (split; [reflexivity |]);
      [by apply edge_frame_push | done].
  - rewrite Hfold, bind_Ok. eexists. split; [reflexivity | done].
Qed.

(** C9 (amended). Every extension operation that completes leaves its
    embedding as it received it, and its queue extended by one-element
    extensions of that embedding; the graph is an input that no operation
    returns or updates. [extend_vertex_clique] may, besides, change its
    accumulator. The operations complete: [extend_vertex] always,
    [extend_vertex_clique] on a non-empty embedding, [extend_vertex_motif] on
    an embedding of two vertices or more, [extend_edge] when the assertions
    hold (vertices inside the graph, history indices inside the embedding, no
    self-edge). *)
Theorem extension_frame lbl g max_size :
  (∀ emb queue st',
     extend_edge lbl g max_size emb queue = Ok st' → edge_frame emb queue st')
  ∧ (∀ emb queue st',
       extend_vertex_motif g emb queue = Ok st' → vertex_frame emb queue st')
  ∧ (∀ emb queue st',
       extend_vertex g emb queue = Ok st' → vertex_frame emb queue st')
  ∧ (∀ emb queue num need_update st',
       extend_vertex_clique g emb queue num need_update = Ok st' →
       vertex_frame emb queue (fst st'))
  ∧ (∀ emb queue,
       histories_inside emb → no_self_edge_after emb 0 →
       vertices_in_graph g emb →
       ∃ st', extend_edge lbl g max_size emb queue = Ok st')
  ∧ (∀ emb queue, (2 ≤ length emb)%nat →
       ∃ st', extend_vertex_motif g emb queue = Ok st')
  ∧ (∀ emb queue, ∃ st', extend_vertex g emb queue = Ok st')
  ∧ (∀ emb queue num need_update, emb ≠ [] →
       ∃ st', extend_vertex_clique g emb queue num need_update = Ok st').
Proof.
  split; [| split; [| split; [| split; [| split; [| split; [| split]]]]]].
  - intros emb queue st' Hrun. exact (extend_edge_frame _ _ _ _ _ _ Hrun).
  - intros emb queue st' Hrun. exact (extend_vertex_motif_frame _ _ _ _ Hrun).
  - intros emb queue st' Hrun. exact (extend_vertex_frame _ _ _ _ Hrun).
  - intros emb queue num nu st' Hrun.
    exact (extend_vertex_clique_frame _ _ _ _ _ _ Hrun).
  - intros emb queue. apply extend_edge_total.
  - intros emb queue. apply extend_vertex_motif_total.
  - intros emb queue. apply extend_vertex_total.
  - intros emb queue num nu. apply extend_vertex_clique_total.
Qed.

(** C9, counterexample. On the triangle, [extend_vertex_clique] from the
    embedding (0, 1) with the accumulator at 0 returns with the accumulator
    at 1: the queue is not the only thing it changes. *)
Lemma extend_vertex_clique_changes_accumulator :
  ¬ clique_frame_as_stated triangle [0; 1] [] 0 true.
Proof.
  intros Hframe.
  destruct (Hframe [0; 1] [[0; 1; 2]] 1 ltac:(reflexivity)) as (_ & Hnum & _).
  lia.
Qed.

Lemma extension_frame_witness :
  (∃ st', extend_edge false triangle 3 emb_01 [] = Ok st'
          ∧ edge_frame emb_01 [] st')
  ∧ (∃ st', extend_vertex_motif triangle [0; 1] [] = Ok st'
            ∧ vertex_frame [0; 1] [] st')
  ∧ (∃ st', extend_vertex_clique triangle [0; 1] [] 0 true = Ok st'
            ∧ vertex_frame [0; 1] [] (fst st')).
Proof.
  destruct (extension_frame false triangle 3)
    as (Hedge & Hmotif & _ & Hclique & Hedge_t & Hmotif_t & _ & Hclique_t).
  split; [| split].
  - destruct (Hedge_t emb_01 []) as [st' Hrun].
    + unfold histories_inside, emb_01, Edge.size. simpl.
      repeat (apply List.Forall_cons; [simpl; lia |]). apply List.Forall_nil.
    + intros i e Hi He. destruct i as [| [| i]]; [lia | | done].
      injection He as <-. simpl. lia.
    + unfold vertices_in_graph, emb_01. simpl.
      repeat (apply List.Forall_cons; [simpl; lia |]). apply List.Forall_nil.
    + exists st'. split; [exact Hrun | exact (Hedge _ _ _ Hrun)].
  - destruct (Hmotif_t [0; 1] []) as [st' Hrun]; [simpl; lia |].
    exists st'. split; [exact Hrun | exact (Hmotif _ _ _ Hrun)].
  - destruct (Hclique_t [0; 1] [] 0 true) as [st' Hrun]; [done |].
    exists st'. split; [exact Hrun | exact (Hclique _ _ _ _ _ Hrun)].
Defined.

(** ** The facts on a small instance *)

Lemma shape_of_fix_size : patterns_fix_size shape_of.
Proof.
  intros e1 e2 Heq. unfold Edge.size.
  rewrite <- (length_map history_info (elements e1)).
  rewrite <- (length_map history_info (elements e2)).
  unfold shape_of in Heq. by rewrite Heq.
Qed.

Lemma get_support_empty_witness :
  get_support [] = 4294967295
  ∧ support_count_step count_id 4294967295 (0, ∅) (2%nat, [])
    = (wrap32 (0 + 1), map_insert_pair (count_id 2) 4294967295 ∅)
  ∧ all_domains_frequent 4294967295 [] = true.
Proof.
  apply (get_support_empty count_id 4294967295 2%nat 0 ∅).
  unfold UINT_MAX. lia.
Defined.

(** The claim C2 as stated fails: with the support 0 already recorded under
    the id of the pattern 2, whose minimum is 1, [support_count] keeps the 0
    and still counts the pattern; and of two patterns carrying one id, only
    one has its minimum recorded. *)
Lemma support_count_keeps_recorded_support :
  get_support sets_12_3 = 1
  ∧ support_count count_id 1 one_pattern_map stale_supports
    = (1, stale_supports)
  ∧ ¬ support_count_as_stated count_id 1 one_pattern_map stale_supports
  ∧ ¬ support_count_as_stated same_id 1 two_pattern_map ∅.
Proof.
  split; [reflexivity |]. split; [by vm_compute |]. split.
  - intros Hclaim.
    destruct (Hclaim 2%nat sets_12_3 eq_refl ltac:(discriminate))
      as (_ & _ & Hrec & _).
    vm_compute in Hrec. discriminate.
  - intros Hclaim.
    destruct (Hclaim 1%nat [{[1]}] eq_refl ltac:(discriminate))
      as (_ & _ & Hone & _).
    destruct (Hclaim 2%nat [{[1; 2]}] eq_refl ltac:(discriminate))
      as (_ & _ & Htwo & _).
    unfold same_id in Hone, Htwo. rewrite Hone in Htwo.
    vm_compute in Htwo. discriminate.
Qed.

Lemma get_support_minimum_witness :
  (∃ s, s ∈ sets_12_3 ∧ slot_size s = get_support sets_12_3)
  ∧ get_support sets_12_3 = 1
  ∧ snd (support_count count_id 1 one_pattern_map ∅) !! count_id 2 = Some 1
  ∧ snd (support_count count_id 1 one_pattern_map stale_supports) !! count_id 2
    = Some 0
  ∧ fst (support_count count_id 1 one_pattern_map ∅) = 1.
Proof.
  destruct (get_support_minimum count_id 1 one_pattern_map ∅ 2%nat sets_12_3)
    as (Hex & _ & Hrec & _ & _ & Hcnt).
  - reflexivity.
  - discriminate.
  - unfold sets_12_3, UINT_MAX.
    repeat (apply List.Forall_cons; [vm_compute; discriminate |]).
    apply List.Forall_nil.
  - split; [exact Hex |]. split; [reflexivity |]. split; [| split].
    + apply Hrec; [apply lookup_empty |].
      intros c [x Hc] _. unfold one_pattern_map in Hc.
      by apply lookup_singleton_Some in Hc as [<- _].
    + destruct (get_support_minimum count_id 1 one_pattern_map stale_supports
                  2%nat sets_12_3) as (_ & _ & _ & Hold & _).
      * reflexivity.
      * discriminate.
      * unfold sets_12_3, UINT_MAX.
        repeat (apply List.Forall_cons; [vm_compute; discriminate |]).
        apply List.Forall_nil.
      * apply Hold. reflexivity.
    + exact Hcnt.
Defined.

Lemma filter_keeps_frequent_witness :
  filter 3 [emb_q10; emb_q11] ids_10_11 supports_5_1 [] = Ok [emb_q10].
Proof.
  destruct (filter_keeps_frequent 3 [emb_q10; emb_q11] ids_10_11 supports_5_1 [])
    as (Hrun & _ & _).
  - intros emb Hemb. apply elem_of_cons in Hemb as [-> | Hemb];
      [by eexists |]. apply elem_of_cons in Hemb as [-> | Hemb]; [by eexists |].
    by apply elem_of_nil in Hemb.
  - exact Hrun.
Defined.

Lemma canonical_aggregate_each_through_permutation_witness :
  (∃ new : list (gset VertexId),
     canonical_aggregate_each_domain shape_size shape_id shape_canonical
       count_id [0%nat; 0%nat] sets_12_3 ∅ ∅
     = Ok (<[2%nat := new]> ∅, map_insert_pair 2 2 ∅)
     ∧ new !! 0%nat = Some (∅ ∪ {[3]})
     ∧ new !! 1%nat = Some (∅ ∪ {[1; 2]}))
  ∧ canonical_aggregate_each_domain shape_size shape_id shape_canonical
      count_id [0%nat] [{[1]}] ∅ ∅
    = AssertFailed.
Proof.
  destruct (canonical_aggregate_each_through_permutation
              shape_size shape_id shape_canonical count_id)
    as (Hone & _ & Hsmall).
  split; [| apply Hsmall; simpl; lia].
  destruct (Hone [0%nat; 0%nat] sets_12_3 ∅ ∅) as (new & Hrun & _ & Hslots).
  - simpl. lia.
  - reflexivity.
  - intros i Hi. simpl in *. lia.
  - intros sets Hsets. by rewrite lookup_empty in Hsets.
  - exists new. split; [exact Hrun |].
    destruct (Hslots 0%nat ltac:(simpl; lia)) as (s0 & Hs0 & Hn0).
    destruct (Hslots 1%nat ltac:(simpl; lia)) as (s1 & Hs1 & Hn1).
    injection Hs0 as <-. injection Hs1 as <-.
    split; [exact Hn0 | exact Hn1].
Defined.

Lemma filter_each_absent_pattern_witness :
  filter_each_domain shape_of shape_size shape_canonical 1 emb_13 ∅ []
  = Ok (<[2%nat := []]> ∅, [emb_13])
  ∧ filter_each_freq shape_of shape_size shape_canonical 1 emb_13 ∅ []
    = Ok (<[2%nat := 0]> ∅, [])
  ∧ filter_domain shape_of shape_size shape_canonical 1 [emb_13] ∅ []
    = AssertFailed
  ∧ filter_each_domain shape_of shape_size shape_canonical 1 emb_1 ∅ []
    = AssertFailed.
Proof.
  destruct (filter_each_absent_pattern shape_of shape_size shape_canonical 1
              emb_13 ∅ ∅ ∅ ∅ []) as (Heach & Hassert & _).
  - apply lookup_empty.
  - apply lookup_empty.
  - reflexivity.
  - destruct Heach as [Hdom Hfreq]; [vm_compute; lia |].
    split; [exact Hdom |]. split; [exact Hfreq |]. split; [exact Hassert |].
    destruct (filter_each_absent_pattern shape_of shape_size shape_canonical 1
                emb_1 ∅ ∅ ∅ ∅ []) as (_ & _ & _ & _ & _ & Hsmall).
    + apply lookup_empty.
    + apply lookup_empty.
    + reflexivity.
    + destruct Hsmall as [Hone _]; [vm_compute; lia | exact Hone].
Defined.

Lemma aggregation_independent_of_partition_witness :
  aggregate_freq shape_of (Merged (Single [emb_13]) (Single [emb_25; emb_13]))
  = quick_aggregate_freq shape_of [emb_25; emb_13; emb_13] ∅
  ∧ ∃ qp_map,
      aggregate_domain shape_of
        (Merged (Single [emb_13]) (Single [emb_25; emb_13])) = Ok qp_map
      ∧ quick_aggregate_domain shape_of [emb_25; emb_13; emb_13] ∅ = Ok qp_map.
Proof.
  destruct (aggregation_independent_of_partition shape_of shape_id
              (Merged (Single [emb_13]) (Single [emb_25; emb_13]))
              [emb_25; emb_13; emb_13])
    as (Hfreq & _ & qp_map & Hdom & Hwhole & _).
  - exact shape_of_fix_size.
  - simpl. apply perm_swap.
  - split; [exact Hfreq |]. exists qp_map. split; [exact Hdom | exact Hwhole].
Defined.

(** * Further facts *)

(** ** The order of [compare] *)

(** X1. On edges with ids below 2^31, [compare] orders the edges as
    unordered pairs: it returns 0 exactly for two edges with the same
    endpoints, in either orientation; exchanging the arguments negates the
    result; and it is at most 0 exactly when the first edge is less-or-equal
    in the lexicographic order on (min endpoint, max endpoint). *)
Theorem compare_orders_undirected_edges (a e : Edge_pair) :
  0 ≤ fst a < 2 ^ 31 → 0 ≤ snd a < 2 ^ 31 →
  0 ≤ fst e < 2 ^ 31 → 0 ≤ snd e < 2 ^ 31 →
  let cmp := fst (fst (compare a e)) in
  (cmp = 0 ↔ normalize a = normalize e)
  ∧ fst (fst (compare e a)) = - cmp
  ∧ fst (fst (compare (snd a, fst a) e)) = cmp
  ∧ (cmp ≤ 0 ↔ edge_leq a e).
Proof.
  intros Ha1 Ha2 He1 He2 cmp. subst cmp.
  destruct (compare_leq a e Ha1 Ha2 He1 He2) as [_ Hleq].
  split; [| split; [| split; [| exact Hleq]]].
  - unfold compare. rewrite !swap_normalize.
    destruct a as [a1 a2], e as [e1 e2]; unfold normalize; simpl in *.
    destruct (Z.eqb_spec (Z.min a1 a2) (Z.min e1 e2)) as [Heq | Hne]; simpl;
      rewrite to_int_small by lia; split; try lia.
    + intros Hmax. f_equal; lia.
    + intros [= Hmin Hmax]. lia.
    + intros [= Hmin Hmax]. lia.
  - unfold compare. rewrite !swap_normalize.
    destruct a as [a1 a2], e as [e1 e2]; unfold normalize; simpl in *.
    destruct (Z.eqb_spec (Z.min a1 a2) (Z.min e1 e2)) as [Heq | Hne];
      destruct (Z.eqb_spec (Z.min e1 e2) (Z.min a1 a2)) as [Heq' | Hne'];
      simpl; try lia; rewrite !to_int_small by lia; lia.
  - unfold compare. rewrite !swap_normalize.
    destruct a as [a1 a2], e as [e1 e2]; unfold normalize; simpl in *.
    rewrite (Z.min_comm a2 a1), (Z.max_comm a2 a1). done.
Qed.

Lemma compare_orders_undirected_edges_witness :
  fst (fst (compare (7, 2) (2, 7))) = 0
  ∧ fst (fst (compare (2, 7) (7, 2))) = - fst (fst (compare (7, 2) (2, 7))).
Proof.
  destruct (compare_orders_undirected_edges (7, 2) (2, 7))
    as (Hzero & Hneg & _); try (simpl; lia).
  split; [by apply Hzero | exact Hneg].
Defined.

(** ** [edge_existed] *)

Lemma edge_existed_loop_spec emb src dst : ∀ todo i,
  histories_inside emb → (i + todo = Edge.size emb)%nat →
  ∃ b, edge_existed_loop emb src dst i todo = Ok b
       ∧ (b = true ↔ ∃ j, (i ≤ j)%nat ∧ edge_at emb j = Some (src, dst)).
Proof.
  induction todo as [| todo IH]; intros i Hwf Hsize.
  - exists false. split; [done |]. split; [done |].
    intros (j & Hj & He). exfalso.
    unfold edge_at in He. destruct (elements emb !! j) eqn:Hl; [| done].
    apply lookup_lt_Some in Hl. unfold Edge.size in Hsize. lia.
  - destruct (lookup_lt_is_Some_2 (elements emb) i) as [x Hx];
      [unfold Edge.size in Hsize; lia |].
    destruct (history_lookup _ _ _ Hwf Hx) as [f Hf].
    destruct (IH (S i) Hwf ltac:(lia)) as (b & Hrun & Hb).
    assert (edge_at emb i = Some (vertex_id f, vertex_id x)) as Hedge.
    { unfold edge_at. by rewrite Hx, Hf. }
    simpl. rewrite (get_vertex_lookup _ _ _ Hx), bind_Ok.
    destruct (Z.eqb_spec (vertex_id x) dst) as [Hdst | Hdst].
    + rewrite (get_history_lookup _ _ _ Hx), bind_Ok.
      rewrite (get_vertex_lookup _ _ _ Hf), bind_Ok.
      destruct (Z.eqb_spec (vertex_id f) src) as [Hsrc | Hsrc].
      * exists true. split; [done |]. split; [| done]. intros _.
        exists i. split; [lia |]. by rewrite Hedge, Hsrc, Hdst.
      * exists b. split; [done |]. rewrite Hb. split.
        -- intros (j & Hj & He). exists j. split; [lia | done].
        -- intros (j & Hj & He). destruct (decide (j = i)) as [-> | Hne].
           ++ rewrite Hedge in He. congruence.
           ++ exists j. split; [lia | done].
    + exists b. split; [done |]. rewrite Hb. split.
      * intros (j & Hj & He). exists j. split; [lia | done].
      * intros (j & Hj & He). destruct (decide (j = i)) as [-> | Hne].
        -- rewrite Hedge in He. congruence.
        -- exists j. split; [lia | done].
Qed.

(** X2. On an embedding whose history indices are inside it, [edge_existed]
    returns, and returns true exactly when some element at an index from 1 on
    has the vertex dst and was extended from the vertex src: the edge is
    looked for in the direction src to dst only, and the element 0 and the
    parameter [history] are not looked at. *)
Theorem edge_existed_finds_directed_edge emb history src dst :
  histories_inside emb →
  ∃ b, edge_existed emb history src dst = Ok b
       ∧ (b = true ↔ ∃ j, (1 ≤ j)%nat ∧ edge_at emb j = Some (src, dst)).
Proof.
  intros Hwf. unfold edge_existed.
  destruct (elements emb) as [| x rest] eqn:Hels.
  - exists false. unfold Edge.size. rewrite Hels. simpl. split; [done |].
    split; [done |]. intros (j & _ & He). unfold edge_at in He.
    by rewrite Hels in He.
  - apply edge_existed_loop_spec; [done |].
    unfold Edge.size. rewrite Hels. simpl. lia.
Qed.

Lemma edge_existed_finds_directed_edge_witness :
  ∃ b, edge_existed emb_13 0 3 1 = Ok b
       ∧ (b = true ↔ ∃ j, (1 ≤ j)%nat ∧ edge_at emb_13 j = Some (3, 1)).
Proof.
  apply (edge_existed_finds_directed_edge emb_13 0%nat 3 1).
  unfold histories_inside, emb_13, Edge.size. simpl.
  repeat (apply List.Forall_cons; [simpl; lia |]). apply List.Forall_nil.
Defined.

(** ** Connectivity tests *)

(** X3. [is_connected] answers true only when one of the two adjacency lists
    holds the other vertex; on an undirected graph it answers true exactly
    when the two vertices are adjacent, whatever the order of its arguments
    and whatever the degrees. *)
Theorem is_connected_sound g from to :
  (is_connected g from to = true → connected g from to ∨ connected g to from)
  ∧ (undirected g →
       (is_connected g from to = true ↔ connected g from to)
       ∧ is_connected g from to = is_connected g to from).
Proof.
  split.
  - unfold is_connected.
    destruct (degrees g from <? degrees g to); rewrite scan_for_spec; auto.
  - intros Hsym. split; [by apply is_connected_spec |].
    apply eq_true_iff_eq.
    rewrite !(is_connected_spec _ _ _ Hsym). apply Hsym.
Qed.

Lemma is_connected_sound_witness :
  (is_connected triangle 0 2 = true ↔ connected triangle 0 2)
  ∧ is_connected triangle 0 2 = is_connected triangle 2 0.
Proof.
  destruct (is_connected_sound triangle 0 2) as [_ Hund].
  exact (Hund undirected_triangle).
Defined.

(** X4. [is_all_connected] cannot be called on an empty embedding (the bound
    [n - 1] of its loop wraps); on a non-empty one over an undirected graph it
    answers true exactly when dst is adjacent to every vertex but the last:
    the last vertex is not examined. *)
Theorem is_all_connected_skips_last g dst init last :
  is_all_connected g dst [] = OutOfBounds
  ∧ (undirected g →
       ∃ b, is_all_connected g dst (init ++ [last]) = Ok b
            ∧ (b = true ↔ Forall (λ v, connected g v dst) init)).
Proof.
  split; [done |]. intros Hsym.
  exists (forallb (λ v, is_connected g v dst) init).
  split; [apply is_all_connected_spec | by apply forallb_connected].
Qed.

Lemma is_all_connected_skips_last_witness :
  ∃ b, is_all_connected triangle 2 ([0] ++ [7]) = Ok b
       ∧ (b = true ↔ Forall (λ v, connected triangle v 2) [0]).
Proof.
  destruct (is_all_connected_skips_last triangle 2 [0] 7) as [_ Hund].
  exact (Hund undirected_triangle).
Defined.

(** ** Clique extension, further *)

(** X5. With [need_update] false, [extend_vertex_clique] on a non-empty
    embedding over an undirected graph pushes nothing: it returns the queue as
    it was and adds to the accumulator the number of neighbours of the last
    vertex that are above it and adjacent to every vertex of the embedding. *)
Theorem extend_vertex_clique_counts_only g init last queue num :
  undirected g → 0 ≤ num < 2 ^ 32 →
  extend_vertex_clique g (init ++ [last]) queue num false
  = Ok (init ++ [last], queue,
        wrap32 (num + Z.of_nat (length
          (base.filter (clique_candidate g (init ++ [last]) last)
                       (edges g last))))).
Proof.
  intros Hsym Hnum. unfold extend_vertex_clique, Vert.size.
  rewrite length_app. simpl.
  replace (length init + 1)%nat with (S (length init)) by lia.
  unfold Vert.get_vertex. rewrite (index_lookup (init ++ [last]) _ last).
  2:{ replace (length init) with (length init + 0)%nat at 1 by lia.
      by rewrite lookup_app_r, Nat.add_0_r, Nat.sub_diag by lia. }
  rewrite bind_Ok, extend_vertex_clique_fold by done.
  by rewrite app_nil_r.
Qed.

Lemma extend_vertex_clique_counts_only_witness :
  extend_vertex_clique triangle [0; 1] [] 0 false = Ok ([0; 1], [], 1).
Proof.
  exact (extend_vertex_clique_counts_only triangle [0] 1 [] 0
           undirected_triangle ltac:(lia)).
Defined.

Lemma ascending_snoc (init : list VertexId) last d :
  ascending (init ++ [last]) → last < d → ascending ((init ++ [last]) ++ [d]).
Proof.
  intros Hasc Hlt i j u v Hij Hu Hv. unfold VertexId in *.
  assert (length (init ++ [last]) = S (length init)) as Hlen
    by (rewrite length_app; simpl; lia).
  destruct (decide (j < length (init ++ [last]))%nat) as [Hj | Hj].
  - rewrite lookup_app_l in Hu, Hv by lia. exact (Hasc i j u v Hij Hu Hv).
  - pose proof (lookup_lt_Some _ _ _ Hv) as Hjlt.
    rewrite length_app in Hjlt. simpl in Hjlt.
    rewrite lookup_app_l in Hu by lia.
    rewrite lookup_app_r in Hv by lia.
    replace (j - length (init ++ [last]))%nat with 0%nat in Hv by lia.
    injection Hv as <-.
    destruct (decide (i = length init)) as [-> | Hne].
    + rewrite lookup_app_r in Hu by lia. rewrite Nat.sub_diag in Hu.
      injection Hu as <-. done.
    + assert (u < last); [| lia].
      apply (Hasc i (length init) u last); [lia | done |].
      by rewrite lookup_app_r, Nat.sub_diag by lia.
Qed.

Lemma pairwise_connected_snoc g (emb : list VertexId) d :
  pairwise_connected g emb → Forall (λ v, connected g v d) emb →
  pairwise_connected g (emb ++ [d]).
Proof.
  intros Hpair Hall i j u v Hij Hu Hv. unfold VertexId in *.
  destruct (decide (j < length emb)%nat) as [Hj | Hj].
  - rewrite lookup_app_l in Hu, Hv by lia. exact (Hpair i j u v Hij Hu Hv).
  - pose proof (lookup_lt_Some _ _ _ Hv) as Hjlt.
    rewrite length_app in Hjlt. simpl in Hjlt.
    rewrite lookup_app_l in Hu by lia.
    rewrite lookup_app_r in Hv by lia.
    replace (j - length emb)%nat with 0%nat in Hv by lia.
    injection Hv as <-. rewrite Forall_forall in Hall.
    eapply Hall, list_elem_of_lookup_2, Hu.
Qed.

(** X6. Cliques stay cliques: over an undirected graph, when the embedding is
    in strictly increasing order and pairwise adjacent, so is every embedding
    that [extend_vertex_clique] pushes, and each has one vertex more. *)
Theorem extend_vertex_clique_keeps_cliques g init last queue num :
  undirected g → 0 ≤ num < 2 ^ 32 →
  ascending (init ++ [last]) → pairwise_connected g (init ++ [last]) →
  ∃ news num',
    extend_vertex_clique g (init ++ [last]) queue num true
    = Ok (init ++ [last], queue ++ news, num')
    ∧ Forall (λ e, ascending e ∧ pairwise_connected g e
                   ∧ length e = S (length (init ++ [last]))) news.
Proof.
  intros Hsym Hnum Hasc Hpair. unfold extend_vertex_clique, Vert.size.
  rewrite length_app. simpl.
  replace (length init + 1)%nat with (S (length init)) by lia.
  unfold Vert.get_vertex. rewrite (index_lookup (init ++ [last]) _ last).
  2:{ replace (length init) with (length init + 0)%nat at 1 by lia.
      by rewrite lookup_app_r, Nat.add_0_r, Nat.sub_diag by lia. }
  rewrite bind_Ok, extend_vertex_clique_fold by done.
  eexists _, _. split; [reflexivity |].
  rewrite Forall_fmap. apply Forall_forall. intros d Hd.
  apply list_elem_of_filter in Hd as [[Hlt Hall] _]. simpl.
  split; [by apply ascending_snoc |].
  split; [by apply pairwise_connected_snoc |].
  unfold Vert.push_back. rewrite !length_app. simpl. lia.
Qed.

Lemma extend_vertex_clique_keeps_cliques_witness :
  ∃ news num',
    extend_vertex_clique triangle ([0] ++ [1]) [] 0 true
    = Ok ([0] ++ [1], [] ++ news, num')
    ∧ Forall (λ e, ascending e ∧ pairwise_connected triangle e
                   ∧ length e = S (length ([0] ++ [1]))) news.
Proof.
  apply (extend_vertex_clique_keeps_cliques triangle [0] 1 [] 0
           undirected_triangle); [lia | |].
  - intros i j u v Hij Hu Hv.
    destruct i as [| i]; destruct j as [| [| j]]; try lia; try done.
    injection Hu as <-. injection Hv as <-. lia.
  - intros i j u v Hij Hu Hv.
    destruct i as [| i]; destruct j as [| [| j]]; try lia; try done.
    injection Hu as <-. injection Hv as <-.
    unfold connected. simpl. apply elem_of_cons. by left.
Defined.

(** ** What the extension generators emit *)

(** An invariant that the loop body keeps for the elements of the list. *)
Lemma foldM_invariant_in {A S} (I : S → Prop) (f : S → A → outcome S) l :
  (∀ s a s', a ∈ l → I s → f s a = Ok s' → I s') →
  ∀ s s', I s → foldM f l s = Ok s' → I s'.
Proof.
  induction l as [| a l IH]; intros Hstep s s' Hs Hrun.
  - simpl in Hrun. by injection Hrun as <-.
  - rewrite foldM_cons in Hrun. apply bind_Ok_inv in Hrun as (s1 & Hf & Hrun).
    eapply IH; [| | exact Hrun].
    + intros s2 b s3 Hb. apply Hstep. by right.
    + eapply Hstep; [by left | exact Hs | exact Hf].
Qed.

Lemma queue_grows_by_refl {E} (P : E → Prop) emb queue :
  queue_grows_by P emb queue (emb, queue).
Proof. split; [done |]. exists []. by rewrite app_nil_r. Qed.

Lemma queue_grows_by_push {E} (P : E → Prop) emb queue q e :
  queue_grows_by P emb queue (emb, q) → P e →
  queue_grows_by P emb queue (emb, q ++ [e]).
Proof.
  intros [_ (news & Hq & Hnews)] He. simpl in Hq. subst q.
  split; [done |]. exists (news ++ [e]). split; [by rewrite app_assoc |].
  apply Forall_app. split; [done |]. by constructor.
Qed.

Lemma distinct_vertices_push_back emb x :
  distinct_vertices (Edge.push_back emb x)
  = distinct_vertices emb ∪ {[vertex_id x]}.
Proof.
  unfold distinct_vertices, Edge.push_back. simpl.
  rewrite map_app, list_to_set_app_L. simpl. set_solver.
Qed.

Lemma collect_vertices_distinct emb vs :
  collect_vertices emb = Ok vs → vs = distinct_vertices emb.
Proof.
  unfold collect_vertices, distinct_vertices.
  rewrite (collect_vertices_from emb (Edge.size emb) 0 ∅) by lia.
  intros [= <-]. rewrite drop_0. set_solver.
Qed.

Lemma size_with_vertex (vs : gset VertexId) dst :
  size (vs ∪ {[dst]})
  = if bool_decide (dst ∈ vs) then size vs else S (size vs).
Proof.
  case_bool_decide as Hin.
  - f_equal. set_solver.
  - rewrite size_union by set_solver. rewrite size_singleton. lia.
Qed.

Lemma get_vertex_vertex_at emb i id :
  Edge.get_vertex emb i = Ok id → vertex_at emb i = Some id.
Proof.
  unfold Edge.get_vertex, index, vertex_at.
  destruct (elements emb !! i) as [x |]; [| done]. simpl. congruence.
Qed.

Lemma extend_edge_candidate_emits lbl g max_size emb queue i id st dst st' :
  vertex_at emb i = Some id → dst ∈ edges g id →
  queue_grows_by (edge_extension g max_size emb) emb queue st →
  extend_edge_candidate lbl g max_size (distinct_vertices emb) i id st dst
  = Ok st' →
  queue_grows_by (edge_extension g max_size emb) emb queue st'.
Proof.
  destruct st as [e q]. intros Hid Hdst Hst Hrun. pose proof Hst as [He _].
  simpl in He. subst e. unfold extend_edge_candidate in Hrun.
  cbv beta iota zeta in Hrun.
  destruct (Nat.leb_spec
              (if bool_decide (dst ∈ distinct_vertices emb)
               then size (distinct_vertices emb)
               else S (size (distinct_vertices emb))) max_size) as [Hle | Hgt];
    [| by injection Hrun as <-].
  apply bind_Ok_inv in Hrun as (aut & _ & Hrun).
  destruct (negb aut); injection Hrun as <-; [| done].
  rewrite edge_pop_back_push_back. apply queue_grows_by_push; [done |].
  eexists i, id, _. split; [reflexivity |].
  rewrite distinct_vertices_push_back. simpl. rewrite size_with_vertex.
  repeat split; done.
Qed.

Lemma extend_edge_emits lbl g max_size emb queue st' :
  extend_edge lbl g max_size emb queue = Ok st' →
  queue_grows_by (edge_extension g max_size emb) emb queue st'.
Proof.
  unfold extend_edge. intros Hrun.
  apply bind_Ok_inv in Hrun as (vs & Hvs & Hrun).
  apply collect_vertices_distinct in Hvs. subst vs.
  apply bind_Ok_inv in Hrun as ([[set e] q] & Hfold & Hrun).
  injection Hrun as <-.
  apply (foldM_invariant
           (λ st, queue_grows_by (edge_extension g max_size emb) emb queue
                    (snd (fst st), snd st))
           (extend_edge_position lbl g max_size (distinct_vertices emb)))
    with (s := (∅, emb, queue)) (s' := (set, e, q)) (l := seq 0 (Edge.size emb));
    [| apply queue_grows_by_refl | exact Hfold].
  clear. intros [[set e] q] i s' Hs Hrun. simpl in Hs.
  pose proof Hs as [He _]. simpl in He. subst e.
  unfold extend_edge_position in Hrun. cbv beta iota zeta in Hrun.
  apply bind_Ok_inv in Hrun as (id & Hid & Hrun).
  apply get_vertex_vertex_at in Hid.
  apply bind_Ok_inv in Hrun as (_ & _ & Hrun).
  destruct (bool_decide (id ∈ set)); [by injection Hrun as <- |].
  apply bind_Ok_inv in Hrun as ([e1 q1] & Hfold & Hrun).
  injection Hrun as <-. simpl.
  eapply (foldM_invariant_in
            (queue_grows_by (edge_extension g max_size emb) emb queue));
    [| exact Hs | exact Hfold].
  intros s dst s2 Hdst Hs2 Hf. eapply extend_edge_candidate_emits; eauto.
Qed.

(** X7. When its assertions hold, [extend_edge] returns with the queue grown
    by embeddings each of which is the source embedding with one more
    element: the vertex of that element is a neighbour of the vertex at some
    position i of the embedding, its history is (BYTE) i, its key is the
    number of distinct vertices of the new embedding (as a BYTE), and that
    number does not exceed max_size. *)
Theorem extend_edge_emits_extensions lbl g max_size emb queue :
  histories_inside emb → no_self_edge_after emb 0 → vertices_in_graph g emb →
  ∃ news, extend_edge lbl g max_size emb queue = Ok (emb, queue ++ news)
          ∧ Forall (edge_extension g max_size emb) news.
Proof.
  intros Hwf Hloop Hgraph.
  destruct (extend_edge_total lbl g max_size emb queue Hwf Hloop Hgraph)
    as [[e q] Hrun].
  destruct (extend_edge_emits _ _ _ _ _ _ Hrun) as [He (news & Hq & Hnews)].
  simpl in He, Hq. subst e q. by exists news.
Qed.

Lemma extend_edge_emits_extensions_witness :
  ∃ news, extend_edge false triangle 3 emb_01 [] = Ok (emb_01, [] ++ news)
          ∧ Forall (edge_extension triangle 3 emb_01) news.
Proof.
  apply (extend_edge_emits_extensions false triangle 3 emb_01 []).
  - unfold histories_inside, emb_01, Edge.size. simpl.
    repeat (apply List.Forall_cons; [simpl; lia |]). apply List.Forall_nil.
  - intros i e Hi He. destruct i as [| [| i]]; [lia | | done].
    injection He as <-. simpl. lia.
  - unfold vertices_in_graph, emb_01. simpl.
    repeat (apply List.Forall_cons; [simpl; lia |]). apply List.Forall_nil.
Defined.

Lemma find_vertex_loop_false emb dst : ∀ todo i,
  (i + todo = length emb)%nat → find_vertex_loop emb dst i todo = Ok false →
  dst ∉ drop i emb.
Proof.
  induction todo as [| todo IH]; intros i Hlen Hrun.
  - rewrite drop_ge by lia. apply not_elem_of_nil.
  - destruct (lookup_lt_is_Some_2 emb i ltac:(lia)) as [vi Hvi].
    simpl in Hrun. unfold Vert.get_vertex in Hrun.
    rewrite (index_lookup _ _ _ Hvi), bind_Ok in Hrun.
    rewrite (drop_S _ _ _ Hvi).
    destruct (Z.eqb_spec dst vi) as [Heq | Hne]; [done |].
    apply not_elem_of_cons. split; [done |]. apply IH; [lia | done].
Qed.

(** A candidate that the vertex-induced filter lets through is above the
    first vertex and not in the embedding. *)
Lemma is_vertexInduced_automorphism_accepts g emb idx src dst :
  is_vertexInduced_automorphism g emb idx src dst = Ok false →
  ∃ v0, emb !! 0%nat = Some v0 ∧ v0 < dst ∧ dst ∉ emb.
Proof.
  destruct emb as [| v0 rest]; [done |]. intros Hrun.
  unfold is_vertexInduced_automorphism, Vert.get_vertex in Hrun.
  rewrite (index_lookup (v0 :: rest) 0 v0 eq_refl), bind_Ok in Hrun.
  destruct (Z.leb_spec dst v0) as [Hle | Hgt]; [done |].
  apply bind_Ok_inv in Hrun as (existed & Hfind & Hrun).
  destruct existed; [done |].
  apply find_vertex_loop_false in Hfind; [| unfold Vert.size; simpl; lia].
  exists v0. split; [done |]. split; [done |].
  apply not_elem_of_cons. split; [lia | exact Hfind].
Qed.

Lemma extend_vertex_motif_emits g emb queue st' :
  extend_vertex_motif g emb queue = Ok st' →
  queue_grows_by (motif_extension g emb) emb queue st'.
Proof.
  unfold extend_vertex_motif. intros Hrun.
  eapply (foldM_invariant (queue_grows_by (motif_extension g emb) emb queue));
    [| apply queue_grows_by_refl | exact Hrun].
  clear st' Hrun. intros [e q] i s' Hs Hrun. pose proof Hs as [He _].
  simpl in He. subst e. unfold extend_vertex_motif_position in Hrun.
  apply bind_Ok_inv in Hrun as (src & Hsrc & Hrun). simpl in Hsrc.
  assert (src ∈ emb) as Hin.
  { unfold Vert.get_vertex, index in Hsrc.
    case_match eqn:Hx; [| done]. injection Hsrc as <-.
    eapply list_elem_of_lookup_2, Hx. }
  eapply (foldM_invariant_in
            (queue_grows_by (motif_extension g emb) emb queue));
    [| exact Hs | exact Hrun].
  clear s' Hs Hrun. intros [e q'] dst s' Hdst Hs Hf. pose proof Hs as [He _].
  simpl in He. subst e. unfold extend_vertex_motif_candidate in Hf.
  cbv beta iota in Hf. apply bind_Ok_inv in Hf as (aut & Haut & Hf).
  destruct aut; simpl in Hf; injection Hf as <-; [done |].
  rewrite pop_back_push_back. apply queue_grows_by_push; [done |].
  destruct (is_vertexInduced_automorphism_accepts _ _ _ _ _ Haut)
    as (v0 & Hv0 & Hlt & Hfresh).
  by exists src, dst, v0.
Qed.

(** X8. On an embedding of two vertices or more, [extend_vertex_motif]
    returns with the queue grown by embeddings each of which is the source
    embedding with one more vertex: a neighbour of a vertex of the embedding,
    above the first vertex and not already in the embedding. An embedding
    without repeated vertices is never extended into one with a repeated
    vertex. *)
Theorem extend_vertex_motif_emits_fresh g emb queue :
  (2 ≤ length emb)%nat →
  ∃ news, extend_vertex_motif g emb queue = Ok (emb, queue ++ news)
          ∧ Forall (motif_extension g emb) news
          ∧ (NoDup emb → Forall NoDup news).
Proof.
  intros Hlen.
  destruct (extend_vertex_motif_total g emb queue Hlen) as [[e q] Hrun].
  destruct (extend_vertex_motif_emits _ _ _ _ Hrun) as [He (news & Hq & Hnews)].
  simpl in He, Hq. subst e q. exists news. split; [done |]. split; [done |].
  intros Hnodup. eapply Forall_impl; [exact Hnews |].
  intros e (src & dst & v0 & -> & _ & _ & _ & _ & Hfresh).
  apply NoDup_app. split; [done |]. split.
  - intros x Hx Hxd. apply list_elem_of_singleton in Hxd. by subst x.
  - apply NoDup_singleton.
Qed.

Lemma extend_vertex_motif_emits_fresh_witness :
  ∃ news, extend_vertex_motif triangle [0; 1] [] = Ok ([0; 1], [] ++ news)
          ∧ Forall (motif_extension triangle [0; 1]) news
          ∧ (NoDup [0; 1] → Forall NoDup news).
Proof.
  apply (extend_vertex_motif_emits_fresh triangle [0; 1] []). simpl. lia.
Defined.

(** ** Motif counting *)




(** * The further facts about support and aggregation on the small instance *)

Lemma all_domains_frequent_iff_support_witness :
  all_domains_frequent 2 sets_12_3 = (get_support sets_12_3 >=? 2).
Proof.
  apply (all_domains_frequent_iff_support 2 sets_12_3).
  unfold UINT_MAX. lia.
Defined.

Lemma support_count_keeps_entries_witness :
  snd (support_count count_id 1 one_pattern_map {[9 := 4]}) !! 9 = Some 4
  ∧ is_Some (snd (support_count count_id 1 one_pattern_map {[9 := 4]})
             !! count_id 2)
  ∧ is_Some (snd (support_count_freq count_id 1 one_count_map {[9 := 4]})
             !! count_id 2)
  ∧ snd (support_count count_id 1 one_pattern_map {[9 := 4]}) !! 5
    = ({[9 := 4]} : gmap Z Z) !! 5.
Proof.
  destruct (support_count_keeps_entries count_id 1 one_pattern_map
              one_count_map {[9 := 4]}) as (Hkeep & Hdom & Hfreq & Hother & _).
  split; [apply (Hkeep 9 4); reflexivity |].
  split; [apply Hdom; by eexists |].
  split; [apply Hfreq; by eexists |].
  apply Hother. intros cg [sets Hsets]. unfold one_pattern_map in Hsets.
  apply lookup_singleton_Some in Hsets as [<- _]. discriminate.
Defined.

Lemma canonical_aggregate_sums_frequencies_witness :
  ∃ cg_map : gmap nat Z,
    canonical_aggregate shape_size shape_canonical two_shapes_map ∅ = Ok cg_map
    ∧ cg_map !! 2%nat = Some 7.
Proof.
  destruct (canonical_aggregate_sums_frequencies shape_size shape_canonical
              two_shapes_map) as [Hsum _].
  - unfold two_shapes_map. apply map_Forall_insert_2; [lia |].
    apply map_Forall_insert_2; [lia |]. apply map_Forall_empty.
  - destruct Hsum as (cg_map & Hrun & Hlookup).
    + unfold two_shapes_map. apply map_Forall_insert_2; [simpl; lia |].
      apply map_Forall_insert_2; [simpl; lia |]. apply map_Forall_empty.
    + exists cg_map. split; [exact Hrun |].
      rewrite Hlookup. vm_compute. reflexivity.
Defined.

Lemma quick_aggregate_counts_occurrences_witness :
  quick_aggregate_freq shape_of [emb_13; emb_25; emb_13] ∅ !! shape_of emb_13
  = Some 3.
Proof.
  destruct (quick_aggregate_counts_occurrences shape_of
              [emb_13; emb_25; emb_13] (shape_of emb_13)) as [_ Hexact].
  rewrite Hexact; vm_compute; [reflexivity | reflexivity | lia].
Defined.

Lemma quick_aggregate_domain_collects_positions_witness :
  ∃ qp_map : gmap (list nat) DomainSupport,
    quick_aggregate_domain shape_of [emb_13; emb_25] ∅ = Ok qp_map
    ∧ slot_holds qp_map (shape_of emb_13) 0 2.
Proof.
  destruct (quick_aggregate_domain_collects_positions shape_of
              [emb_13; emb_25] shape_of_fix_size)
    as (qp_map & Hrun & _ & Hslots).
  exists qp_map. split; [exact Hrun |].
  apply Hslots. exists emb_25. split; [| split; reflexivity].
  apply elem_of_cons. right. apply elem_of_cons. by left.
Defined.

Lemma aggregate_clique_emits_per_round_witness :
  key_occurrences own_key [1; 2; 3]
    (aggregate_clique own_key own_size
       [[1; 2; 3]; [1; 2; 3]; [4; 5; 6]; [1; 2; 3]] [])
  = 1%nat.
Proof.
  destruct (aggregate_clique_emits_per_round own_key own_size [1; 2; 3]
              [[1; 2; 3]; [1; 2; 3]; [4; 5; 6]; [1; 2; 3]] []) as [Hround _].
  apply Nat2Z.inj. rewrite Hround; [vm_compute; reflexivity |].
  unfold own_size. simpl. lia.
Defined.



Lemma canonical_aggregate_each_records_first_id_witness :
  ∃ (cg_map' : gmap nat Z) (id_map' : gmap Z Z),
    foldM (λ st e, canonical_aggregate_each_freq_ids shape_size shape_id
                     shape_canonical count_id
                     (fst e) (snd e) (fst st) (snd st))
          two_shapes (∅, ∅)
    = Ok (cg_map', id_map')
    ∧ id_map' !! 3 = Some 2
    ∧ ∃ cg, is_Some (cg_map' !! cg) ∧ count_id cg = 2.
Proof.
  destruct (canonical_aggregate_each_records_first_id shape_size shape_id
              shape_canonical count_id two_shapes ∅ ∅) as [Hrun _].
  destruct Hrun as (cg_map' & id_map' & Hrun & _ & _ & Hids & Hres).
  - unfold two_shapes.
    repeat (apply List.Forall_cons; [simpl; lia |]). apply List.Forall_nil.
  - exists cg_map', id_map'. split; [exact Hrun |].
    assert (id_map' !! 3 = Some 2) as Hthree by (rewrite Hids; reflexivity).
    split; [exact Hthree |].
    apply (Hres ltac:(intros k v Hk; by rewrite lookup_empty in Hk) 3 2 Hthree).
Defined.
